(** * Oceanova: the login and contact route handlers, two pages, the
    MongoDB connection helpers and the observation seeding script,
    embedded and verified.

    Sources embedded here:
    - [src/components/navigation-wrapper.tsx]: [NavigationWrapper], the
      [POST] handler of [/api/login] and the [POST] handler of
      [/api/contact];
    - [src/app/contact/page.tsx]: [ContactPage] and the connection helpers
      of [lib/mongodb.ts];
    - [src/scripts/seed-observations.js]: the seeding script.

    Conventions.  A JavaScript string is a sequence of UTF-16 code units
    ([JS.str]); [trim] and the regular-expression class [\s] use the
    language's full set of white space and line terminators, and
    [String.prototype.toLowerCase], which follows the Unicode tables of
    the engine, is a function supplied by the world.  The texts that the
    seeding script writes itself (region and species names, log lines,
    the names of environment variables) are ASCII and are kept as
    [string].  JavaScript numbers are IEEE-754
    binary64 values, modelled by [spec_float] with the operations of the
    standard library's [SpecFloat] at precision 53.  Awaited calls to collaborators (the
    request, the database driver, bcrypt, the token signer, the mailer)
    are oracles of a world record: each either returns a value or throws,
    and each call is recorded in a trace. *)

From Stdlib Require Import ZArith List String Ascii Bool Lia.
From Stdlib Require Import SpecFloat DecimalString.
Import ListNotations.
Open Scope string_scope.
Set Warnings "-register-all".

(** ** JavaScript values, as parsed from JSON or read from a document *)
Module JS.

(** A string value: its UTF-16 code units, each below [0x10000]. *)
Definition code_unit : Type := N.
Definition str : Type := list code_unit.

Definition unit_of (a : ascii) : code_unit := N_of_ascii a.

(** The value of a string literal of the source; the literals of the
    handlers hold ASCII characters only, one code unit each. *)
Definition lit (s : string) : str := map unit_of (list_ascii_of_string s).
Arguments lit : simpl never.

(** [a === b] on strings. *)
Fixpoint str_eqb (a b : str) : bool :=
  match a, b with
  | [], [] => true
  | x :: a', y :: b' => N.eqb x y && str_eqb a' b'
  | _, _ => false
  end.

Inductive value : Type :=
| VUndefined
| VNull
| VBool (b : bool)
| VNum (x : spec_float)
| VStr (s : str)
| VArr (items : list value)
| VObj (props : list (str * value)).

Inductive exn : Type :=
| TypeError (msg : string)
| Failure (msg : string).

Inductive outcome (A : Type) : Type :=
| Returned (a : A)
| Threw (e : exn).
Arguments Returned {A} a.
Arguments Threw {A} e.

(** ToBoolean: [!v] is [negb (truthy v)]. *)
Definition truthy (v : value) : bool :=
  match v with
  | VUndefined | VNull => false
  | VBool b => b
  | VNum (S754_zero _) | VNum S754_nan => false
  | VNum _ => true
  | VStr [] => false
  | VStr (_ :: _) => true
  | VArr _ | VObj _ => true
  end.

(** [a || b] on values. *)
Definition or_else (a b : value) : value := if truthy a then a else b.

Fixpoint assoc (k : str) (props : list (str * value)) : value :=
  match props with
  | [] => VUndefined
  | (k', v) :: rest => if str_eqb k' k then v else assoc k rest
  end.

(** Reading the property [k] of an object-coercible value.  The handlers
    only read [email], [password], [firstName], [lastName], [institution],
    [message] and [success]; none of them is a builtin property of a
    string, number, boolean or array, so such a read yields [undefined]. *)
Definition get (v : value) (k : str) : value :=
  match v with
  | VObj props => assoc k props
  | _ => VUndefined
  end.

(** Destructuring [const { ... } = v] throws on [null] and [undefined]
    before any property is read. *)
Definition require_object_coercible (v : value) : outcome unit :=
  match v with
  | VUndefined => Threw (TypeError "Cannot destructure 'undefined'")
  | VNull => Threw (TypeError "Cannot destructure 'null'")
  | _ => Returned tt
  end.

(** [String(v)] and the coercion done by [RegExp.prototype.test].  The
    primitive cases are fixed by the language; the conversion of numbers,
    arrays and objects (which may also throw) is left to the oracle
    [convert]. *)
Definition ToString (convert : value -> outcome str) (v : value)
  : outcome str :=
  match v with
  | VStr s => Returned s
  | VUndefined => Returned (lit "undefined")
  | VNull => Returned (lit "null")
  | VBool true => Returned (lit "true")
  | VBool false => Returned (lit "false")
  | _ => convert v
  end.

(** *** String builtins *)

(** The code units that [String.prototype.trim] strips and that the
    class [\s] matches: the WhiteSpace and LineTerminator productions of
    the language (TAB, LF, VT, FF, CR, SP, NBSP, the other space
    separators of Unicode, LS, PS and the byte order mark). *)
Definition is_white_space (c : code_unit) : bool :=
  (((0x09 <=? c) && (c <=? 0x0D))
   || (c =? 0x20) || (c =? 0xA0) || (c =? 0x1680)
   || ((0x2000 <=? c) && (c <=? 0x200A))
   || (c =? 0x2028) || (c =? 0x2029) || (c =? 0x202F)
   || (c =? 0x205F) || (c =? 0x3000) || (c =? 0xFEFF))%N.

Fixpoint trimStart (s : str) : str :=
  match s with
  | [] => []
  | c :: rest => if is_white_space c then trimStart rest else s
  end.

Definition trimEnd (s : str) : str := rev (trimStart (rev s)).

Definition trim (s : str) : str := trimEnd (trimStart s).

(** A run of white space. *)
Definition blank (s : str) : Prop := Forall (fun c => is_white_space c = true) s.

(** [s.split(c)] for a separator of one character; never empty. *)
Fixpoint split (c : code_unit) (s : str) : list str :=
  match s with
  | [] => [[]]
  | a :: rest =>
      if N.eqb a c then [] :: split c rest
      else
        match split c rest with
        | [] => [[a]]
        | first :: others => (a :: first) :: others
        end
  end.

(** [s.startsWith(p)] *)
Fixpoint starts_with (p s : str) : bool :=
  match p, s with
  | [], _ => true
  | x :: p', y :: s' => N.eqb x y && starts_with p' s'
  | _ :: _, [] => false
  end.

(** [l.join(c)] for a separator of one character. *)
Fixpoint join (c : code_unit) (l : list str) : str :=
  match l with
  | [] => []
  | [s] => s
  | s :: rest => (s ++ c :: join c rest)%list
  end.

(** [s.indexOf(c)] for a character [c]; [None] is [-1]. *)
Fixpoint index_of (c : code_unit) (s : str) : option nat :=
  match s with
  | [] => None
  | a :: rest => if N.eqb a c then Some O else option_map S (index_of c rest)
  end.

(** [toUpperCase] on a text of the seeding script (a region name). *)
Definition upper_char (c : ascii) : ascii :=
  let n := nat_of_ascii c in
  if ((97 <=? n) && (n <=? 122))%nat then ascii_of_nat (n - 32) else c.

Fixpoint toUpperCase (s : string) : string :=
  match s with
  | EmptyString => EmptyString
  | String c rest => String (upper_char c) (toUpperCase rest)
  end.

(** *** Regular expressions, matched by derivatives *)

Inductive regex : Type :=
| Void
| Eps
| Class (p : code_unit -> bool)
| Cat (r s : regex)
| Alt (r s : regex)
| Star (r : regex).

Definition Plus (r : regex) : regex := Cat r (Star r).
Definition Lit (c : code_unit) : regex := Class (N.eqb c).

Fixpoint nullable (r : regex) : bool :=
  match r with
  | Void => false
  | Eps => true
  | Class _ => false
  | Cat r s => nullable r && nullable s
  | Alt r s => nullable r || nullable s
  | Star _ => true
  end.

Fixpoint deriv (c : code_unit) (r : regex) : regex :=
  match r with
  | Void => Void
  | Eps => Void
  | Class p => if p c then Eps else Void
  | Cat r s =>
      if nullable r then Alt (Cat (deriv c r) s) (deriv c s)
      else Cat (deriv c r) s
  | Alt r s => Alt (deriv c r) (deriv c s)
  | Star r => Cat (deriv c r) (Star r)
  end.

(** [/^r$/.test(s)] for a regex without flags: the whole of [s] is
    matched, one code unit at a time. *)
Fixpoint test (r : regex) (s : str) : bool :=
  match s with
  | [] => nullable r
  | c :: rest => test (deriv c r) rest
  end.

(** The strings that a regex matches in full. *)
Inductive matches : regex -> str -> Prop :=
| matches_eps : matches Eps []
| matches_class p c : p c = true -> matches (Class p) [c]
| matches_cat r1 r2 s1 s2 :
    matches r1 s1 -> matches r2 s2 -> matches (Cat r1 r2) (s1 ++ s2)%list
| matches_left r1 r2 s : matches r1 s -> matches (Alt r1 r2) s
| matches_right r1 r2 s : matches r2 s -> matches (Alt r1 r2) s
| matches_none r : matches (Star r) []
| matches_more r s1 s2 :
    matches r s1 -> matches (Star r) s2 -> matches (Star r) (s1 ++ s2)%list.

End JS.

(** ** Effects: a trace of collaborator calls, and exceptions *)
Module Eff.
Import JS.

Record contact_data : Type := {
  cd_firstName : value;
  cd_lastName : value;
  cd_email : value;
  cd_institution : value;
  cd_message : value }.

Record jwt_payload : Type := {
  jp_id : str;
  jp_email : value }.

Inductive event : Type :=
| EvReqJson
| EvGetUserCollection
| EvFindOne (email : str)
| EvBcryptCompare (password hash : value)
| EvJwtSign (payload : jwt_payload) (secret expiresIn : str)
| EvSendContactEmail (data : contact_data)
| EvConsoleError (label : str) (e : exn).

Definition trace : Type := list event.

(** A computation appends to the trace of what happened before it and
    either returns or throws. *)
Definition M (A : Type) : Type := trace -> outcome A * trace.

Definition ret {A} (a : A) : M A := fun t => (Returned a, t).

Definition throw {A} (e : exn) : M A := fun t => (Threw e, t).

Definition bind {A B} (m : M A) (k : A -> M B) : M B :=
  fun t =>
    match m t with
    | (Returned a, t') => k a t'
    | (Threw e, t') => (Threw e, t')
    end.

(** A call that is observed: the event is recorded, then the collaborator's
    outcome is the outcome of the call. *)
Definition call {A} (ev : event) (o : outcome A) : M A :=
  fun t => (o, (t ++ [ev])%list).

(** A pure step that may throw, not recorded. *)
Definition lift {A} (o : outcome A) : M A := fun t => (o, t).

Definition try_catch {A} (m : M A) (handler : exn -> M A) : M A :=
  fun t =>
    match m t with
    | (Returned a, t') => (Returned a, t')
    | (Threw e, t') => handler e t'
    end.

Definition console_error (label : str) (e : exn) : M unit :=
  call (EvConsoleError label e) (Returned tt).

(** The events that are calls to the mailer. *)
Definition is_send (ev : event) : bool :=
  match ev with
  | EvSendContactEmail _ => true
  | _ => false
  end.

End Eff.

Declare Scope eff_scope.
Delimit Scope eff_scope with eff.
Notation "x <- m ;; k" := (Eff.bind m (fun x => k))
  (at level 61, m at next level, right associativity) : eff_scope.
Notation "m ;;; k" := (Eff.bind m (fun _ => k))
  (at level 61, right associativity) : eff_scope.

(** ** HTTP responses *)
Module Http.
Import JS.

Record cookie : Type := {
  name : str;
  cvalue : str;
  httpOnly : bool;
  secure : bool;
  sameSite : str;
  maxAge : Z;
  path : str }.

Record response : Type := {
  status : Z;
  body : value;
  cookies : list cookie }.

(** [NextResponse.json(body, { status })]; the status defaults to 200. *)
Definition json (b : value) (st : option Z) : response :=
  {| status := match st with Some s => s | None => 200%Z end;
     body := b;
     cookies := [] |}.

(** [response.cookies.set(...)]: a cookie of the same name is replaced. *)
Definition cookies_set (r : response) (c : cookie) : response :=
  {| status := status r;
     body := body r;
     cookies :=
       (filter (fun c' => negb (str_eqb (name c') (name c))) (cookies r) ++ [c])%list |}.

End Http.

(** ** [POST /api/login] (navigation-wrapper.tsx, lines 27-99) *)
Module Login.
Import JS Eff Http.
Local Open Scope eff_scope.

(** A document of the user collection, as the handler reads it.  [_id] is
    the driver's ObjectId, whose [toString()] is its hexadecimal text. *)
Record user : Type := {
  _id : str;
  email : value;
  password : value;
  firstName : value;
  username : value;
  lastName : value;
  dob : value;
  avatar : value }.

(** The environment, the platform and the collaborators of one request.
    [toLowerCase] is [String.prototype.toLowerCase]: the case mapping of
    the Unicode version the engine carries, on the whole string. *)
Record world : Type := {
  env_JWT_SECRET : option str;
  env_NODE_ENV : option str;
  toLowerCase : str -> str;
  req_json : outcome value;
  convert : value -> outcome str;
  getUserCollection : outcome unit;
  findOne : str -> outcome (option user);
  bcrypt_compare : value -> value -> outcome bool;
  jwt_sign : jwt_payload -> str -> str -> outcome str }.

(** [process.env.JWT_SECRET || "supersecret"] *)
Definition JWT_SECRET (w : world) : str :=
  match env_JWT_SECRET w with
  | Some (c :: s) => c :: s
  | Some [] | None => lit "supersecret"
  end.

(** [process.env.NODE_ENV === "production"] *)
Definition is_production (w : world) : bool :=
  match env_NODE_ENV w with
  | Some s => str_eqb s (lit "production")
  | None => false
  end.

Definition message (m : str) : value := VObj [(lit "message", VStr m)].

(** [s.trim().toLowerCase()] *)
Definition normalize (w : world) (s : str) : str := toLowerCase w (trim s).

Definition user_view (u : user) : value :=
  VObj [ (lit "id", VStr (_id u));
         (lit "email", email u);
         (lit "firstName", or_else (firstName u) (username u));
         (lit "lastName", or_else (lastName u) (VStr (lit "")));
         (lit "dob", dob u);
         (lit "avatar", avatar u) ].

Definition auth_cookie (w : world) (token : str) : cookie :=
  {| name := lit "auth_token";
     cvalue := token;
     httpOnly := true;
     secure := is_production w;
     sameSite := lit "lax";
     maxAge := 3600;
     path := lit "/" |}.

(** What the normalization of the handler has of the case mapping of
    Unicode: lowercasing a lowercased string changes nothing, and, blanks
    being caseless and no letter becoming a blank, lowercasing leaves the
    blanks at both ends where they are. *)
Record case_mapping (lower : str -> str) : Prop := {
  lower_idempotent : forall s, lower (lower s) = lower s;
  lower_trim : forall s, trim (lower s) = lower (trim s) }.

(** The [try] block. *)
Definition attempt (w : world) : M response :=
  body <- call EvReqJson (req_json w) ;;
  lift (require_object_coercible body) ;;;
  let email := get body (lit "email") in
  let password := get body (lit "password") in
  if negb (truthy email) || negb (truthy password) then
    ret (json (message (lit "Missing email or password")) (Some 400%Z))
  else
    s <- lift (ToString (convert w) email) ;;
    let normalizedEmail := normalize w s in
    call EvGetUserCollection (getUserCollection w) ;;;
    found <- call (EvFindOne normalizedEmail) (findOne w normalizedEmail) ;;
    match found with
    | None => ret (json (message (lit "Invalid credentials")) (Some 401%Z))
    | Some user =>
        if negb (truthy (Login.password user)) then
          ret (json (message (lit "This account uses Google Sign-In. Please sign in with Google or reset your password.")) (Some 400%Z))
        else
          isPasswordValid <-
            call (EvBcryptCompare password (Login.password user))
                 (bcrypt_compare w password (Login.password user)) ;;
          if negb isPasswordValid then
            ret (json (message (lit "Invalid credentials")) (Some 401%Z))
          else
            let payload := {| jp_id := _id user; jp_email := Login.email user |} in
            token <- call (EvJwtSign payload (JWT_SECRET w) (lit "1h"))
                          (jwt_sign w payload (JWT_SECRET w) (lit "1h")) ;;
            let response :=
              json (VObj [ (lit "message", VStr (lit "Login successful"));
                           (lit "user", user_view user) ]) (Some 200%Z) in
            ret (cookies_set response (auth_cookie w token))
    end.

Definition internal_error : response :=
  json (message (lit "Internal server error")) (Some 500%Z).

(** Both required fields are present (truthy). *)
Definition present (body : value) : bool :=
  truthy (get body (lit "email")) && truthy (get body (lit "password")).

(** Parsing the request body, or a call made after it, throws [e]. *)
Inductive throws (w : world) (e : exn) : Prop :=
| throws_json :
    req_json w = Threw e -> throws w e
| throws_String body :
    req_json w = Returned body -> present body = true ->
    ToString (convert w) (get body (lit "email")) = Threw e -> throws w e
| throws_getUserCollection body s :
    req_json w = Returned body -> present body = true ->
    ToString (convert w) (get body (lit "email")) = Returned s ->
    getUserCollection w = Threw e -> throws w e
| throws_findOne body s :
    req_json w = Returned body -> present body = true ->
    ToString (convert w) (get body (lit "email")) = Returned s ->
    getUserCollection w = Returned tt ->
    findOne w (normalize w s) = Threw e -> throws w e
| throws_compare body s u :
    req_json w = Returned body -> present body = true ->
    ToString (convert w) (get body (lit "email")) = Returned s ->
    getUserCollection w = Returned tt ->
    findOne w (normalize w s) = Returned (Some u) ->
    truthy (password u) = true ->
    bcrypt_compare w (get body (lit "password")) (password u) = Threw e -> throws w e
| throws_sign body s u :
    req_json w = Returned body -> present body = true ->
    ToString (convert w) (get body (lit "email")) = Returned s ->
    getUserCollection w = Returned tt ->
    findOne w (normalize w s) = Returned (Some u) ->
    truthy (password u) = true ->
    bcrypt_compare w (get body (lit "password")) (password u) = Returned true ->
    jwt_sign w {| jp_id := _id u; jp_email := email u |} (JWT_SECRET w) (lit "1h")
      = Threw e -> throws w e.

Definition POST (w : world) : M response :=
  try_catch (attempt w)
    (fun error => console_error (lit "Login error:") error ;;; ret internal_error).

(** The same world with another request body. *)
Definition with_body (w : world) (b : value) : world :=
  {| env_JWT_SECRET := env_JWT_SECRET w;
     env_NODE_ENV := env_NODE_ENV w;
     toLowerCase := toLowerCase w;
     req_json := Returned b;
     convert := convert w;
     getUserCollection := getUserCollection w;
     findOne := findOne w;
     bcrypt_compare := bcrypt_compare w;
     jwt_sign := jwt_sign w |}.

(** The body [{ email, password }] with a string for the email. *)
Definition credentials (e : str) (pw : value) : value :=
  VObj [(lit "email", VStr e); (lit "password", pw)].

(** The handler run on a fresh trace for the request [{ email, password }]. *)
Definition login (w : world) (e : str) (pw : value) : outcome response * trace :=
  POST (with_body w (credentials e pw)) [].

End Login.

(** ** [POST /api/contact] (navigation-wrapper.tsx, lines 99-151) *)
Module Contact.
Import JS Eff Http.
Local Open Scope eff_scope.

Record world : Type := {
  req_json : outcome value;
  convert : value -> outcome str;
  sendContactEmail : contact_data -> outcome value }.

Definition error (m : str) : value := VObj [(lit "error", VStr m)].

(** [[^\s@]] *)
Definition not_space_or_at (c : code_unit) : bool :=
  negb (is_white_space c || N.eqb c (unit_of "@")).

(** [/^[^\s@]+@[^\s@]+\.[^\s@]+$/] *)
Definition emailRegex : regex :=
  Cat (Plus (Class not_space_or_at))
    (Cat (Lit (unit_of "@"))
       (Cat (Plus (Class not_space_or_at))
          (Cat (Lit (unit_of ".")) (Plus (Class not_space_or_at))))).

Definition attempt (w : world) : M response :=
  body <- call EvReqJson (req_json w) ;;
  lift (require_object_coercible body) ;;;
  let firstName := get body (lit "firstName") in
  let lastName := get body (lit "lastName") in
  let email := get body (lit "email") in
  let institution := get body (lit "institution") in
  let message := get body (lit "message") in
  if negb (truthy firstName) || negb (truthy lastName)
     || negb (truthy email) || negb (truthy message) then
    ret (json (error (lit "All fields are required")) (Some 400%Z))
  else
    s <- lift (ToString (convert w) email) ;;
    if negb (test emailRegex s) then
      ret (json (error (lit "Please enter a valid email address")) (Some 400%Z))
    else
      let data :=
        {| cd_firstName := firstName;
           cd_lastName := lastName;
           cd_email := email;
           cd_institution := or_else institution (VStr (lit "Not specified"));
           cd_message := message |} in
      emailResult <- call (EvSendContactEmail data) (sendContactEmail w data) ;;
      lift (require_object_coercible emailResult) ;;;
      if negb (truthy (get emailResult (lit "success"))) then
        ret (json (error (lit "Failed to send message. Please try again.")) (Some 500%Z))
      else
        ret (json (VObj [ (lit "success", VBool true);
                          (lit "message", VStr (lit "Message sent successfully! We'll get back to you soon.")) ])
                  None).

Definition internal_error : response :=
  json (error (lit "Internal server error. Please try again later.")) (Some 500%Z).

(** All four required fields are present (truthy). *)
Definition present (body : value) : bool :=
  truthy (get body (lit "firstName")) && truthy (get body (lit "lastName"))
  && truthy (get body (lit "email")) && truthy (get body (lit "message")).

(** What the mailer is given for a body. *)
Definition fields (body : value) : contact_data :=
  {| cd_firstName := get body (lit "firstName");
     cd_lastName := get body (lit "lastName");
     cd_email := get body (lit "email");
     cd_institution := or_else (get body (lit "institution")) (VStr (lit "Not specified"));
     cd_message := get body (lit "message") |}.

(** Parsing the request body, or a call made after it, throws [e]. *)
Inductive throws (w : world) (e : exn) : Prop :=
| throws_json :
    req_json w = Threw e -> throws w e
| throws_String body :
    req_json w = Returned body -> present body = true ->
    ToString (convert w) (get body (lit "email")) = Threw e -> throws w e
| throws_send body s :
    req_json w = Returned body -> present body = true ->
    ToString (convert w) (get body (lit "email")) = Returned s ->
    test emailRegex s = true ->
    sendContactEmail w (fields body) = Threw e -> throws w e.

Definition POST (w : world) : M response :=
  try_catch (attempt w)
    (fun error => console_error (lit "Contact form error:") error ;;; ret internal_error).

End Contact.

(** ** [NavigationWrapper] (navigation-wrapper.tsx, lines 1-24) and
    [ContactPage] (contact/page.tsx, lines 1-22) *)
Module Page.
Import JS.








End Page.

(** ** [lib/mongodb.ts] (contact/page.tsx, lines 23-152) *)
Module Mongo.
Import JS.

(** The keys of the query parameters that are dropped. *)
Definition unsupported (key : str) : bool :=
  str_eqb key (lit "tlsminversion") || str_eqb key (lit "tlsversion")
  || str_eqb key (lit "sslminversion").

(** [p.split("=")[0].toLowerCase()], for the [toLowerCase] of the engine. *)
Definition key_of (toLowerCase : str -> str) (p : str) : str :=
  toLowerCase (hd [] (split (unit_of "=") p)).

Definition stripUnsupportedMongoOptions (toLowerCase : str -> str) (uri : str)
  : str :=
  match index_of (unit_of "?") uri with
  | None => uri
  | Some idx =>
      let base := firstn idx uri in
      let query := skipn (S idx) uri in
      let keep :=
        filter (fun p => negb (unsupported (key_of toLowerCase p)))
               (split (unit_of "&") query) in
      match keep with
      | [] => base
      | _ :: _ => (base ++ unit_of "?" :: join (unit_of "&") keep)%list
      end
  end.

(** The length of the match of [/^mongodb(\+srv)?:\/\//], if any. *)
Definition protocol_length (base : str) : option nat :=
  if starts_with (lit "mongodb+srv://") base then Some 14%nat
  else if starts_with (lit "mongodb://") base then Some 10%nat
  else None.

(** Nothing in the [try] block throws on strings, so the [catch] clause
    is never entered. *)
Definition ensureDbInUri (uri : str) (dbName : option str) : str :=
  match dbName with
  | None | Some [] => uri
  | Some dbName =>
      let qIdx := index_of (unit_of "?") uri in
      let base := match qIdx with None => uri | Some i => firstn i uri end in
      let query := match qIdx with None => [] | Some i => skipn i uri end in
      match protocol_length base with
      | None => uri
      | Some n =>
          let proto := firstn n base in
          let rest := skipn n base in
          let slashIdx := index_of (unit_of "/") rest in
          let hasDb :=
            match slashIdx with
            | Some i => (0 <? List.length (skipn (S i) rest))%nat
            | None => false
            end in
          if hasDb then uri
          else
            let hostPart :=
              match slashIdx with None => rest | Some i => firstn i rest end in
            (proto ++ hostPart ++ unit_of "/" :: dbName ++ query)%list
      end
  end.

(** The module-level cache, [global.mongoose]. *)
Record cache : Type := {
  conn : bool;
  promise : option (outcome unit) }.

Inductive event : Type :=
| SetStrictQuery
| MongooseConnect (uri : str)
| LogConnected
| LogConnectionError (e : exn).

(** The configuration read when the module is loaded (without
    [MONGODB_URI] loading it throws, so there is one), the engine's
    [toLowerCase], the outcome of [mongoose.connect] and whether the
    connection exposes a native [db]. *)
Record world : Type := {
  MONGODB_URI : str;
  MONGODB_DB : option str;
  toLowerCase : str -> str;
  mongoose_connect : outcome unit;
  native_db : bool }.

Definition CLEANED_MONGODB_URI (w : world) : str :=
  stripUnsupportedMongoOptions (toLowerCase w)
    (ensureDbInUri (MONGODB_URI w) (MONGODB_DB w)).

(** [connectDB]: the outcome, the cache afterwards and what was done. *)
Definition connectDB (w : world) (cached : cache)
  : outcome unit * cache * list event :=
  if conn cached then (Returned tt, cached, [])
  else
    let '(pending, calls) :=
      match promise cached with
      | Some p => (p, [])
      | None =>
          (mongoose_connect w,
           [SetStrictQuery; MongooseConnect (CLEANED_MONGODB_URI w)])
      end in
    match pending with
    | Returned _ =>
        (Returned tt, {| conn := true; promise := Some pending |},
         (calls ++ [LogConnected])%list)
    | Threw e =>
        (Threw e, {| conn := false; promise := None |},
         (calls ++ [LogConnectionError e])%list)
    end.



End Mongo.

(** ** JavaScript numbers: IEEE-754 binary64 *)
Module Num.

Definition prec : Z := 53.
Definition emax : Z := 1024.

Definition num : Type := spec_float.

Definition mul : num -> num -> num := SFmul prec emax.
Definition add : num -> num -> num := SFadd prec emax.
Definition sub : num -> num -> num := SFsub prec emax.
Definition div : num -> num -> num := SFdiv prec emax.
Definition abs : num -> num := SFabs.

(** The number denoted by an integer literal. *)
Definition of_Z (n : Z) : num := binary_normalize prec emax n 0 false.

(** The number denoted by [m * 2^e], for literals such as [7.5]. *)
Definition dyadic (m e : Z) : num := binary_normalize prec emax m e false.

(** [a >= b], [a <= b] and [a < b]; each is [false] when an operand is NaN. *)
Definition ge (a b : num) : bool := SFleb b a.
Definition le (a b : num) : bool := SFleb a b.
Definition lt (a b : num) : bool := SFltb a b.

(** [Math.floor] *)
Definition floor (x : num) : num :=
  match x with
  | S754_finite s m e =>
      if (0 <=? e)%Z then x
      else
        let n := Z.shiftr (cond_Zopp s (Zpos m)) (- e) in
        if (n =? 0)%Z then S754_zero false else of_Z n
  | _ => x
  end.

(** [Math.round]: the nearest integer, ties towards +infinity; a result
    of zero keeps the sign of the argument. *)
Definition round (x : num) : num :=
  match x with
  | S754_finite s m e =>
      if (0 <=? e)%Z then x
      else
        let n := Z.shiftr (cond_Zopp s (Zpos m) + 2 ^ (- e - 1)) (- e) in
        if (n =? 0)%Z then S754_zero s else of_Z n
  | _ => x
  end.

(** The integer an integer-valued number denotes, if it is one. *)
Definition to_Z (x : num) : option Z :=
  match x with
  | S754_zero _ => Some 0%Z
  | S754_finite s m e =>
      if (0 <=? e)%Z then Some (cond_Zopp s (Zpos m * 2 ^ e))
      else if (Zpos m mod 2 ^ (- e) =? 0)%Z
           then Some (cond_Zopp s (Zpos m / 2 ^ (- e)))
           else None
  | _ => None
  end.

(** [list[x]]: the element at an index that is a number; [None] is
    [undefined]. *)
Definition index {A} (l : list A) (x : num) : option A :=
  match to_Z x with
  | Some n => if (n <? 0)%Z then None else nth_error l (Z.to_nat n)
  | None => None
  end.

(** ToIntegerOrInfinity on a finite number: truncation towards zero. *)
Definition trunc (x : num) : num :=
  match x with
  | S754_finite s m e =>
      if (0 <=? e)%Z then x
      else
        let n := Z.shiftr (Zpos m) (- e) in
        if (n =? 0)%Z then S754_zero s else of_Z (cond_Zopp s n)
  | _ => x
  end.

(** What [Math.random] may return: a binary64 number [r] with [0 <= r < 1]. *)
Definition unit_interval (r : num) : bool :=
  match r with
  | S754_zero false => true
  | S754_finite false m e => bounded prec emax m e && lt r (of_Z 1)
  | _ => false
  end.

Definition is_nan (x : num) : bool :=
  match x with
  | S754_nan => true
  | _ => false
  end.

(** TimeClip, applied by [new Date(t)]; NaN is the invalid date. *)
Definition TimeClip (t : num) : num :=
  match t with
  | S754_nan | S754_infinity _ => S754_nan
  | _ =>
      if lt (of_Z 8640000000000000) (abs t) then S754_nan
      else add (trunc t) (S754_zero false)
  end.

End Num.

(** ** The seeding script (scripts/seed-observations.js) *)
Module Seed.
Import JS Num.

(** *** Environment and URI helpers *)

(** [process.env], after [loadDotEnv]: the variables are named by the
    script; their values are any strings. *)
Definition environment : Type := string -> option str.

Definition getEnv (env : environment) (name : string) (fallback : option str)
  : option str :=
  match env name with
  | None | Some [] => fallback
  | Some v => Some v
  end.

(** [s.replace(/^mongodb(\+srv)?:\/\//, "")] *)
Definition strip_protocol (uri : str) : str :=
  if starts_with (lit "mongodb+srv://") uri then skipn 14 uri
  else if starts_with (lit "mongodb://") uri then skipn 10 uri
  else uri.

(** [null] is [None]. *)
Definition getDbNameFromUri (uri : str) : option str :=
  let afterProtocol := strip_protocol uri in
  let path :=
    match nth_error (split (unit_of "/") afterProtocol) 1 with
    | Some p => p
    | None => []
    end in
  match hd [] (split (unit_of "?") path) with
  | [] => None
  | db => Some db
  end.

(** *** Random data *)

(** The state of a run: how many times [Math.random] was called. *)
Definition R (A : Type) : Type := nat -> outcome A * nat.

Definition rret {A} (a : A) : R A := fun n => (Returned a, n).
Definition rthrow {A} (e : exn) : R A := fun n => (Threw e, n).
Definition rbind {A B} (m : R A) (k : A -> R B) : R B :=
  fun n =>
    match m n with
    | (Returned a, n') => k a n'
    | (Threw e, n') => (Threw e, n')
    end.

Section Generation.

(** [Math.random]: the number returned by the [k]-th call. *)
Variable random : nat -> num.
(** [new Date()] at the start of the run, as a time value. *)
Variable now : num.
(** [x.toFixed(1)] *)
Variable toFixed1 : num -> string.

Definition Math_random : R num := fun n => (Returned (random n), S n).

Local Notation "x <- m ;; k" := (rbind m (fun x => k))
  (at level 61, m at next level, right associativity).

Definition randomChoice (list : list string) : R (option string) :=
  r <- Math_random ;;
  rret (index list (floor (mul r (of_Z (Z.of_nat (List.length list)))))).

Definition randomInRange (min max : num) : R num :=
  r <- Math_random ;;
  rret (add (mul r (sub max min)) min).

Definition pickThreatByWaterQuality (wq : num) : string :=
  if ge wq (dyadic 15 (-1)) then "low"
  else if ge wq (dyadic 11 (-1)) then "medium"
  else if ge wq (dyadic 7 (-1)) then "high"
  else "critical".

Record profile : Type := {
  temp : num * num;
  lat : num * num;
  lon : num * num }.

Definition range (a b : Z) : num * num := (of_Z a, of_Z b).

Definition regions : list string := ["pacific"; "atlantic"; "indian"; "arctic"].

Definition speciesPool : list string :=
  [ "Blue Whale"; "Loggerhead Turtle"; "Giant Manta Ray"; "Great White Shark";
    "Humboldt Squid"; "Atlantic Cod"; "Clownfish"; "Emperor Penguin";
    "Narwhal"; "Sea Otter"; "Sardine"; "Yellowfin Tuna"; "Coral Grouper";
    "Dugong"; "Seahorse"; "Sperm Whale"; "Albatross"; "Krill"; "Flying Fish";
    "Anglerfish" ].

Definition statuses : list string :=
  [ "Least Concern"; "Near Threatened"; "Vulnerable"; "Endangered";
    "Critically Endangered" ].

Definition regionProfiles : list (string * profile) :=
  [ ("pacific", {| temp := range 6 28; lat := range (-40) 40; lon := range (-160) (-120) |});
    ("atlantic", {| temp := range 5 26; lat := range (-30) 50; lon := range (-60) (-20) |});
    ("indian", {| temp := range 8 30; lat := range (-35) 20; lon := range 50 100 |});
    ("arctic", {| temp := range 2 8; lat := range 65 80; lon := range (-160) 40 |}) ].

(** [regionProfiles[region]]; an [undefined] region reads the property
    named "undefined", which does not exist. *)
Fixpoint lookup_profile (table : list (string * profile)) (region : string)
  : option profile :=
  match table with
  | [] => None
  | (k, p) :: rest => if k =? region then Some p else lookup_profile rest region
  end.

Record observation : Type := {
  createdAt : num;
  region : option string;
  species : option string;
  speciesCount : num;
  conservationStatus : option string;
  waterQuality : num;
  threatLevel : string;
  temperature : num;
  depth : num;
  coordinates : num * num;
  location : string }.

Definition monthsBack : num := of_Z 6.
Definition totalDocs : nat := 100.

(** One iteration of the [for] loop: the document pushed onto [docs]. *)
Definition iteration : R observation :=
  region <- randomChoice regions ;;
  species <- randomChoice speciesPool ;;
  status <- randomChoice statuses ;;
  r <- Math_random ;;
  let daysAgo := floor (mul (mul r monthsBack) (of_Z 30)) in
  let createdAt :=
    TimeClip
      (sub now (mul (mul (mul (mul daysAgo (of_Z 24)) (of_Z 60)) (of_Z 60))
                    (of_Z 1000))) in
  match lookup_profile regionProfiles
          (match region with Some r => r | None => "undefined" end) with
  | None => rthrow (TypeError "Cannot read properties of undefined (reading 'temp')")
  | Some prof =>
      t <- randomInRange (fst (temp prof)) (snd (temp prof)) ;;
      let temperature := div (round (mul t (of_Z 10))) (of_Z 10) in
      la <- randomInRange (fst (lat prof)) (snd (lat prof)) ;;
      lo <- randomInRange (fst (lon prof)) (snd (lon prof)) ;;
      let coordinates :=
        (div (round (mul la (of_Z 1000))) (of_Z 1000),
         div (round (mul lo (of_Z 1000))) (of_Z 1000)) in
      q <- randomInRange (of_Z 2) (of_Z 9) ;;
      let waterQuality := div (round (mul q (of_Z 10))) (of_Z 10) in
      let threatLevel := pickThreatByWaterQuality waterQuality in
      c <- randomInRange (of_Z 5) (of_Z 300) ;;
      let speciesCount := floor c in
      d <- randomInRange (of_Z 10) (of_Z 3500) ;;
      let depth := floor d in
      match region with
      | None => rthrow (TypeError "Cannot read properties of undefined (reading 'toUpperCase')")
      | Some name =>
          let location :=
            toUpperCase name ++ " " ++ toFixed1 (abs (fst coordinates))
              ++ "/" ++ toFixed1 (abs (snd coordinates)) in
          rret {| createdAt := createdAt;
                  region := region;
                  species := species;
                  speciesCount := speciesCount;
                  conservationStatus := status;
                  waterQuality := waterQuality;
                  threatLevel := threatLevel;
                  temperature := temperature;
                  depth := depth;
                  coordinates := coordinates;
                  location := location |}
      end
  end.

(** [for (let i = 0; i < totalDocs; i++) { ...; docs.push(doc) }], with
    [remaining] iterations still to run. *)
Fixpoint loop (remaining : nat) (docs : list observation)
  : R (list observation) :=
  match remaining with
  | O => rret docs
  | S k => doc <- iteration ;; loop k (docs ++ [doc])%list
  end.

Definition generate : R (list observation) := loop totalDocs [].

End Generation.

(** *** [main] *)

Inductive event : Type :=
| ConsoleLog (msg : string)
| ConsoleError (msg : string) (err : option exn)
| NewMongoClient (uri : str)
| Connect
| Collection (db : str) (name : string)
| CreateIndex (keys : list (string * Z))
| InsertMany (docs : list observation)
| Close.


Record world : Type := {
  env : environment;
  random : nat -> num;
  now : num;
  toFixed1 : num -> string;
  show_count : num -> string;
  newMongoClient : outcome unit;
  connect : outcome unit;
  createIndexes : outcome unit;
  insertMany : list observation -> outcome num;
  close : outcome unit }.

(** How a run of [main] ends. *)
Inductive ending : Type :=
| Completed
| Rejected (e : exn)
| Exited (code : Z).

Record run : Type := {
  ended : ending;
  exitCode : option Z;
  events : list event }.

Definition decimal (n : nat) : string := NilEmpty.string_of_uint (Nat.to_uint n).

(** The [try] block, given the events so far; it ends normally or throws. *)
Definition attempt (w : world) (dbName : str) (t : list event)
  : outcome unit * list event :=
  let t := (t ++ [ConsoleLog "[seed] Connecting to MongoDB..."; Connect])%list in
  match connect w with
  | Threw e => (Threw e, t)
  | Returned _ =>
      let t :=
        (t ++ [ Collection dbName "species_observations";
                ConsoleLog "[seed] Creating helpful indexes (if not present)...";
                CreateIndex [("createdAt", (-1)%Z)];
                CreateIndex [("region", 1%Z); ("createdAt", (-1)%Z)];
                CreateIndex [("species", 1%Z)] ])%list in
      match createIndexes w with
      | Threw e => (Threw e, t)
      | Returned _ =>
          match generate (random w) (now w) (toFixed1 w) 0%nat with
          | (Threw e, _) => (Threw e, t)
          | (Returned docs, _) =>
              let t :=
                (t ++ [ ConsoleLog ("[seed] Inserting " ++ decimal (List.length docs)
                                      ++ " documents into species_observations...");
                        InsertMany docs ])%list in
              match insertMany w docs with
              | Threw e => (Threw e, t)
              | Returned insertedCount =>
                  (Returned tt,
                   (t ++ [ ConsoleLog ("[seed] Inserted " ++ show_count w insertedCount
                                         ++ " documents.");
                           ConsoleLog "[seed] Done. You can now refresh the dashboard." ])%list)
              end
          end
      end
  end.

Definition main (w : world) : run :=
  match getEnv (env w) "MONGODB_URI" None with
  | None =>
      {| ended := Exited 1; exitCode := None;
         events := [ConsoleError "MONGODB_URI is required" None] |}
  | Some uri =>
      let dbName :=
        match getDbNameFromUri uri with
        | Some db => Some db
        | None => getEnv (env w) "MONGODB_DB" None
        end in
      match dbName with
      | None =>
          {| ended := Exited 1; exitCode := None;
             events := [ConsoleError "No database name found. Add the DB name in MONGODB_URI (recommended) or set MONGODB_DB." None] |}
      | Some dbName =>
          let t := [NewMongoClient uri] in
          match newMongoClient w with
          | Threw e => {| ended := Rejected e; exitCode := None; events := t |}
          | Returned _ =>
              let '(code, t) :=
                match attempt w dbName t with
                | (Returned _, t) => (None, t)
                | (Threw err, t) =>
                    (Some 1%Z, (t ++ [ConsoleError "[seed] Failed:" (Some err)])%list)
                end in
              let t := (t ++ [Close])%list in
              match close w with
              | Threw e => {| ended := Rejected e; exitCode := code; events := t |}
              | Returned _ => {| ended := Completed; exitCode := code; events := t |}
              end
          end
      end
  end.

End Seed.

(** ** Notions for the analysis of binary64 rounding

    The value of a finite number is [m * 2^e]; values are compared as
    rationals [a / b * 2^e] over the integers.  [rounds] and [srounds]
    relate a rational to the number that rounding to nearest, ties to
    even, gives it; [is_int] and [within] say that a number is an integer
    and that it lies between two others. *)
Module Rounding.
Import Num.
Local Open Scope Z_scope.

(** Where the rational [a / b] lies in [[q, q + 1)]. *)
Definition loc_of (a b q : Z) : location :=
  if a =? q * b then loc_Exact else loc_Inexact (2 * a ?= (2 * q + 1) * b).

(** The record [mrs] locates the rational [a / b]: its integer part is
    [shr_m mrs] and its round and sticky bits say where the rest lies. *)
Record inb (a b : Z) (mrs : shr_record) : Prop := {
  inb_den : 0 < b;
  inb_nonneg : 0 <= shr_m mrs;
  inb_lo : shr_m mrs * b <= a;
  inb_hi : a < (shr_m mrs + 1) * b;
  inb_loc : loc_of_shr_record mrs = loc_of a b (shr_m mrs) }.

(** [n] is an integer nearest to [a / b], even when there are two. *)
Record nearest (a b n : Z) : Prop := {
  near_lo : (2 * n - 1) * b <= 2 * a;
  near_hi : 2 * a <= (2 * n + 1) * b;
  near_tie : 2 * a = (2 * n - 1) * b \/ 2 * a = (2 * n + 1) * b -> Z.even n = true }.

(** The second half of [binary_round_aux]: the float of [n * 2^g]. *)
Definition pack (s : bool) (n g : Z) : num :=
  let '(mrs, e) := shr_fexp prec emax n g loc_Exact in
  match shr_m mrs with
  | Z0 => S754_zero s
  | Zpos m => if e <=? emax - prec then S754_finite s m e else S754_infinity s
  | Zneg _ => S754_nan
  end.

(** What is known of the integer [n] that [a / B] was rounded to on the
    grid [2^g]: it is nearest-even, and either the grid is the lowest one
    and [a / B < 1], or [a / B] has [w <= 53] digits and the grid is the one
    of that width. *)
Record rsum (a B n g : Z) : Prop := {
  rs_num : 0 <= a;
  rs_den : 0 < B;
  rs_near : nearest a B n;
  rs_shape :
    (g = -1074 /\ a < B)
    \/ exists w, 1 <= w <= 53 /\ fexp prec emax (w + g) = g
                 /\ 2 ^ (w - 1) * B <= a < 2 ^ w * B }.

(** [a1 / B1 * 2^g1 <= a2 / B2 * 2^g2], for positive denominators. *)
Definition vle (a1 B1 g1 a2 B2 g2 : Z) : Prop :=
  a1 * B2 * 2 ^ (g1 - Z.min g1 g2) <= a2 * B1 * 2 ^ (g2 - Z.min g1 g2).

(** A positive mantissa and an exponent in canonical form. *)
Definition canonical (N E : Z) : Prop :=
  0 < N /\ fexp prec emax (Zdigits2 N + E) = E.

(** The float [y] is the canonical form of [n * 2^g], with sign [s]. *)
Inductive packed (s : bool) (n g : Z) : num -> Prop :=
| packed_zero : n = 0 -> packed s n g (S754_zero s)
| packed_finite N E :
    canonical (Zpos N) E -> g <= E -> Zpos N * 2 ^ (E - g) = n ->
    E <= emax - prec -> packed s n g (S754_finite s N E)
| packed_infinity N E :
    canonical (Zpos N) E -> g <= E -> Zpos N * 2 ^ (E - g) = n ->
    emax - prec < E -> packed s n g (S754_infinity s).

(** [y] is the non-negative rational [a / b * 2^e], rounded to nearest
    even, with sign [s]. *)
Definition rounds (s : bool) (a b e : Z) (y : num) : Prop :=
  exists n g, e <= g /\ rsum a (b * 2 ^ (g - e)) n g /\ y = pack s n g.

Definition finite (x : num) : bool :=
  match x with
  | S754_zero _ | S754_finite _ _ _ => true
  | _ => false
  end.

(** The signed mantissa and the exponent of a finite number. *)
Definition mant (x : num) : Z :=
  match x with
  | S754_finite s m _ => cond_Zopp s (Zpos m)
  | _ => 0
  end.

Definition expo (x : num) : Z :=
  match x with
  | S754_finite _ _ e => e
  | _ => 0
  end.

(** The order of the values of two finite numbers. *)
Definition fle (x y : num) : Prop := vle (mant x) 1 (expo x) (mant y) 1 (expo y).

(** Two rationals with the same value. *)
Definition veq (a1 b1 e1 a2 b2 e2 : Z) : Prop :=
  vle a1 b1 e1 a2 b2 e2 /\ vle a2 b2 e2 a1 b1 e1.

(** Zero, a positive finite number or plus infinity. *)
Definition nonneg (y : num) : bool :=
  match y with
  | S754_zero _ | S754_finite false _ _ | S754_infinity false => true
  | _ => false
  end.

(** [y] is the rational [A / b * 2^e] of either sign, rounded. *)
Definition srounds (A b e : Z) (y : num) : Prop :=
  (A = 0 /\ exists s, y = S754_zero s)
  \/ (0 < A /\ rounds false A b e y)
  \/ (A < 0 /\ rounds true (- A) b e y).

(** The value of a finite number in units of [2^b]. *)
Definition sval (x : num) (b : Z) : Z :=
  if mant x =? 0 then 0 else mant x * 2 ^ (expo x - b).

(** [x] is a valid finite number whose value is the integer [n]. *)
Record is_int (x : num) (n : Z) : Prop := {
  int_valid : valid_binary prec emax x = true;
  int_finite : finite x = true;
  int_value : veq (mant x) 1 (expo x) n 1 0 }.

(** The float of a small integer, written out. *)
Definition int_float (n : Z) : num :=
  match n with
  | Z0 => S754_zero false
  | Zpos p =>
      S754_finite false (Z.to_pos (Zpos p * 2 ^ (53 - Zdigits2 n))) (Zdigits2 n - 53)
  | Zneg p =>
      S754_finite true (Z.to_pos (Zpos p * 2 ^ (53 - Zdigits2 n))) (Zdigits2 n - 53)
  end.

(** The integers [Math.floor] and [Math.round] compute. *)
Definition Zfloor (x : num) : Z :=
  match x with
  | S754_finite s m e =>
      if 0 <=? e then cond_Zopp s (Zpos m) * 2 ^ e
      else Z.shiftr (cond_Zopp s (Zpos m)) (- e)
  | _ => 0
  end.

Definition Zround (x : num) : Z :=
  match x with
  | S754_finite s m e =>
      if 0 <=? e then cond_Zopp s (Zpos m) * 2 ^ e
      else Z.shiftr (cond_Zopp s (Zpos m) + 2 ^ (- e - 1)) (- e)
  | _ => 0
  end.

(** A valid finite number: an end of an interval. *)
Definition good (x : num) : bool := valid_binary prec emax x && finite x.

(** A positive finite number: a factor or a divisor. *)
Definition positive_finite (c : num) : bool :=
  match c with
  | S754_finite false m e => valid_binary prec emax c
  | _ => false
  end.

(** A finite number that is not zero: a summand. *)
Definition finite_nonzero (c : num) : bool :=
  match c with
  | S754_finite _ m e => valid_binary prec emax c
  | _ => false
  end.

(** [x] is a valid number with [lo <= x <= hi]. *)
Record within (lo hi x : num) : Prop := {
  within_valid : valid_binary prec emax x = true;
  within_lo : SFleb lo x = true;
  within_hi : SFleb x hi = true }.

(** The largest number below 1: [1 - 2^-53]. *)
Definition pred_one : num := S754_finite false 9007199254740991 (-53).

(** The number 1. *)
Definition one : num := S754_finite false 4503599627370496 (-52).

(** The ends of [r * (max - min) + min] for [r] in the unit interval. *)
Definition range_lo (min max : num) : num :=
  add (mul (S754_zero false) (sub max min)) min.

Definition range_hi (min max : num) : num :=
  add (mul pred_one (sub max min)) min.

(** The conditions under which the ends of the range bound every draw. *)
Definition range_check (min max : num) : bool :=
  positive_finite (sub max min) && finite_nonzero min
  && good (mul (S754_zero false) (sub max min))
  && good (mul pred_one (sub max min))
  && good (range_lo min max) && good (range_hi min max).

(** The same for [Math.round(x * scale) / scale]. *)
Definition scale_check (lo hi scale : num) : bool :=
  positive_finite scale && good lo && good hi
  && good (mul lo scale) && good (mul hi scale)
  && (- 2 ^ 53 <? Zround (mul lo scale)) && (Zround (mul hi scale) <? 2 ^ 53).

(** The same for [Math.floor(x)]. *)
Definition floor_check (lo hi : num) : bool :=
  (- 2 ^ 53 <? Zfloor lo) && (Zfloor hi <? 2 ^ 53) && good lo && good hi.

(** [list[Math.floor(Math.random() * list.length)]] is an element of a
    list whose length the product cannot reach. *)
Definition choice_check (len : Z) : bool :=
  positive_finite (of_Z len)
  && floor_check (mul (S754_zero false) (of_Z len)) (mul pred_one (of_Z len))
  && (0 <=? Zfloor (mul (S754_zero false) (of_Z len)))
  && (Zfloor (mul pred_one (of_Z len)) <? len).

End Rounding.

(** ** Concrete worlds, used to exercise the handlers *)
Module Examples.
Import JS Eff Http.

Definition alice : Login.user :=
  {| Login._id := lit "64b7f0c2a1";
     Login.email := VStr (lit "alice@example.com");
     Login.password := VStr (lit "hash:secret");
     Login.firstName := VUndefined;
     Login.username := VStr (lit "alice");
     Login.lastName := VUndefined;
     Login.dob := VUndefined;
     Login.avatar := VUndefined |}.

(** An account created through Google Sign-In: no stored password. *)
Definition bob : Login.user :=
  {| Login._id := lit "64b7f0c2a2";
     Login.email := VStr (lit "bob@example.com");
     Login.password := VUndefined;
     Login.firstName := VStr (lit "Bob");
     Login.username := VUndefined;
     Login.lastName := VStr (lit "Builder");
     Login.dob := VUndefined;
     Login.avatar := VUndefined |}.

(** Alice's address as a form may send it: in capitals, after a no-break
    space and a space, before an ideographic space and a byte order mark. *)
Definition padded_email : str :=
  ([0xA0%N] ++ lit " Alice@Example.COM" ++ [0x3000%N; 0xFEFF%N])%list.

Definition no_conversion (v : value) : outcome str :=
  Threw (TypeError "Cannot convert object to primitive value").

(** The lowercase mapping of Unicode on the Basic Latin and Latin-1
    blocks: A-Z and the capitals U+00C0-U+00DE (U+00D7, the multiplication
    sign, apart) move up by [0x20]; no other code unit of these blocks has
    a lowercase form, and the code units beyond them are left as they are. *)
Definition lower_unit (c : code_unit) : code_unit :=
  if ((0x41 <=? c) && (c <=? 0x5A)
      || (0xC0 <=? c) && (c <=? 0xDE) && negb (c =? 0xD7))%N
  then (c + 0x20)%N else c.

Definition latin_lowercase (s : str) : str := map lower_unit s.

(** A store holding [alice] and [bob]; the stored hash of a password [p]
    is ["hash:" ++ p]. *)
Definition login_world (body : outcome value) : Login.world :=
  {| Login.env_JWT_SECRET := None;
     Login.env_NODE_ENV := Some (lit "production");
     Login.toLowerCase := latin_lowercase;
     Login.req_json := body;
     Login.convert := no_conversion;
     Login.getUserCollection := Returned tt;
     Login.findOne := fun e =>
       if str_eqb e (lit "alice@example.com") then Returned (Some alice)
       else if str_eqb e (lit "bob@example.com") then Returned (Some bob)
       else Returned None;
     Login.bcrypt_compare := fun p h =>
       match p, h with
       | VStr a, VStr b => Returned (str_eqb (lit "hash:" ++ a)%list b)
       | _, _ => Threw (Failure "Illegal arguments")
       end;
     Login.jwt_sign := fun payload secret _ =>
       Returned (lit "jwt:" ++ jp_id payload ++ lit ":" ++ secret)%list |}.

(** An address with an ideographic space before the at sign. *)
Definition spaced_email : str :=
  (lit "ada" ++ [0x3000%N] ++ lit "@example.org")%list.

Definition contact_body (institution : value) (email : str) : value :=
  VObj [ (lit "firstName", VStr (lit "Ada")); (lit "lastName", VStr (lit "Lovelace"));
         (lit "email", VStr email); (lit "institution", institution);
         (lit "message", VStr (lit "Hello")) ].

Definition contact_world (body : outcome value) (mail : outcome value)
  : Contact.world :=
  {| Contact.req_json := body;
     Contact.convert := no_conversion;
     Contact.sendContactEmail := fun _ => mail |}.

(** A run of the generator in which [Math.random] always returns 0.5,
    started at a time value of 1.7e12 ms. *)
Definition half : Num.num := Num.dyadic 1 (-1).

Definition sample_docs : list Seed.observation :=
  Eval vm_compute in
    match fst (Seed.generate (fun _ => half) (Num.of_Z 1700000000000)
                 (fun _ => "0.0") 0%nat) with
    | Returned docs => docs
    | Threw _ => []
    end.

(** A run of the script against a local database, started at the same
    time value, in which every collaborator returns. *)
Definition seed_world : Seed.world :=
  {| Seed.env := fun name =>
       if name =? "MONGODB_URI"
       then Some (lit "mongodb://localhost:27017/oceanova")
       else None;
     Seed.random := fun _ => half;
     Seed.now := Num.of_Z 1700000000000;
     Seed.toFixed1 := fun _ => "0.0";
     Seed.show_count := fun _ => "100";
     Seed.newMongoClient := Returned tt;
     Seed.connect := Returned tt;
     Seed.createIndexes := Returned tt;
     Seed.insertMany := fun _ => Returned (Num.of_Z 100);
     Seed.close := Returned tt |}.


End Examples.

(** * Facts about the string builtins *)
Module StringFacts.
Import JS.

Lemma str_eqb_eq (a b : str) : str_eqb a b = true <-> a = b.
Proof.
  revert b. induction a as [|x a IH]; intros [|y b]; simpl;
    try (split; [discriminate|discriminate]); [tauto|].
  rewrite andb_true_iff, N.eqb_eq, IH. split.
  - intros [-> ->]. reflexivity.
  - intros [= -> ->]. tauto.
Qed.

Lemma str_eqb_refl (a : str) : str_eqb a a = true.
Proof. now apply str_eqb_eq. Qed.

(** The blanks, one by one. *)
Lemma white_space_cases (c : code_unit) :
  is_white_space c = true <->
  (9 <= c <= 13 \/ c = 32 \/ c = 160 \/ c = 5760 \/ 8192 <= c <= 8202
   \/ c = 8232 \/ c = 8233 \/ c = 8239 \/ c = 8287 \/ c = 12288 \/ c = 65279)%N.
Proof.
  unfold is_white_space.
  rewrite !orb_true_iff, !andb_true_iff, !N.leb_le, !N.eqb_eq. lia.
Qed.

Lemma not_white_space (c : code_unit) :
  ~ (9 <= c <= 13 \/ c = 32 \/ c = 160 \/ c = 5760 \/ 8192 <= c <= 8202
     \/ c = 8232 \/ c = 8233 \/ c = 8239 \/ c = 8287 \/ c = 12288 \/ c = 65279)%N ->
  is_white_space c = false.
Proof.
  intros H. destruct (is_white_space c) eqn:E; [|reflexivity].
  apply white_space_cases in E. contradiction.
Qed.

Lemma trimStart_idempotent (s : str) : trimStart (trimStart s) = trimStart s.
Proof.
  induction s as [|c s IH]; simpl; [reflexivity|].
  destruct (is_white_space c) eqn:E; [exact IH|]. simpl. now rewrite E.
Qed.

Lemma trimStart_snoc (a : str) (c : code_unit) :
  is_white_space c = false ->
  trimStart (a ++ [c])%list = (trimStart a ++ [c])%list.
Proof.
  intros Hc. induction a as [|d a IH]; simpl.
  - now rewrite Hc.
  - destruct (is_white_space d); [exact IH|reflexivity].
Qed.

Lemma trimStart_shorter (s : str) : (List.length (trimStart s) <= List.length s)%nat.
Proof.
  induction s as [|d s IH]; simpl; [lia|].
  destruct (is_white_space d); simpl; lia.
Qed.

(** A string that starts with a visible character keeps doing so when its
    end is trimmed. *)
Lemma trimStart_trimEnd_fixed (s : str) :
  trimStart s = s -> trimStart (trimEnd s) = trimEnd s.
Proof.
  destruct s as [|c s]; [reflexivity|]. simpl.
  destruct (is_white_space c) eqn:E.
  - intros H. exfalso.
    pose proof (trimStart_shorter s) as L. rewrite H in L. simpl in L. lia.
  - intros _. unfold trimEnd. simpl.
    rewrite (trimStart_snoc _ _ E), rev_app_distr. simpl. now rewrite E.
Qed.

Lemma trimEnd_idempotent (s : str) : trimEnd (trimEnd s) = trimEnd s.
Proof.
  unfold trimEnd. now rewrite rev_involutive, trimStart_idempotent.
Qed.

Lemma trim_idempotent (s : str) : trim (trim s) = trim s.
Proof.
  unfold trim.
  rewrite (trimStart_trimEnd_fixed (trimStart s) (trimStart_idempotent s)).
  apply trimEnd_idempotent.
Qed.

(** The Latin case mapping of the examples has the two properties of
    Unicode's that the login handler relies on. *)
Lemma lower_unit_cases (c : code_unit) :
  (Examples.lower_unit c = c /\ ~ (65 <= c <= 90) /\ ~ (192 <= c <= 222 /\ c <> 215)
   \/ Examples.lower_unit c = c + 32 /\ (65 <= c <= 90 \/ 192 <= c <= 222 /\ c <> 215))%N.
Proof.
  unfold Examples.lower_unit.
  destruct ((65 <=? c) && (c <=? 90)
            || (192 <=? c) && (c <=? 222) && negb (c =? 215))%N eqn:E.
  - right. split; [reflexivity|].
    rewrite !orb_true_iff, !andb_true_iff, negb_true_iff, !N.leb_le, N.eqb_neq in E.
    lia.
  - left. split; [reflexivity|].
    rewrite !orb_false_iff, !andb_false_iff, negb_false_iff, !N.leb_gt, N.eqb_eq in E.
    lia.
Qed.

Lemma white_space_lower_unit (c : code_unit) :
  is_white_space (Examples.lower_unit c) = is_white_space c.
Proof.
  destruct (lower_unit_cases c) as [(-> & _) | (-> & H)]; [reflexivity|].
  rewrite !not_white_space; [reflexivity | lia | lia].
Qed.

Lemma lower_unit_idempotent (c : code_unit) :
  Examples.lower_unit (Examples.lower_unit c) = Examples.lower_unit c.
Proof.
  destruct (lower_unit_cases c) as [(E & _) | (E & H)].
  - now rewrite !E.
  - rewrite E. destruct (lower_unit_cases (c + 32)%N) as [(E' & _) | (_ & H')];
      [exact E' | lia].
Qed.

Lemma trimStart_latin_lowercase (s : str) :
  trimStart (Examples.latin_lowercase s) = Examples.latin_lowercase (trimStart s).
Proof.
  induction s as [|c s IH]; simpl; [reflexivity|].
  rewrite white_space_lower_unit.
  destruct (is_white_space c); [exact IH|reflexivity].
Qed.

Lemma latin_lowercase_laws : Login.case_mapping Examples.latin_lowercase.
Proof.
  split; intros s.
  - unfold Examples.latin_lowercase. rewrite map_map.
    apply map_ext. exact lower_unit_idempotent.
  - unfold trim, trimEnd.
    rewrite trimStart_latin_lowercase.
    unfold Examples.latin_lowercase at 1. rewrite <- map_rev.
    fold (Examples.latin_lowercase (rev (trimStart s))).
    rewrite trimStart_latin_lowercase.
    unfold Examples.latin_lowercase. now rewrite map_rev.
Qed.

End StringFacts.

(** * Properties of the route handlers *)
Module LoginSpec.
Import JS Eff Http Login.

Ltac run :=
  unfold POST, try_catch, attempt, bind, call, lift, ret, console_error; simpl.

(** C1: a request whose email and password are present, whose normalized
    email finds a user with a stored hash, and whose password matches that
    hash, is answered with status 200, the message (lit "Login successful") and
    an HTTP-only cookie [auth_token] holding the token signed with
    [JWT_SECRET] over the user's id and email. *)
Theorem login_success (w : world) (body : value) (s token : str) (u : user)
  (Hreq : req_json w = Returned body)
  (Hemail : truthy (get body (lit "email")) = true)
  (Hpassword : truthy (get body (lit "password")) = true)
  (Hstring : ToString (convert w) (get body (lit "email")) = Returned s)
  (Hcollection : getUserCollection w = Returned tt)
  (Hfound : findOne w (normalize w s) = Returned (Some u))
  (Hstored : truthy (password u) = true)
  (Hmatch : bcrypt_compare w (get body (lit "password")) (password u) = Returned true)
  (Hsign : jwt_sign w {| jp_id := _id u; jp_email := email u |} (JWT_SECRET w) (lit "1h")
           = Returned token) :
  POST w [] =
    (Returned
       {| status := 200;
          body := VObj [ (lit "message", VStr (lit "Login successful"));
                         (lit "user", user_view u) ];
          cookies := [ {| name := lit "auth_token"; cvalue := token;
                          httpOnly := true; secure := is_production w;
                          sameSite := lit "lax"; maxAge := 3600; path := lit "/" |} ] |},
     [ EvReqJson; EvGetUserCollection; EvFindOne (normalize w s);
       EvBcryptCompare (get body (lit "password")) (password u);
       EvJwtSign {| jp_id := _id u; jp_email := email u |} (JWT_SECRET w) (lit "1h") ]).
Proof.
  run. rewrite Hreq.
  assert (Hobj : require_object_coercible body = Returned tt).
  { destruct body; simpl in *; try discriminate; reflexivity. }
  rewrite Hobj, Hemail, Hpassword. simpl.
  rewrite Hstring, Hcollection. simpl. rewrite Hfound, Hstored. simpl.
  rewrite Hmatch. simpl. rewrite Hsign. reflexivity.
Qed.

Lemma login_success_witness :
  fst (POST (Examples.login_world
               (Returned (credentials Examples.padded_email (VStr (lit "secret"))))) [])
  = Returned
      {| status := 200;
         body := VObj [ (lit "message", VStr (lit "Login successful"));
                        (lit "user", user_view Examples.alice) ];
         cookies := [ {| name := lit "auth_token";
                         cvalue := lit "jwt:64b7f0c2a1:supersecret";
                         httpOnly := true; secure := true;
                         sameSite := lit "lax"; maxAge := 3600; path := lit "/" |} ] |}.
Proof.
  rewrite (login_success
             (Examples.login_world
                (Returned (credentials Examples.padded_email (VStr (lit "secret")))))
             (credentials Examples.padded_email (VStr (lit "secret")))
             Examples.padded_email (lit "jwt:64b7f0c2a1:supersecret") Examples.alice);
    reflexivity.
Defined.

Lemma present_is_object (body : value) (k : str) :
  truthy (get body k) = true -> require_object_coercible body = Returned tt.
Proof. destruct body; simpl; intros H; try discriminate; reflexivity. Qed.

(** C2: with both fields present, a request whose normalized email finds
    no user, or finds a user whose stored hash the password fails to match,
    is answered with status 401 and a JSON error body, and no cookie is set. *)
Theorem login_invalid_credentials (w : world) (body : value) (s : str)
  (Hreq : req_json w = Returned body)
  (Hemail : truthy (get body (lit "email")) = true)
  (Hpassword : truthy (get body (lit "password")) = true)
  (Hstring : ToString (convert w) (get body (lit "email")) = Returned s)
  (Hcollection : getUserCollection w = Returned tt)
  (Hbad : findOne w (normalize w s) = Returned None
          \/ exists u, findOne w (normalize w s) = Returned (Some u)
                       /\ truthy (password u) = true
                       /\ bcrypt_compare w (get body (lit "password")) (password u)
                          = Returned false) :
  exists t,
    POST w [] =
      (Returned {| status := 401;
                   body := VObj [(lit "message", VStr (lit "Invalid credentials"))];
                   cookies := [] |}, t)
    /\ forall payload secret expiry, ~ In (EvJwtSign payload secret expiry) t.
Proof.
  run. rewrite Hreq, (present_is_object _ _ Hemail), Hemail, Hpassword. simpl.
  rewrite Hstring, Hcollection. simpl.
  destruct Hbad as [Hnone | (u & Hsome & Hstored & Hfail)].
  - rewrite Hnone. eexists. split; [reflexivity|].
    intros ? ? ? [H|[H|[H|[]]]]; discriminate.
  - rewrite Hsome, Hstored. simpl. rewrite Hfail. simpl.
    eexists. split; [reflexivity|].
    intros ? ? ? [H|[H|[H|[H|[]]]]]; discriminate.
Qed.

Lemma login_invalid_credentials_witness :
  exists t,
    POST (Examples.login_world
            (Returned (credentials (lit "alice@example.com") (VStr (lit "wrong"))))) [] =
      (Returned {| status := 401;
                   body := VObj [(lit "message", VStr (lit "Invalid credentials"))];
                   cookies := [] |}, t)
    /\ forall payload secret expiry, ~ In (EvJwtSign payload secret expiry) t.
Proof.
  apply (login_invalid_credentials
           (Examples.login_world
              (Returned (credentials (lit "alice@example.com") (VStr (lit "wrong")))))
           (credentials (lit "alice@example.com") (VStr (lit "wrong")))
           (lit "alice@example.com"));
    try reflexivity.
  right. exists Examples.alice. repeat split; reflexivity.
Defined.

(** C8: with both fields present, a request whose normalized email finds a
    user without a stored password is answered with status 400 and the
    message pointing to Google Sign-In, and bcrypt is never called. *)
Theorem login_google_account (w : world) (body : value) (s : str) (u : user)
  (Hreq : req_json w = Returned body)
  (Hemail : truthy (get body (lit "email")) = true)
  (Hpassword : truthy (get body (lit "password")) = true)
  (Hstring : ToString (convert w) (get body (lit "email")) = Returned s)
  (Hcollection : getUserCollection w = Returned tt)
  (Hfound : findOne w (normalize w s) = Returned (Some u))
  (Hstored : truthy (password u) = false) :
  exists t,
    POST w [] =
      (Returned {| status := 400;
                   body := VObj [(lit "message", VStr (lit "This account uses Google Sign-In. Please sign in with Google or reset your password."))];
                   cookies := [] |}, t)
    /\ forall p h, ~ In (EvBcryptCompare p h) t.
Proof.
  run. rewrite Hreq, (present_is_object _ _ Hemail), Hemail, Hpassword. simpl.
  rewrite Hstring, Hcollection. simpl. rewrite Hfound, Hstored. simpl.
  eexists. split; [reflexivity|].
  intros ? ? [H|[H|[H|[]]]]; discriminate.
Qed.

Lemma login_google_account_witness :
  exists t,
    POST (Examples.login_world
            (Returned (credentials (lit "Bob@example.com") (VStr (lit "anything"))))) [] =
      (Returned {| status := 400;
                   body := VObj [(lit "message", VStr (lit "This account uses Google Sign-In. Please sign in with Google or reset your password."))];
                   cookies := [] |}, t)
    /\ forall p h, ~ In (EvBcryptCompare p h) t.
Proof.
  apply (login_google_account
           (Examples.login_world
              (Returned (credentials (lit "Bob@example.com") (VStr (lit "anything")))))
           (credentials (lit "Bob@example.com") (VStr (lit "anything")))
           (lit "Bob@example.com") Examples.bob);
    reflexivity.
Defined.

(** Under the two properties of the case mapping, normalizing twice is
    normalizing once. *)
Lemma normalize_idempotent (w : world) (s : str) :
  case_mapping (toLowerCase w) -> normalize w (normalize w s) = normalize w s.
Proof.
  intros [Hidem Htrim]. unfold normalize.
  now rewrite Htrim, StringFacts.trim_idempotent, Hidem.
Qed.

Lemma login_depends_on_normalized (w : world) (e1 e2 : str) (pw : value) :
  e1 <> [] -> e2 <> [] -> normalize w e1 = normalize w e2 ->
  login w e1 pw = login w e2 pw.
Proof.
  intros H1 H2 Hn.
  unfold login, POST, try_catch, attempt, bind, call, lift, ret, console_error.
  cbn [req_json with_body credentials require_object_coercible app].
  change (get (credentials e1 pw) (lit "email")) with (VStr e1).
  change (get (credentials e2 pw) (lit "email")) with (VStr e2).
  change (get (credentials e1 pw) (lit "password")) with pw.
  change (get (credentials e2 pw) (lit "password")) with pw.
  assert (T1 : truthy (VStr e1) = true) by (destruct e1; [contradiction|reflexivity]).
  assert (T2 : truthy (VStr e2) = true) by (destruct e2; [contradiction|reflexivity]).
  rewrite T1, T2.
  destruct (truthy pw); [|reflexivity].
  cbn [negb orb ToString].
  change (normalize (with_body w (credentials e1 pw)) e1) with (normalize w e1).
  change (normalize (with_body w (credentials e2 pw)) e2) with (normalize w e2).
  now rewrite Hn.
Qed.

(** C4, as stated, fails: a blank email and an empty one normalize to the
    same string, yet the first is looked up (401 here) while the second is
    rejected as missing (400). *)
Lemma login_normalization_counterexample :
  ~ (forall (w : world) (pw : value) (e1 e2 : str),
        normalize w e1 = normalize w e2 ->
        fst (login w e1 pw) = fst (login w e2 pw)).
Proof.
  intros H.
  specialize (H (Examples.login_world (Threw (Failure "unused")))
                (VStr (lit "secret")) (lit " ") [] eq_refl).
  vm_compute in H. discriminate H.
Qed.

(** C4, amended: the guard on a missing email reads the email as sent, so
    the property holds for emails that are not empty.  For every password and
    every world, two non-empty email strings with the same normalization
    get the same run (response and calls); in particular, the case mapping
    being idempotent and keeping the blanks at the ends as Unicode's does,
    an email may be replaced by its normalization when neither is empty. *)
Theorem login_normalizes_email (w : world) (pw : value) (e1 e2 : str)
  (Hne1 : e1 <> []) (Hne2 : e2 <> [])
  (Hsame : normalize w e1 = normalize w e2) :
  login w e1 pw = login w e2 pw
  /\ (case_mapping (toLowerCase w) -> normalize w e1 <> [] ->
      login w e1 pw = login w (normalize w e1) pw).
Proof.
  split.
  - now apply login_depends_on_normalized.
  - intros Hlaws Hn. apply login_depends_on_normalized; trivial.
    now rewrite normalize_idempotent.
Qed.

Lemma login_normalizes_email_witness :
  login (Examples.login_world (Threw (Failure "unused")))
        Examples.padded_email (VStr (lit "secret"))
  = login (Examples.login_world (Threw (Failure "unused")))
          (lit "alice@example.com") (VStr (lit "secret"))
  /\ login (Examples.login_world (Threw (Failure "unused")))
           Examples.padded_email (VStr (lit "secret"))
     = login (Examples.login_world (Threw (Failure "unused")))
             (normalize (Examples.login_world (Threw (Failure "unused")))
                        Examples.padded_email)
             (VStr (lit "secret")).
Proof.
  assert (N1 : Examples.padded_email <> []) by discriminate.
  assert (N2 : lit "alice@example.com" <> []) by discriminate.
  destruct (login_normalizes_email
              (Examples.login_world (Threw (Failure "unused")))
              (VStr (lit "secret"))
              Examples.padded_email (lit "alice@example.com") N1 N2 eq_refl)
    as [A B].
  split; [exact A|].
  apply B; [exact StringFacts.latin_lowercase_laws | discriminate].
Defined.

End LoginSpec.

Module ContactSpec.
Import JS Eff Http Contact.

Ltac run :=
  unfold POST, try_catch, attempt, bind, call, lift, ret, console_error; simpl.

Lemma present_fields (body : value) :
  present body = true ->
  require_object_coercible body = Returned tt
  /\ truthy (get body (lit "firstName")) = true /\ truthy (get body (lit "lastName")) = true
  /\ truthy (get body (lit "email")) = true /\ truthy (get body (lit "message")) = true.
Proof.
  unfold present. intros H.
  apply andb_prop in H as [H Hm]. apply andb_prop in H as [H He].
  apply andb_prop in H as [Hf Hl]. repeat split; trivial.
  destruct body; simpl in *; try discriminate; reflexivity.
Qed.

Ltac pass_guard Hp :=
  destruct (present_fields _ Hp) as (-> & -> & -> & -> & ->); simpl.

(** C5: when the four required fields are present and the email passes the
    format check, the mailer is called exactly once, with the fields of the
    body and "Not specified" for a missing institution; the answer is 200
    with [success: true] if the mailer reports success and 500 with an
    error body if it does not. *)
Theorem contact_delegates (w : world) (body result : value) (s : str)
  (Hreq : req_json w = Returned body)
  (Hpresent : present body = true)
  (Hstring : ToString (convert w) (get body (lit "email")) = Returned s)
  (Hformat : test emailRegex s = true)
  (Hmail : sendContactEmail w (fields body) = Returned result) :
  exists r t,
    POST w [] = (Returned r, t)
    /\ filter is_send t = [EvSendContactEmail (fields body)]
    /\ (get body (lit "institution") = VUndefined ->
        cd_institution (fields body) = VStr (lit "Not specified"))
    /\ (truthy (get result (lit "success")) = true ->
        status r = 200%Z /\ get (Http.body r) (lit "success") = VBool true)
    /\ (truthy (get result (lit "success")) = false ->
        status r = 500%Z /\ exists m, Http.body r = error m).
Proof.
  run. rewrite Hreq. pass_guard Hpresent. rewrite Hstring. simpl.
  rewrite Hformat. simpl. fold (fields body). rewrite Hmail.
  assert (Hinst : get body (lit "institution") = VUndefined ->
                  cd_institution (fields body) = VStr (lit "Not specified")).
  { intros E. unfold fields, or_else. simpl. now rewrite E. }
  destruct result; simpl;
    try (do 2 eexists; repeat split; [exact Hinst| discriminate ..]);
    try (do 2 eexists; repeat split;
         [exact Hinst | discriminate | discriminate | eexists; reflexivity]).
  destruct (truthy (assoc (lit "success") props)) eqn:E; simpl;
    do 2 eexists; repeat split; try exact Hinst; try discriminate.
  eexists; reflexivity.
Qed.

Lemma contact_delegates_witness :
  exists r t,
    POST (Examples.contact_world
            (Returned (Examples.contact_body VUndefined (lit "ada@example.org")))
            (Returned (VObj [(lit "success", VBool true)]))) [] = (Returned r, t)
    /\ filter is_send t
       = [EvSendContactEmail
            (fields (Examples.contact_body VUndefined (lit "ada@example.org")))]
    /\ status r = 200%Z.
Proof.
  destruct (contact_delegates
              (Examples.contact_world
                 (Returned (Examples.contact_body VUndefined (lit "ada@example.org")))
                 (Returned (VObj [(lit "success", VBool true)])))
              (Examples.contact_body VUndefined (lit "ada@example.org"))
              (VObj [(lit "success", VBool true)]) (lit "ada@example.org")
              eq_refl eq_refl eq_refl eq_refl eq_refl)
    as (r & t & Hrun & Hsend & _ & Hok & _).
  exists r, t. repeat split; trivial. now apply Hok.
Defined.

(** C9: when the four required fields are present and the email does not
    match the pattern, the answer is 400 with the error (lit "Please enter a
    valid email address") and the mailer is never called. *)
Theorem contact_rejects_bad_email (w : world) (body : value) (s : str)
  (Hreq : req_json w = Returned body)
  (Hpresent : present body = true)
  (Hstring : ToString (convert w) (get body (lit "email")) = Returned s)
  (Hformat : test emailRegex s = false) :
  exists t,
    POST w [] =
      (Returned {| status := 400;
                   body := VObj [(lit "error", VStr (lit "Please enter a valid email address"))];
                   cookies := [] |}, t)
    /\ forall data, ~ In (EvSendContactEmail data) t.
Proof.
  run. rewrite Hreq. pass_guard Hpresent. rewrite Hstring. simpl.
  rewrite Hformat. simpl. eexists. split; [reflexivity|].
  intros ? [H|[]]; discriminate.
Qed.

Lemma contact_rejects_bad_email_witness :
  exists t,
    POST (Examples.contact_world
            (Returned (Examples.contact_body VUndefined Examples.spaced_email))
            (Returned (VObj [(lit "success", VBool true)]))) [] =
      (Returned {| status := 400;
                   body := VObj [(lit "error", VStr (lit "Please enter a valid email address"))];
                   cookies := [] |}, t)
    /\ forall data, ~ In (EvSendContactEmail data) t.
Proof.
  apply (contact_rejects_bad_email
           (Examples.contact_world
              (Returned (Examples.contact_body VUndefined Examples.spaced_email))
              (Returned (VObj [(lit "success", VBool true)])))
           (Examples.contact_body VUndefined Examples.spaced_email)
           Examples.spaced_email);
    reflexivity.
Defined.

End ContactSpec.

Module HandlersSpec.
Import JS Eff Http.

Lemma coercible (body : value) :
  body <> VNull -> body <> VUndefined ->
  require_object_coercible body = Returned tt.
Proof. destruct body; intros; try reflexivity; contradiction. Qed.

(** C3, as stated, fails in both handlers: every field of a [null] body is
    absent, yet destructuring it throws and the request is answered with
    the generic 500, not with 400. *)
Lemma missing_fields_counterexample :
  ~ (forall w body,
        Login.req_json w = Returned body -> Login.present body = false ->
        exists r t, Login.POST w [] = (Returned r, t) /\ status r = 400%Z)
  /\ ~ (forall w body,
          Contact.req_json w = Returned body -> Contact.present body = false ->
          exists r t, Contact.POST w [] = (Returned r, t) /\ status r = 400%Z).
Proof.
  split; intros H.
  - destruct (H (Examples.login_world (Returned VNull)) VNull eq_refl eq_refl)
      as (r & t & Hrun & Hstatus).
    vm_compute in Hrun. injection Hrun as <- _. discriminate Hstatus.
  - destruct (H (Examples.contact_world (Returned VNull) (Threw (Failure "unused")))
                VNull eq_refl eq_refl)
      as (r & t & Hrun & Hstatus).
    vm_compute in Hrun. injection Hrun as <- _. discriminate Hstatus.
Qed.

(** C3, amended: for a parsed body other than [null] (or [undefined], which
    no JSON text denotes), both handlers answer 400 when a required field
    is missing or falsy: the login handler when
    the email or the password is, the contact handler when the first name,
    last name, email or message is.  A 400 of the contact handler always
    comes from one of those four fields or from the format of the email,
    never from the institution. *)
Theorem missing_fields_are_rejected :
  (forall w body,
      Login.req_json w = Returned body ->
      body <> VNull -> body <> VUndefined ->
      Login.present body = false ->
      exists t,
        Login.POST w [] =
          (Returned {| status := 400;
                       body := VObj [(lit "message", VStr (lit "Missing email or password"))];
                       cookies := [] |}, t))
  /\ (forall w body,
        Contact.req_json w = Returned body ->
        body <> VNull -> body <> VUndefined ->
        Contact.present body = false ->
        exists t,
          Contact.POST w [] =
            (Returned {| status := 400;
                         body := VObj [(lit "error", VStr (lit "All fields are required"))];
                         cookies := [] |}, t))
  /\ (forall w body r t,
        Contact.req_json w = Returned body ->
        Contact.POST w [] = (Returned r, t) ->
        status r = 400%Z ->
        Contact.present body = false
        \/ exists s, ToString (Contact.convert w) (get body (lit "email")) = Returned s
                     /\ test Contact.emailRegex s = false).
Proof.
  split; [|split].
  - intros w body Hreq Hnull Hundef Hmissing. LoginSpec.run.
    rewrite Hreq, (coercible body Hnull Hundef).
    unfold Login.present in Hmissing.
    destruct (truthy (get body (lit "email"))), (truthy (get body (lit "password")));
      try discriminate; simpl; eexists; reflexivity.
  - intros w body Hreq Hnull Hundef Hmissing. ContactSpec.run.
    rewrite Hreq, (coercible body Hnull Hundef).
    unfold Contact.present in Hmissing.
    destruct (truthy (get body (lit "firstName"))), (truthy (get body (lit "lastName"))),
      (truthy (get body (lit "email"))), (truthy (get body (lit "message")));
      try discriminate; simpl; eexists; reflexivity.
  - intros w body r t Hreq Hrun Hstatus.
    destruct (Contact.present body) eqn:Hp; [right | now left].
    revert Hrun. ContactSpec.run. rewrite Hreq. ContactSpec.pass_guard Hp.
    destruct (ToString (Contact.convert w) (get body (lit "email"))) as [s|e]; simpl.
    + destruct (test Contact.emailRegex s) eqn:Hf; simpl.
      * fold (Contact.fields body).
        destruct (Contact.sendContactEmail w (Contact.fields body)) as [res|e];
          simpl.
        -- destruct (require_object_coercible res); simpl.
           ++ destruct (truthy (get res (lit "success"))); simpl;
                intros [= <- _]; discriminate.
           ++ intros [= <- _]; discriminate.
        -- intros [= <- _]; discriminate.
      * intros _. now exists s.
    + intros [= <- _]; discriminate.
Qed.

Lemma missing_fields_are_rejected_witness :
  (exists t,
     Login.POST
       (Examples.login_world
          (Returned (VObj [(lit "email", VStr (lit "alice@example.com"))]))) [] =
       (Returned {| status := 400;
                    body := VObj [(lit "message", VStr (lit "Missing email or password"))];
                    cookies := [] |}, t))
  /\ (exists t,
        Contact.POST
          (Examples.contact_world
             (Returned (VObj [(lit "firstName", VStr (lit "Ada")); (lit "email", VStr [])]))
             (Threw (Failure "unused"))) [] =
          (Returned {| status := 400;
                       body := VObj [(lit "error", VStr (lit "All fields are required"))];
                       cookies := [] |}, t)).
Proof.
  split.
  - apply (proj1 missing_fields_are_rejected
             (Examples.login_world
                (Returned (VObj [(lit "email", VStr (lit "alice@example.com"))])))
             (VObj [(lit "email", VStr (lit "alice@example.com"))]));
      [reflexivity | discriminate | discriminate | reflexivity].
  - apply (proj1 (proj2 missing_fields_are_rejected)
             (Examples.contact_world
                (Returned (VObj [(lit "firstName", VStr (lit "Ada")); (lit "email", VStr [])]))
                (Threw (Failure "unused")))
             (VObj [(lit "firstName", VStr (lit "Ada")); (lit "email", VStr [])]));
      [reflexivity | discriminate | discriminate | reflexivity].
Defined.

Lemma caught (A : Type) (m : M A) (handler : exn -> M A) (t : trace) :
  try_catch m handler t =
    match m t with
    | (Returned a, t') => (Returned a, t')
    | (Threw e, t') => handler e t'
    end.
Proof. reflexivity. Qed.

(** C7: neither handler lets an exception escape.  Every run returns a
    response; when the [try] block throws, the error is logged and the
    answer is the generic 500; and the block does throw whenever parsing
    the body or a call made after it (conversion of the email, database
    lookup, bcrypt comparison, token signing, email sending) throws. *)
Theorem handlers_catch_exceptions :
  (forall w, exists r t, Login.POST w [] = (Returned r, t))
  /\ (forall w e t,
        Login.attempt w [] = (Threw e, t) ->
        Login.POST w [] =
          (Returned {| status := 500;
                       body := VObj [(lit "message", VStr (lit "Internal server error"))];
                       cookies := [] |},
           (t ++ [EvConsoleError (lit "Login error:") e])%list))
  /\ (forall w e, Login.throws w e -> exists t, Login.attempt w [] = (Threw e, t))
  /\ (forall w, exists r t, Contact.POST w [] = (Returned r, t))
  /\ (forall w e t,
        Contact.attempt w [] = (Threw e, t) ->
        Contact.POST w [] =
          (Returned {| status := 500;
                       body := VObj [(lit "error", VStr (lit "Internal server error. Please try again later."))];
                       cookies := [] |},
           (t ++ [EvConsoleError (lit "Contact form error:") e])%list))
  /\ (forall w e, Contact.throws w e -> exists t, Contact.attempt w [] = (Threw e, t)).
Proof.
  repeat split.
  - intros w. unfold Login.POST. rewrite caught.
    destruct (Login.attempt w []) as [[r|e] t]; do 2 eexists; reflexivity.
  - intros w e t H. unfold Login.POST. rewrite caught, H. reflexivity.
  - intros w e H. unfold Login.attempt, bind, call, lift, ret.
    destruct H as [H | body Hreq Hp H | body s Hreq Hp Hs H
                   | body s Hreq Hp Hs Hc H | body s u Hreq Hp Hs Hc Hf Hpw H
                   | body s u Hreq Hp Hs Hc Hf Hpw Hm H];
      try (rewrite H; eexists; reflexivity);
      rewrite Hreq; simpl;
      unfold Login.present in Hp; apply andb_prop in Hp as [He Hq];
      rewrite (LoginSpec.present_is_object _ _ He), He, Hq; simpl;
      rewrite ?Hs, ?Hc; simpl; rewrite ?Hf, ?Hpw; simpl;
      rewrite ?Hm; simpl; rewrite H; eexists; reflexivity.
  - intros w. unfold Contact.POST. rewrite caught.
    destruct (Contact.attempt w []) as [[r|e] t]; do 2 eexists; reflexivity.
  - intros w e t H. unfold Contact.POST. rewrite caught, H. reflexivity.
  - intros w e H. unfold Contact.attempt, bind, call, lift, ret.
    destruct H as [H | body Hreq Hp H | body s Hreq Hp Hs Hf H];
      try (rewrite H; eexists; reflexivity);
      rewrite Hreq; simpl; ContactSpec.pass_guard Hp;
      rewrite ?Hs; simpl; rewrite ?Hf; simpl;
      fold (Contact.fields body); rewrite H; eexists; reflexivity.
Qed.

Lemma handlers_catch_exceptions_witness :
  Login.POST (Examples.login_world (Threw (Failure "Unexpected end of JSON input"))) [] =
    (Returned {| status := 500;
                 body := VObj [(lit "message", VStr (lit "Internal server error"))];
                 cookies := [] |},
     [EvReqJson; EvConsoleError (lit "Login error:") (Failure "Unexpected end of JSON input")]).
Proof.
  apply (proj1 (proj2 handlers_catch_exceptions)
           (Examples.login_world (Threw (Failure "Unexpected end of JSON input")))
           (Failure "Unexpected end of JSON input") [EvReqJson]).
  reflexivity.
Defined.

End HandlersSpec.

(** * Facts about binary64 arithmetic *)
Module NumFacts.
Import Num.

(** ** No operation of the script invents a NaN *)

Lemma shr_1_nonneg (mrs : shr_record) :
  (0 <= shr_m mrs)%Z -> (0 <= shr_m (shr_1 mrs))%Z.
Proof.
  destruct mrs as [m r s]. simpl.
  destruct m as [|p|p]; simpl; try lia; destruct p; simpl; lia.
Qed.

Lemma iter_pos_invariant {A} (f : A -> A) (P : A -> Prop) :
  (forall x, P x -> P (f x)) ->
  forall n x, P x -> P (iter_pos f n x).
Proof.
  intros Hf. induction n as [n IH|n IH|]; simpl; intros x Hx; auto.
Qed.

Lemma shr_nonneg (mrs : shr_record) (e n : Z) :
  (0 <= shr_m mrs)%Z -> (0 <= shr_m (fst (shr mrs e n)))%Z.
Proof.
  intros H. unfold shr. destruct n; simpl; trivial.
  now apply (iter_pos_invariant shr_1 (fun r => (0 <= shr_m r)%Z) shr_1_nonneg).
Qed.

Lemma shr_record_of_loc_m (m : Z) (l : location) :
  shr_m (shr_record_of_loc m l) = m.
Proof. destruct l as [|[]]; reflexivity. Qed.

Lemma shr_fexp_nonneg (m e : Z) (l : location) :
  (0 <= m)%Z -> (0 <= shr_m (fst (shr_fexp prec emax m e l)))%Z.
Proof.
  intros H. unfold shr_fexp. apply shr_nonneg.
  now rewrite shr_record_of_loc_m.
Qed.

Lemma round_nearest_even_nonneg (m : Z) (l : location) :
  (0 <= m)%Z -> (0 <= round_nearest_even m l)%Z.
Proof.
  intros H. destruct l as [|[]]; simpl; try lia.
  destruct (Z.even m); lia.
Qed.

Lemma binary_round_aux_not_nan (s : bool) (m e : Z) (l : location) :
  (0 <= m)%Z -> is_nan (binary_round_aux prec emax s m e l) = false.
Proof.
  intros H. unfold binary_round_aux.
  pose proof (shr_fexp_nonneg m e l H) as H1.
  destruct (shr_fexp prec emax m e l) as [mrs' e']. simpl in H1.
  pose proof (shr_fexp_nonneg _ e' loc_Exact
                (round_nearest_even_nonneg _ (loc_of_shr_record mrs') H1)) as H2.
  destruct (shr_fexp prec emax (round_nearest_even _ _) e' loc_Exact)
    as [mrs'' e'']. simpl in H2.
  destruct (shr_m mrs'') as [|p|p]; try reflexivity.
  - destruct (e'' <=? emax - prec)%Z; reflexivity.
  - lia.
Qed.

Lemma binary_round_not_nan (s : bool) (m : positive) (e : Z) :
  is_nan (binary_round prec emax s m e) = false.
Proof.
  unfold binary_round. destruct (shl_align _ _ _) as [mz ez].
  apply binary_round_aux_not_nan. lia.
Qed.

Lemma binary_normalize_not_nan (m e : Z) (s : bool) :
  is_nan (binary_normalize prec emax m e s) = false.
Proof.
  destruct m; simpl; trivial; apply binary_round_not_nan.
Qed.

Lemma of_Z_not_nan (n : Z) : is_nan (of_Z n) = false.
Proof. apply binary_normalize_not_nan. Qed.

(** Multiplying by, adding, or dividing by a finite non-zero constant. *)
Lemma mul_not_nan (x : num) (s : bool) (m : positive) (e : Z) :
  is_nan x = false -> is_nan (mul x (S754_finite s m e)) = false.
Proof.
  destruct x as [sx|sx| |sx mx ex]; simpl; try reflexivity; try discriminate.
  intros _. apply binary_round_aux_not_nan. lia.
Qed.

Lemma add_not_nan (x : num) (s : bool) (m : positive) (e : Z) :
  is_nan x = false -> is_nan (add x (S754_finite s m e)) = false.
Proof.
  destruct x as [sx|sx| |sx mx ex]; simpl; try reflexivity; try discriminate.
  intros _. apply binary_normalize_not_nan.
Qed.

Lemma div_not_nan (x : num) (s : bool) (m : positive) (e : Z) :
  is_nan x = false -> is_nan (div x (S754_finite s m e)) = false.
Proof.
  destruct x as [sx|sx| |sx mx ex]; simpl; try reflexivity; try discriminate.
  intros _. unfold SFdiv_core_binary.
  match goal with |- context [Z.div_eucl ?a ?b] =>
    pose proof (Z.div_eucl_eq a b ltac:(lia)) as Heq;
    pose proof (Z.mod_pos_bound a b ltac:(lia)) as Hmod;
    assert (Ha : (0 <= a)%Z);
    [ | unfold Z.modulo in Hmod; destruct (Z.div_eucl a b) as [q r] ]
  end.
  - destruct (_ - _ - _)%Z; try lia. apply Z.shiftl_nonneg. lia.
  - apply binary_round_aux_not_nan. nia.
Qed.

Lemma round_not_nan (x : num) : is_nan x = false -> is_nan (round x) = false.
Proof.
  destruct x as [sx|sx| |sx mx ex]; simpl; trivial.
  intros _. destruct (0 <=? ex)%Z; trivial.
  destruct (_ =? 0)%Z; trivial. apply of_Z_not_nan.
Qed.

Lemma floor_not_nan (x : num) : is_nan x = false -> is_nan (floor x) = false.
Proof.
  destruct x as [sx|sx| |sx mx ex]; simpl; trivial.
  intros _. destruct (0 <=? ex)%Z; trivial.
  destruct (_ =? 0)%Z; trivial. apply of_Z_not_nan.
Qed.

(** ** Comparisons *)

Lemma SFcompare_antisym (x y : num) :
  SFcompare y x = option_map CompOpp (SFcompare x y).
Proof.
  destruct x as [sx|sx| |sx mx ex], y as [sy|sy| |sy my ey]; simpl;
    try reflexivity;
    try (destruct sx; reflexivity); try (destruct sy; reflexivity);
    try (destruct sx, sy; reflexivity).
  destruct sx, sy; simpl; try reflexivity;
    rewrite (Z.compare_antisym ey ex);
    destruct (ey ?= ex)%Z; simpl; try reflexivity;
    change (Pos.compare_cont Eq my mx) with (my ?= mx)%positive;
    change (Pos.compare_cont Eq mx my) with (mx ?= my)%positive;
    rewrite (Pos.compare_antisym my mx); try reflexivity;
    now rewrite !CompOpp_involutive.
Qed.

(** On numbers that are not NaN, [x < y] is the negation of [x >= y]. *)
Lemma lt_is_not_ge (x y : num) :
  is_nan x = false -> is_nan y = false -> lt x y = negb (ge x y).
Proof.
  intros Hx Hy. unfold lt, ge, SFltb, SFleb. rewrite (SFcompare_antisym x y).
  destruct x as [sx|sx| |sx mx ex], y as [sy|sy| |sy my ey]; try discriminate;
    simpl; try reflexivity;
    try (destruct sx; reflexivity); try (destruct sy; reflexivity);
    try (destruct sx, sy; reflexivity).
  destruct sx, sy; simpl; try reflexivity;
    destruct (ex ?= ey)%Z; simpl; try reflexivity;
    destruct (Pos.compare_cont Eq mx my); reflexivity.
Qed.

(** [x >= c] carries over to a smaller positive constant [c']. *)
Lemma ge_weaken (x : num) (m m' : positive) (e e' : Z) :
  (e' < e \/ (e' = e /\ (m' <= m)%positive))%Z ->
  ge x (S754_finite false m e) = true ->
  ge x (S754_finite false m' e') = true.
Proof.
  intros Hc. unfold ge, SFleb.
  destruct x as [sx|sx| |sx mx ex]; simpl; try (destruct sx); simpl; trivial.
  change (Pos.compare_cont Eq m mx) with (m ?= mx)%positive.
  change (Pos.compare_cont Eq m' mx) with (m' ?= mx)%positive.
  destruct (Z.compare_spec e ex), (Z.compare_spec e' ex); try lia;
    try discriminate; trivial;
    destruct (Pos.compare_spec m mx), (Pos.compare_spec m' mx);
    trivial; try discriminate; lia.
Qed.

Lemma unit_interval_not_nan (r : num) : unit_interval r = true -> is_nan r = false.
Proof. destruct r as [[]|[]| |[]]; simpl; trivial; discriminate. Qed.

End NumFacts.

(** * Binary64 rounding: monotonicity and exactness *)
Module RoundingFacts.
Import Num Rounding.
Local Open Scope Z_scope.

Lemma fexp_eq (d : Z) : fexp prec emax d = Z.max (d - 53) (-1074).
Proof. reflexivity. Qed.

Lemma digits2_pos_bounds (p : positive) :
  2 ^ (Zpos (digits2_pos p) - 1) <= Zpos p < 2 ^ Zpos (digits2_pos p).
Proof.
  induction p as [p IH|p IH|]; simpl digits2_pos.
  - rewrite Pos2Z.inj_succ, Pos2Z.inj_xI.
    replace (Z.succ (Zpos (digits2_pos p)) - 1) with (Z.succ (Zpos (digits2_pos p) - 1)) by lia.
    rewrite !Z.pow_succ_r by lia.
    generalize dependent (2 ^ (Zpos (digits2_pos p) - 1)).
    generalize dependent (2 ^ Zpos (digits2_pos p)). intros; lia.
  - rewrite Pos2Z.inj_succ. change (Zpos p~0) with (2 * Zpos p).
    replace (Z.succ (Zpos (digits2_pos p)) - 1) with (Z.succ (Zpos (digits2_pos p) - 1)) by lia.
    rewrite !Z.pow_succ_r by lia.
    generalize dependent (2 ^ (Zpos (digits2_pos p) - 1)).
    generalize dependent (2 ^ Zpos (digits2_pos p)). intros; lia.
  - simpl. lia.
Qed.

Lemma Zdigits2_bounds (m : Z) :
  0 < m -> 2 ^ (Zdigits2 m - 1) <= m < 2 ^ Zdigits2 m.
Proof. destruct m; try lia. intros _. apply digits2_pos_bounds. Qed.

Lemma Zdigits2_pos (m : Z) : 0 < m -> 0 < Zdigits2 m.
Proof. destruct m; simpl; lia. Qed.

(** [d] is the number of digits of [m] as soon as [m] lies in its binade. *)
Lemma Zdigits2_unique (m d : Z) :
  2 ^ (d - 1) <= m < 2 ^ d -> 0 < d -> Zdigits2 m = d.
Proof.
  intros [Hlo Hhi] Hd.
  assert (Hm : 0 < m) by (pose proof (Z.pow_pos_nonneg 2 (d - 1)); lia).
  pose proof (Zdigits2_bounds m Hm) as [Hlo' Hhi'].
  pose proof (Zdigits2_pos m Hm).
  destruct (Z.lt_trichotomy (Zdigits2 m) d) as [H1|[H1|H1]]; trivial.
  - assert (2 ^ Zdigits2 m <= 2 ^ (d - 1)) by (apply Z.pow_le_mono_r; lia). lia.
  - assert (2 ^ d <= 2 ^ (Zdigits2 m - 1)) by (apply Z.pow_le_mono_r; lia). lia.
Qed.

Lemma Zdigits2_le (m n : Z) : 0 < m -> m <= n -> Zdigits2 m <= Zdigits2 n.
Proof.
  intros Hm Hmn.
  pose proof (Zdigits2_bounds m Hm) as [Hlo _].
  pose proof (Zdigits2_bounds n ltac:(lia)) as [_ Hhi].
  destruct (Z.le_gt_cases (Zdigits2 m) (Zdigits2 n)) as [|H]; trivial.
  assert (2 ^ Zdigits2 n <= 2 ^ (Zdigits2 m - 1)) by (apply Z.pow_le_mono_r; lia).
  lia.
Qed.

Lemma loc_of_shr_record_of_loc (m : Z) (l : location) :
  loc_of_shr_record (shr_record_of_loc m l) = l.
Proof. destruct l as [|[]]; reflexivity. Qed.

Lemma shr_1_Z (m : Z) (r s : bool) :
  0 <= m ->
  shr_1 {| shr_m := m; shr_r := r; shr_s := s |}
  = {| shr_m := Z.div2 m; shr_r := Z.odd m; shr_s := r || s |}.
Proof. destruct m as [|[p|p|]|p]; try reflexivity; lia. Qed.

Lemma shr_1_inb (a b : Z) (mrs : shr_record) :
  inb a b mrs -> inb a (2 * b) (shr_1 mrs).
Proof.
  intros [Hb Hm Hlo Hhi Hloc]. destruct mrs as [m r s].
  cbn [shr_m] in *. rewrite (shr_1_Z m r s Hm).
  pose proof (Z.div2_odd m) as Hdiv.
  assert (Hq : 0 <= Z.div2 m) by (apply Z.div2_nonneg; lia).
  remember (Z.div2 m) as q eqn:Heqq. clear Heqq. unfold loc_of in Hloc.
  constructor; cbn [shr_m loc_of_shr_record]; unfold loc_of;
    destruct (Z.odd m); cbn [Z.b2z] in Hdiv; subst m; try nia;
    destruct (Z.eqb_spec a ((2 * q + 1) * b)) as [Ha|Ha];
    destruct (Z.eqb_spec a ((2 * q + 0) * b)) as [Ha0|Ha0];
    destruct (Z.eqb_spec a (q * (2 * b))) as [Ha'|Ha']; try nia;
    destruct (Z.compare_spec (2 * a) ((2 * q + 1) * (2 * b))); try nia;
    destruct r, s; cbn [loc_of_shr_record orb] in *;
    try discriminate; try reflexivity.
Qed.

Lemma iter_shr_1_inb (p : positive) :
  forall a b mrs, inb a b mrs -> inb a (b * 2 ^ Zpos p) (iter_pos shr_1 p mrs).
Proof.
  induction p as [p IH|p IH|]; intros a b mrs H; cbn [iter_pos].
  - apply shr_1_inb, IH, IH in H.
    replace (b * 2 ^ Zpos p~1) with (2 * b * 2 ^ Zpos p * 2 ^ Zpos p); trivial.
    change (Zpos p~1) with (2 * Zpos p + 1).
    replace (2 * Zpos p + 1) with (Zpos p + Zpos p + 1) by lia.
    rewrite !Z.pow_add_r by lia. rewrite Z.pow_1_r. ring.
  - apply IH, IH in H.
    replace (b * 2 ^ Zpos p~0) with (b * 2 ^ Zpos p * 2 ^ Zpos p); trivial.
    replace (Zpos p~0) with (Zpos p + Zpos p) by lia.
    rewrite Z.pow_add_r by lia. ring.
  - apply shr_1_inb in H. now rewrite Z.mul_comm.
Qed.

Lemma shr_inb (a b : Z) (mrs : shr_record) (e n : Z) :
  inb a b mrs ->
  inb a (b * 2 ^ Z.max n 0) (fst (shr mrs e n))
  /\ snd (shr mrs e n) = e + Z.max n 0.
Proof.
  intros H. destruct n as [|p|p]; cbn [shr fst snd].
  - rewrite Z.max_id. simpl (2 ^ 0). rewrite Z.mul_1_r, Z.add_0_r. now split.
  - rewrite Z.max_l by lia. split; [now apply iter_shr_1_inb|reflexivity].
  - rewrite Z.max_r by lia. simpl (2 ^ 0). rewrite Z.mul_1_r, Z.add_0_r. now split.
Qed.

Lemma round_nearest_even_spec (a b : Z) (mrs : shr_record) :
  inb a b mrs ->
  let n := round_nearest_even (shr_m mrs) (loc_of_shr_record mrs) in
  nearest a b n /\ shr_m mrs <= n <= shr_m mrs + 1
  /\ (a = shr_m mrs * b -> n = shr_m mrs).
Proof.
  intros [Hb Hm Hlo Hhi Hloc]. rewrite Hloc. unfold loc_of.
  set (q := shr_m mrs) in *.
  assert (Heven : Z.even (q + 1) = negb (Z.even q)).
  { rewrite Z.add_1_r. apply Z.even_succ_succ || (rewrite Z.even_succ; symmetry; apply Z.negb_even). }
  destruct (Z.eqb_spec a (q * b)) as [Ha|Ha]; cbn [round_nearest_even].
  - repeat split; try nia; try (intros [H|H]; nia).
  - destruct (Z.compare_spec (2 * a) ((2 * q + 1) * b)) as [H|H|H].
    + destruct (Z.even q) eqn:E.
      * repeat split; try nia; trivial.
      * repeat split; try nia. intros _. exact Heven.
    + repeat split; try nia; try (intros [H'|H']; nia).
    + repeat split; try nia; try (intros [H'|H']; nia).
Qed.

Lemma binary_round_aux_pack (s : bool) (m e : Z) (l : location) :
  binary_round_aux prec emax s m e l =
  pack s (round_nearest_even (shr_m (fst (shr_fexp prec emax m e l)))
            (loc_of_shr_record (fst (shr_fexp prec emax m e l))))
       (snd (shr_fexp prec emax m e l)).
Proof.
  unfold binary_round_aux, pack.
  destruct (shr_fexp prec emax m e l) as [mrs' e']. reflexivity.
Qed.

(** The first half of [binary_round_aux], when the mantissa is not
    shifted left: [e <= fexp (digits m + e)]. *)
Lemma shr_fexp_rsum (a b m e : Z) (l : location) :
  inb a b (shr_record_of_loc m l) ->
  e <= fexp prec emax (Zdigits2 m + e) ->
  let r := shr_fexp prec emax m e l in
  let g := snd r in
  let n := round_nearest_even (shr_m (fst r)) (loc_of_shr_record (fst r)) in
  e <= g /\ rsum a (b * 2 ^ (g - e)) n g.
Proof.
  intros Hin Hpre. unfold shr_fexp.
  rewrite fexp_eq in Hpre. rewrite fexp_eq.
  remember (Z.max (Zdigits2 m + e - 53) (-1074) - e) as k eqn:Hkdef.
  assert (Hk : 0 <= k) by lia.
  destruct (shr_inb a b _ e k Hin) as [Hin' He].
  rewrite Z.max_l in Hin', He by lia.
  cbv zeta. rewrite He. replace (e + k - e) with k by lia.
  split; [lia|].
  destruct (round_nearest_even_spec _ _ _ Hin') as (Hnear & Hn & _).
  pose proof Hin as [Hb Hm Hlo Hhi _].
  rewrite NumFacts.shr_record_of_loc_m in Hm, Hlo, Hhi.
  pose proof Hin' as [HB Hq Hqlo Hqhi _].
  set (q := shr_m (fst (shr (shr_record_of_loc m l) e k))) in *.
  assert (Hp : 0 < 2 ^ k) by (apply Z.pow_pos_nonneg; lia).
  constructor; trivial; try nia.
  destruct (Z.eq_dec m 0) as [->|Hm0].
  - (* nothing above the binary point *)
    left. cbn [Zdigits2] in *. split; [lia|nia].
  - pose proof (Zdigits2_bounds m ltac:(lia)) as [Hdlo Hdhi].
    pose proof (Zdigits2_pos m ltac:(lia)) as Hd.
    remember (Zdigits2 m) as d eqn:Hddef. clear Hddef.
    destruct (Z.le_gt_cases d k) as [Hdk|Hdk].
    + left. split; [lia|].
      assert (2 ^ d <= 2 ^ k) by (apply Z.pow_le_mono_r; lia). nia.
    + right. exists (d - k). split; [lia|]. split.
      { rewrite fexp_eq. lia. }
      assert (E : 2 ^ d = 2 ^ (d - k) * 2 ^ k).
      { rewrite <- Z.pow_add_r by lia. f_equal. lia. }
      assert (E' : 2 ^ (d - 1) = 2 ^ (d - k - 1) * 2 ^ k).
      { rewrite <- Z.pow_add_r by lia. f_equal. lia. }
      assert (0 < 2 ^ (d - k - 1)) by (apply Z.pow_pos_nonneg; lia).
      assert (0 < 2 ^ (d - k)) by (apply Z.pow_pos_nonneg; lia).
      split; nia.
Qed.

Lemma pow2_pos (k : Z) : 0 <= k -> 0 < 2 ^ k.
Proof. intros. apply Z.pow_pos_nonneg; lia. Qed.

Lemma pow2_split (x c d : Z) : d <= c -> c <= x -> 2 ^ (x - d) = 2 ^ (x - c) * 2 ^ (c - d).
Proof. intros. rewrite <- Z.pow_add_r by lia. f_equal. lia. Qed.

Lemma vle_base (c a1 B1 g1 a2 B2 g2 : Z) :
  c <= g1 -> c <= g2 ->
  (vle a1 B1 g1 a2 B2 g2 <-> a1 * B2 * 2 ^ (g1 - c) <= a2 * B1 * 2 ^ (g2 - c)).
Proof.
  intros H1 H2. unfold vle.
  rewrite (pow2_split g1 (Z.min g1 g2) c), (pow2_split g2 (Z.min g1 g2) c) by lia.
  pose proof (pow2_pos (Z.min g1 g2 - c) ltac:(lia)) as Hp.
  rewrite !Z.mul_assoc. split; intros H.
  - apply Z.mul_le_mono_nonneg_r; lia.
  - apply Z.mul_le_mono_pos_r in H; trivial.
Qed.

Lemma rsum_bounds (a B n g : Z) :
  rsum a B n g ->
  0 <= n
  /\ ((g = -1074 /\ n <= 1)
      \/ exists w, 1 <= w <= 53 /\ fexp prec emax (w + g) = g
                   /\ 2 ^ (w - 1) <= n <= 2 ^ w).
Proof.
  intros [Ha HB [Hlo Hhi _] Hshape]. split; [nia|].
  destruct Hshape as [[Hg Hlt]|(w & Hw & Hf & Hwlo & Hwhi)].
  - left. split; [trivial|nia].
  - right. exists w. repeat split; trivial; try lia.
    + pose proof (pow2_pos (w - 1) ltac:(lia)). nia.
    + pose proof (pow2_pos w ltac:(lia)). nia.
Qed.

(** Rounding to a common grid is monotone. *)
Lemma nearest_mono (a1 B1 n1 a2 B2 n2 : Z) :
  0 < B1 -> 0 < B2 ->
  nearest a1 B1 n1 -> nearest a2 B2 n2 ->
  a1 * B2 <= a2 * B1 -> n1 <= n2.
Proof.
  intros HB1 HB2 [Hlo1 Hhi1 Htie1] [Hlo2 Hhi2 Htie2] Hle.
  destruct (Z.le_gt_cases n1 n2) as [|Hgt]; trivial. exfalso.
  assert (H1 : (2 * n1 - 1) * (B1 * B2) <= 2 * (a1 * B2)) by nia.
  assert (H2 : 2 * (a2 * B1) <= (2 * n2 + 1) * (B1 * B2)) by nia.
  assert (HBB : 0 < B1 * B2) by nia.
  assert (Hn : n1 = n2 + 1) by nia.
  assert (E1 : 2 * a1 = (2 * n1 - 1) * B1) by nia.
  assert (E2 : 2 * a2 = (2 * n2 + 1) * B2) by nia.
  specialize (Htie1 (or_introl E1)). specialize (Htie2 (or_intror E2)).
  subst n1. rewrite Z.add_1_r, Z.even_succ, <- Z.negb_even, Htie2 in Htie1.
  discriminate.
Qed.

(** Rounding is monotone across grids as well. *)
Lemma rsum_mono (a1 B1 n1 g1 a2 B2 n2 g2 : Z) :
  rsum a1 B1 n1 g1 -> rsum a2 B2 n2 g2 ->
  vle a1 B1 g1 a2 B2 g2 -> vle n1 1 g1 n2 1 g2.
Proof.
  intros R1 R2 Hle.
  pose proof (rsum_bounds _ _ _ _ R1) as [Hn1 S1].
  pose proof (rsum_bounds _ _ _ _ R2) as [Hn2 S2].
  destruct R1 as [Ha1 HB1 N1 T1], R2 as [Ha2 HB2 N2 T2].
  destruct (Z.lt_trichotomy g1 g2) as [Hg|[Hg|Hg]].
  - (* a coarser grid for the larger number *)
    apply (vle_base g1); try lia. rewrite Z.sub_diag, Z.pow_0_r, !Z.mul_1_r.
    assert (Hw2 : 2 ^ 52 <= n2).
    { destruct S2 as [[Hg2 _]|(w & Hw & Hf & Hlo & _)].
      - destruct S1 as [[Hg1 _]|(w1 & Hw1 & Hf1 & _)]; [lia|].
        rewrite fexp_eq in Hf1. lia.
      - rewrite fexp_eq in Hf.
        assert (w = 53).
        { destruct S1 as [[Hg1 _]|(w1 & Hw1 & Hf1 & _)]; [lia|].
          rewrite fexp_eq in Hf1. lia. }
        subst w. exact Hlo. }
    assert (Hp : 2 <= 2 ^ (g2 - g1)).
    { change 2 with (2 ^ 1) at 1. apply Z.pow_le_mono_r; lia. }
    assert (Hn1' : n1 <= 2 ^ 53).
    { destruct S1 as [[_ H]|(w & Hw & _ & _ & H)]; [lia|].
      assert (2 ^ w <= 2 ^ 53) by (apply Z.pow_le_mono_r; lia). lia. }
    change (2 ^ 53) with (2 * 2 ^ 52) in Hn1'. nia.
  - (* the same grid *)
    subst g2. apply (vle_base g1); try lia.
    apply (vle_base g1) in Hle; try lia.
    rewrite Z.sub_diag, Z.pow_0_r, !Z.mul_1_r in *.
    apply (nearest_mono a1 B1 n1 a2 B2 n2); trivial.
  - (* impossible: the smaller number would have the coarser grid *)
    exfalso. apply (vle_base g2) in Hle; try lia.
    rewrite Z.sub_diag, Z.pow_0_r, !Z.mul_1_r in Hle.
    assert (Hp : 2 <= 2 ^ (g1 - g2)).
    { change 2 with (2 ^ 1) at 1. apply Z.pow_le_mono_r; lia. }
    assert (Hw1 : 2 ^ 52 * B1 <= a1).
    { destruct T1 as [[Hg1 _]|(w & Hw & Hf & Hlo & _)].
      - destruct T2 as [[Hg2 _]|(w2 & Hw2 & Hf2 & _)]; [lia|].
        rewrite fexp_eq in Hf2. lia.
      - rewrite fexp_eq in Hf.
        assert (w = 53).
        { destruct T2 as [[Hg2 _]|(w2 & Hw2 & Hf2 & _)]; [lia|].
          rewrite fexp_eq in Hf2. lia. }
        subst w. exact Hlo. }
    assert (Ha2' : a2 < 2 ^ 53 * B2).
    { destruct T2 as [[_ H]|(w & Hw & _ & _ & H)]; [lia|].
      assert (2 ^ w <= 2 ^ 53) by (apply Z.pow_le_mono_r; lia). nia. }
    change (2 ^ 53) with (2 * 2 ^ 52) in Ha2'.
    assert (HC : 0 < 2 ^ 52) by reflexivity.
    remember (2 ^ 52) as C eqn:HCdef. clear HCdef.
    remember (2 ^ (g1 - g2)) as P eqn:HPdef. clear HPdef.
    assert (X1 : a1 * B2 * 2 <= a1 * B2 * P) by nia.
    assert (X2 : C * B1 * B2 * 2 <= a1 * B2 * 2) by nia.
    assert (X3 : a2 * B1 < 2 * C * B2 * B1) by nia.
    lia.
Qed.

Lemma iter_shr_1_zero (p : positive) :
  shr_m (iter_pos shr_1 p (shr_record_of_loc 0 loc_Exact)) = 0.
Proof.
  assert (H : inb 0 1 (shr_record_of_loc 0 loc_Exact)).
  { constructor; cbn; try lia. reflexivity. }
  apply (iter_shr_1_inb p) in H. destruct H as [Hb Hm Hlo _ _].
  pose proof (pow2_pos (Zpos p) ltac:(lia)). nia.
Qed.

Lemma pack_zero (s : bool) (g : Z) : pack s 0 g = S754_zero s.
Proof.
  unfold pack, shr_fexp, shr.
  destruct (fexp prec emax (Zdigits2 0 + g) - g) as [|p|p]; try reflexivity.
  now rewrite iter_shr_1_zero.
Qed.

Lemma pack_canonical (s : bool) (n g : Z) :
  canonical n g ->
  pack s n g =
    if g <=? emax - prec then S754_finite s (Z.to_pos n) g else S754_infinity s.
Proof.
  intros [Hn Hc]. unfold pack, shr_fexp. rewrite Hc, Z.sub_diag.
  cbn [shr]. destruct n as [|p|p]; try lia. reflexivity.
Qed.

Lemma pack_carry (s : bool) (g : Z) :
  fexp prec emax (53 + g) = g ->
  pack s (2 ^ 53) g =
    if g + 1 <=? emax - prec then S754_finite s (Z.to_pos (2 ^ 52)) (g + 1)
    else S754_infinity s.
Proof.
  intros Hc. unfold pack, shr_fexp.
  change (Zdigits2 (2 ^ 53)) with 54.
  rewrite fexp_eq in *.
  replace (Z.max (54 + g - 53) (-1074) - g) with 1 by lia.
  reflexivity.
Qed.

Lemma rsum_packed (s : bool) (a B n g : Z) :
  rsum a B n g -> packed s n g (pack s n g).
Proof.
  intros R. destruct (rsum_bounds _ _ _ _ R) as [Hn Hshape].
  destruct (Z.eq_dec n 0) as [->|Hn0].
  { rewrite pack_zero. now constructor. }
  assert (Hcan : forall w, 1 <= w <= 53 -> fexp prec emax (w + g) = g ->
                 2 ^ (w - 1) <= n < 2 ^ w -> packed s n g (pack s n g)).
  { intros w Hw Hf Hr.
    assert (C : canonical n g).
    { split; [lia|]. now rewrite (Zdigits2_unique n w Hr ltac:(lia)). }
    rewrite (pack_canonical s n g C).
    destruct n as [|p|p]; try lia. cbn [Z.to_pos].
    destruct (Z.leb_spec g (emax - prec)).
    - apply (packed_finite s _ g p g); trivial; try lia.
      rewrite Z.sub_diag. cbn. lia.
    - apply (packed_infinity s _ g p g); trivial; try lia.
      rewrite Z.sub_diag. cbn. lia. }
  destruct Hshape as [[Hg Hle]|(w & Hw & Hf & Hlo & Hhi)].
  - apply (Hcan 1); try lia; subst g; try reflexivity.
  - destruct (Z.eq_dec n (2 ^ w)) as [->|Hne]; [|apply (Hcan w); trivial; lia].
    destruct (Z.eq_dec w 53) as [->|Hw53].
    + rewrite (pack_carry s g Hf).
      assert (C : canonical (2 ^ 52) (g + 1)).
      { split; [reflexivity|]. change (Zdigits2 (2 ^ 52)) with 53.
        rewrite fexp_eq in *. lia. }
      destruct (Z.leb_spec (g + 1) (emax - prec)).
      * apply (packed_finite s _ g _ (g + 1)); trivial; try lia.
        replace (g + 1 - g) with 1 by lia. reflexivity.
      * apply (packed_infinity s _ g (Z.to_pos (2 ^ 52)) (g + 1)); trivial; try lia.
        replace (g + 1 - g) with 1 by lia. reflexivity.
    + (* below the widest mantissa, a carry stays on the lowest grid *)
      apply (Hcan (w + 1)); try lia.
      * rewrite fexp_eq in *. lia.
      * replace (w + 1 - 1) with w by lia.
        rewrite Z.pow_add_r, Z.pow_1_r by lia.
        pose proof (pow2_pos w ltac:(lia)). lia.
Qed.

Lemma packed_valid (s : bool) (n g : Z) (y : num) :
  packed s n g y -> valid_binary prec emax y = true.
Proof.
  intros [Hn|N E [_ Hc] _ _ HE|N E _ _ _ _]; try reflexivity.
  cbn [valid_binary]. unfold bounded, canonical_mantissa.
  cbn [Zdigits2] in Hc. rewrite Hc, Z.eqb_refl. cbn [andb].
  now apply Z.leb_le.
Qed.

(** Canonical forms are ordered as their values are. *)
Lemma canonical_order (N1 E1 N2 E2 : Z) :
  canonical N1 E1 -> canonical N2 E2 ->
  (vle N1 1 E1 N2 1 E2 <-> E1 < E2 \/ (E1 = E2 /\ N1 <= N2)).
Proof.
  intros [HN1 C1] [HN2 C2].
  pose proof (Zdigits2_bounds N1 HN1) as [L1 U1].
  pose proof (Zdigits2_bounds N2 HN2) as [L2 U2].
  pose proof (Zdigits2_pos N1 HN1) as P1.
  pose proof (Zdigits2_pos N2 HN2) as P2.
  remember (Zdigits2 N1) as d1 eqn:Hd1. clear Hd1.
  remember (Zdigits2 N2) as d2 eqn:Hd2. clear Hd2.
  rewrite fexp_eq in C1, C2.
  destruct (Z.lt_trichotomy E1 E2) as [HE|[HE|HE]].
  - split; [now left|intros _].
    apply (vle_base E1); try lia. rewrite Z.sub_diag, Z.pow_0_r, !Z.mul_1_r.
    assert (H : 2 ^ d1 <= 2 ^ (d2 - 1) * 2 ^ (E2 - E1)).
    { rewrite <- Z.pow_add_r by lia. apply Z.pow_le_mono_r; lia. }
    pose proof (pow2_pos (E2 - E1) ltac:(lia)). nia.
  - subst E2. split.
    + intros H. right. split; trivial.
      apply (vle_base E1) in H; try lia.
      rewrite Z.sub_diag, Z.pow_0_r, !Z.mul_1_r in H. exact H.
    + intros [H|[_ H]]; [lia|].
      apply (vle_base E1); try lia.
      now rewrite Z.sub_diag, Z.pow_0_r, !Z.mul_1_r.
  - split; [|intros [H|[H _]]; lia].
    intros H. exfalso. apply (vle_base E2) in H; try lia.
    rewrite Z.sub_diag, Z.pow_0_r, !Z.mul_1_r in H.
    assert (H' : 2 ^ d2 <= 2 ^ (d1 - 1) * 2 ^ (E1 - E2)).
    { rewrite <- Z.pow_add_r by lia. apply Z.pow_le_mono_r; lia. }
    pose proof (pow2_pos (E1 - E2) ltac:(lia)). nia.
Qed.

Lemma SFleb_positive (N1 N2 : positive) (E1 E2 : Z) :
  SFleb (S754_finite false N1 E1) (S754_finite false N2 E2) = true
  <-> E1 < E2 \/ (E1 = E2 /\ Zpos N1 <= Zpos N2).
Proof.
  unfold SFleb, SFcompare.
  change (Pos.compare_cont Eq N1 N2) with (N1 ?= N2)%positive.
  destruct (Z.compare_spec E1 E2); [|split; [lia|reflexivity] |split; [discriminate|lia]].
  destruct (Pos.compare_spec N1 N2); split; try lia; try reflexivity; try discriminate.
Qed.

Lemma vle_scale (a1 B1 g1 a2 B2 g2 N1 E1 N2 E2 : Z) :
  g1 <= E1 -> g2 <= E2 ->
  N1 * 2 ^ (E1 - g1) = a1 -> N2 * 2 ^ (E2 - g2) = a2 ->
  (vle a1 B1 g1 a2 B2 g2 <-> vle N1 B1 E1 N2 B2 E2).
Proof.
  intros H1 H2 <- <-.
  rewrite (vle_base (Z.min g1 g2) _ _ g1 _ _ g2) by lia.
  rewrite (vle_base (Z.min g1 g2) _ _ E1 _ _ E2) by lia.
  rewrite (pow2_split E1 g1 (Z.min g1 g2)), (pow2_split E2 g2 (Z.min g1 g2)) by lia.
  replace (N1 * 2 ^ (E1 - g1) * B2 * 2 ^ (g1 - Z.min g1 g2))
    with (N1 * B2 * (2 ^ (E1 - g1) * 2 ^ (g1 - Z.min g1 g2))) by ring.
  replace (N2 * 2 ^ (E2 - g2) * B1 * 2 ^ (g2 - Z.min g1 g2))
    with (N2 * B1 * (2 ^ (E2 - g2) * 2 ^ (g2 - Z.min g1 g2))) by ring.
  reflexivity.
Qed.

Lemma packed_le (n1 g1 n2 g2 : Z) (y1 y2 : num) :
  packed false n1 g1 y1 -> packed false n2 g2 y2 ->
  vle n1 1 g1 n2 1 g2 -> SFleb y1 y2 = true.
Proof.
  intros P1 P2 Hle.
  assert (Hpos : forall N E g n, canonical (Zpos N) E -> g <= E ->
                 Zpos N * 2 ^ (E - g) = n -> 0 < n).
  { intros N E g n _ Hg <-. pose proof (pow2_pos (E - g) ltac:(lia)). nia. }
  assert (Hzero : forall n, 0 < n -> vle n 1 g1 0 1 g2 -> False).
  { intros n Hn H. unfold vle in H.
    pose proof (pow2_pos (g1 - Z.min g1 g2) ltac:(lia)). nia. }
  destruct P1 as [->|N1 E1 C1 G1 V1 B1|N1 E1 C1 G1 V1 B1];
    destruct P2 as [->|N2 E2 C2 G2 V2 B2|N2 E2 C2 G2 V2 B2];
    try reflexivity;
    try (exfalso; apply (Hzero n1); [now apply (Hpos N1 E1 g1)|exact Hle]).
  - apply SFleb_positive. apply (canonical_order _ _ _ _ C1 C2).
    now apply (vle_scale n1 1 g1 n2 1 g2 (Zpos N1) E1 (Zpos N2) E2).
  - exfalso.
    apply (vle_scale n1 1 g1 n2 1 g2 (Zpos N1) E1 (Zpos N2) E2) in Hle; trivial.
    apply (canonical_order _ _ _ _ C1 C2) in Hle. lia.
Qed.

(** What [binary_round_aux] returns for a located rational, when the
    mantissa needs no shift to the left. *)
Lemma binary_round_aux_spec (s : bool) (a b m e : Z) (l : location) :
  inb a b (shr_record_of_loc m l) ->
  e <= fexp prec emax (Zdigits2 m + e) ->
  exists n g,
    e <= g /\ rsum a (b * 2 ^ (g - e)) n g
    /\ binary_round_aux prec emax s m e l = pack s n g.
Proof.
  intros Hin Hpre. rewrite binary_round_aux_pack.
  destruct (shr_fexp_rsum a b m e l Hin Hpre) as [Hg R].
  eexists. eexists. split; [exact Hg|]. split; [exact R|reflexivity].
Qed.

Lemma binary_round_aux_valid (s : bool) (a b m e : Z) (l : location) :
  inb a b (shr_record_of_loc m l) ->
  e <= fexp prec emax (Zdigits2 m + e) ->
  valid_binary prec emax (binary_round_aux prec emax s m e l) = true.
Proof.
  intros Hin Hpre.
  destruct (binary_round_aux_spec s a b m e l Hin Hpre) as (n & g & _ & R & ->).
  apply (packed_valid s n g). eapply rsum_packed. exact R.
Qed.

(** Rounding is monotone: of two located non-negative rationals, the
    smaller is rounded to the smaller float. *)
Theorem binary_round_aux_mono (a1 b1 m1 e1 a2 b2 m2 e2 : Z) (l1 l2 : location) :
  inb a1 b1 (shr_record_of_loc m1 l1) ->
  inb a2 b2 (shr_record_of_loc m2 l2) ->
  e1 <= fexp prec emax (Zdigits2 m1 + e1) ->
  e2 <= fexp prec emax (Zdigits2 m2 + e2) ->
  vle a1 b1 e1 a2 b2 e2 ->
  SFleb (binary_round_aux prec emax false m1 e1 l1)
        (binary_round_aux prec emax false m2 e2 l2) = true.
Proof.
  intros I1 I2 P1 P2 Hle.
  destruct (binary_round_aux_spec false a1 b1 m1 e1 l1 I1 P1)
    as (n1 & g1 & G1 & R1 & ->).
  destruct (binary_round_aux_spec false a2 b2 m2 e2 l2 I2 P2)
    as (n2 & g2 & G2 & R2 & ->).
  apply (packed_le n1 g1 n2 g2);
    try (eapply rsum_packed; eassumption).
  apply (rsum_mono _ _ _ _ _ _ _ _ R1 R2).
  apply (vle_base (Z.min e1 e2)); try lia.
  apply (vle_base (Z.min e1 e2)) in Hle; try lia.
  rewrite (pow2_split g1 e1 (Z.min e1 e2)), (pow2_split g2 e2 (Z.min e1 e2)) by lia.
  pose proof (pow2_pos (g1 - e1) ltac:(lia)) as K1.
  pose proof (pow2_pos (g2 - e2) ltac:(lia)) as K2.
  set (k1 := 2 ^ (g1 - e1)) in *. set (k2 := 2 ^ (g2 - e2)) in *.
  set (p1 := 2 ^ (e1 - Z.min e1 e2)) in *. set (p2 := 2 ^ (e2 - Z.min e1 e2)) in *.
  replace (a1 * (b2 * k2) * (k1 * p1)) with (a1 * b2 * p1 * (k1 * k2)) by ring.
  replace (a2 * (b1 * k1) * (k2 * p2)) with (a2 * b1 * p2 * (k1 * k2)) by ring.
  apply Z.mul_le_mono_nonneg_r; [nia|exact Hle].
Qed.

Lemma pack_opp (s : bool) (n g : Z) : pack (negb s) n g = SFopp (pack s n g).
Proof.
  unfold pack. destruct (shr_fexp prec emax n g loc_Exact) as [mrs e].
  destruct (shr_m mrs); try reflexivity.
  destruct (e <=? emax - prec); reflexivity.
Qed.

Lemma binary_round_aux_opp (s : bool) (m e : Z) (l : location) :
  binary_round_aux prec emax (negb s) m e l
  = SFopp (binary_round_aux prec emax s m e l).
Proof. rewrite !binary_round_aux_pack. apply pack_opp. Qed.

Lemma SFleb_opp (x y : num) : SFleb (SFopp x) (SFopp y) = SFleb y x.
Proof.
  unfold SFleb. rewrite (NumFacts.SFcompare_antisym x y).
  destruct x as [sx|sx| |sx mx ex], y as [sy|sy| |sy my ey]; simpl;
    try reflexivity;
    try (destruct sx; reflexivity); try (destruct sy; reflexivity);
    try (destruct sx, sy; reflexivity).
  destruct sx, sy; simpl; try reflexivity;
    destruct (ex ?= ey); simpl; try reflexivity;
    destruct (Pos.compare_cont Eq mx my); reflexivity.
Qed.

Lemma rounds_mono (a1 b1 e1 a2 b2 e2 : Z) (y1 y2 : num) :
  rounds false a1 b1 e1 y1 -> rounds false a2 b2 e2 y2 ->
  vle a1 b1 e1 a2 b2 e2 -> SFleb y1 y2 = true.
Proof.
  intros (n1 & g1 & G1 & R1 & ->) (n2 & g2 & G2 & R2 & ->) Hle.
  apply (packed_le n1 g1 n2 g2);
    try (eapply rsum_packed; eassumption).
  apply (rsum_mono _ _ _ _ _ _ _ _ R1 R2).
  apply (vle_base (Z.min e1 e2)); try lia.
  apply (vle_base (Z.min e1 e2)) in Hle; try lia.
  rewrite (pow2_split g1 e1 (Z.min e1 e2)), (pow2_split g2 e2 (Z.min e1 e2)) by lia.
  pose proof (pow2_pos (g1 - e1) ltac:(lia)) as K1.
  pose proof (pow2_pos (g2 - e2) ltac:(lia)) as K2.
  set (k1 := 2 ^ (g1 - e1)) in *. set (k2 := 2 ^ (g2 - e2)) in *.
  set (p1 := 2 ^ (e1 - Z.min e1 e2)) in *. set (p2 := 2 ^ (e2 - Z.min e1 e2)) in *.
  replace (a1 * (b2 * k2) * (k1 * p1)) with (a1 * b2 * p1 * (k1 * k2)) by ring.
  replace (a2 * (b1 * k1) * (k2 * p2)) with (a2 * b1 * p2 * (k1 * k2)) by ring.
  apply Z.mul_le_mono_nonneg_r; [nia|exact Hle].
Qed.

Lemma rounds_valid (s : bool) (a b e : Z) (y : num) :
  rounds s a b e y -> valid_binary prec emax y = true.
Proof.
  intros (n & g & _ & R & ->). apply (packed_valid s n g).
  eapply rsum_packed. exact R.
Qed.

Lemma rounds_opp (s : bool) (a b e : Z) (y : num) :
  rounds s a b e y -> rounds (negb s) a b e (SFopp y).
Proof.
  intros (n & g & G & R & ->). exists n, g.
  split; [exact G|]. split; [exact R|]. symmetry. apply pack_opp.
Qed.

Lemma binary_round_aux_rounds (s : bool) (a b m e : Z) (l : location) :
  inb a b (shr_record_of_loc m l) ->
  e <= fexp prec emax (Zdigits2 m + e) ->
  rounds s a b e (binary_round_aux prec emax s m e l).
Proof.
  intros Hin Hpre.
  destruct (binary_round_aux_spec s a b m e l Hin Hpre) as (n & g & G & R & E).
  now exists n, g.
Qed.

Lemma inb_exact (m : Z) : 0 <= m -> inb m 1 (shr_record_of_loc m loc_Exact).
Proof.
  intros H. constructor; cbn [shr_record_of_loc shr_m loc_of_shr_record]; try lia.
  unfold loc_of. now rewrite Z.mul_1_r, Z.eqb_refl.
Qed.

Lemma iter_xO (m d : positive) : Zpos (Pos.iter xO m d) = Zpos m * 2 ^ Zpos d.
Proof.
  revert m. induction d as [|d IH] using Pos.peano_ind; intros m.
  - cbn [Pos.iter]. rewrite Z.pow_1_r. lia.
  - rewrite Pos.iter_succ, Pos2Z.inj_succ, Z.pow_succ_r by lia.
    change (Zpos (Pos.iter xO m d)~0) with (2 * Zpos (Pos.iter xO m d)).
    rewrite IH. ring.
Qed.

Lemma Zdigits2_shift (m k : Z) :
  0 < m -> 0 <= k -> Zdigits2 (m * 2 ^ k) = Zdigits2 m + k.
Proof.
  intros Hm Hk. pose proof (Zdigits2_bounds m Hm) as [Hlo Hhi].
  pose proof (Zdigits2_pos m Hm). pose proof (pow2_pos k Hk).
  apply Zdigits2_unique; [|lia].
  replace (Zdigits2 m + k - 1) with (Zdigits2 m - 1 + k) by lia.
  rewrite !Z.pow_add_r by lia. nia.
Qed.

(** [binary_round] first aligns the mantissa, then rounds. *)
Lemma binary_round_rounds (s : bool) (m : positive) (e : Z) :
  exists M E,
    E <= e /\ M = Zpos m * 2 ^ (e - E)
    /\ rounds s M 1 E (binary_round prec emax s m e).
Proof.
  unfold binary_round, shl_align.
  set (e' := fexp prec emax (Zpos (digits2_pos m) + e)).
  destruct (e' - e) as [|d|d] eqn:Hd.
  - exists (Zpos m), e. rewrite Z.sub_diag, Z.pow_0_r, Z.mul_1_r.
    split; [lia|]. split; [reflexivity|].
    apply binary_round_aux_rounds; [apply inb_exact; lia|].
    cbn [Zdigits2]. fold e'. lia.
  - exists (Zpos m), e. rewrite Z.sub_diag, Z.pow_0_r, Z.mul_1_r.
    split; [lia|]. split; [reflexivity|].
    apply binary_round_aux_rounds; [apply inb_exact; lia|].
    cbn [Zdigits2]. fold e'. lia.
  - exists (Zpos (Pos.iter xO m d)), e'.
    assert (He : e - e' = Zpos d) by lia.
    rewrite iter_xO, He. split; [lia|]. split; [reflexivity|].
    rewrite <- iter_xO.
    apply binary_round_aux_rounds; [apply inb_exact; lia|].
    rewrite iter_xO, Zdigits2_shift by lia.
    cbn [Zdigits2].
    replace (Zpos (digits2_pos m) + Zpos d + e') with (Zpos (digits2_pos m) + e) by lia.
    fold e'. lia.
Qed.

Lemma valid_canonical (s : bool) (m : positive) (e : Z) :
  valid_binary prec emax (S754_finite s m e) = true ->
  canonical (Zpos m) e /\ e <= emax - prec.
Proof.
  cbn [valid_binary]. unfold bounded, canonical_mantissa.
  intros H. apply andb_prop in H as [H1 H2].
  apply Z.eqb_eq in H1. apply Z.leb_le in H2.
  split; [split; [lia|exact H1]|exact H2].
Qed.

Lemma vle_opp (a1 b1 e1 a2 b2 e2 : Z) :
  vle (- a1) b1 e1 (- a2) b2 e2 <-> vle a2 b2 e2 a1 b1 e1.
Proof.
  unfold vle. rewrite (Z.min_comm e2 e1). rewrite !Z.mul_opp_l. lia.
Qed.

Lemma vle_sign (a1 b1 e1 a2 b2 e2 : Z) :
  0 < b1 -> 0 < b2 -> 0 < a1 -> a2 <= 0 -> ~ vle a1 b1 e1 a2 b2 e2.
Proof.
  intros B1 B2 A1 A2 H. unfold vle in H.
  pose proof (pow2_pos (e1 - Z.min e1 e2) ltac:(lia)).
  pose proof (pow2_pos (e2 - Z.min e1 e2) ltac:(lia)).
  assert (0 < a1 * b2 * 2 ^ (e1 - Z.min e1 e2)) by nia.
  assert (a2 * b1 * 2 ^ (e2 - Z.min e1 e2) <= 0) by nia.
  lia.
Qed.

Lemma vle_sign' (a1 b1 e1 a2 b2 e2 : Z) :
  0 < b1 -> 0 < b2 -> 0 <= a1 -> a2 < 0 -> ~ vle a1 b1 e1 a2 b2 e2.
Proof.
  intros B1 B2 A1 A2 H. unfold vle in H.
  pose proof (pow2_pos (e1 - Z.min e1 e2) ltac:(lia)).
  pose proof (pow2_pos (e2 - Z.min e1 e2) ltac:(lia)).
  assert (0 <= a1 * b2 * 2 ^ (e1 - Z.min e1 e2)) by nia.
  assert (a2 * b1 * 2 ^ (e2 - Z.min e1 e2) < 0) by nia.
  lia.
Qed.

Lemma vle_nonpos_nonneg (a1 b1 e1 a2 b2 e2 : Z) :
  0 < b1 -> 0 < b2 -> a1 <= 0 -> 0 <= a2 -> vle a1 b1 e1 a2 b2 e2.
Proof.
  intros B1 B2 A1 A2. unfold vle.
  pose proof (pow2_pos (e1 - Z.min e1 e2) ltac:(lia)).
  pose proof (pow2_pos (e2 - Z.min e1 e2) ltac:(lia)).
  assert (a1 * b2 * 2 ^ (e1 - Z.min e1 e2) <= 0) by nia.
  assert (0 <= a2 * b1 * 2 ^ (e2 - Z.min e1 e2)) by nia.
  lia.
Qed.

(** On valid finite numbers, [SFleb] is the order of the values. *)
Theorem SFleb_fle (x y : num) :
  valid_binary prec emax x = true -> valid_binary prec emax y = true ->
  finite x = true -> finite y = true ->
  (SFleb x y = true <-> fle x y).
Proof.
  intros Vx Vy Fx Fy. unfold fle.
  destruct x as [sx|sx| |sx mx ex], y as [sy|sy| |sy my ey]; try discriminate;
    cbn [mant expo].
  - split; [intros _; apply vle_nonpos_nonneg; lia|reflexivity].
  - destruct sy; cbn [cond_Zopp].
    + split; [discriminate|]. intros H. exfalso.
      revert H. apply vle_sign'; lia.
    + split; [intros _; apply vle_nonpos_nonneg; lia|reflexivity].
  - destruct sx; cbn [cond_Zopp].
    + split; [intros _; apply vle_nonpos_nonneg; lia|reflexivity].
    + split; [discriminate|]. intros H. exfalso.
      revert H. apply vle_sign; lia.
  - apply valid_canonical in Vx as [Cx _], Vy as [Cy _].
    destruct sx, sy; cbn [cond_Zopp].
    + change (Z.neg mx) with (- Zpos mx). change (Z.neg my) with (- Zpos my).
      change (S754_finite true mx ex) with (SFopp (S754_finite false mx ex)).
      change (S754_finite true my ey) with (SFopp (S754_finite false my ey)).
      rewrite SFleb_opp, SFleb_positive, vle_opp.
      symmetry. apply canonical_order; trivial.
    + split; [intros _; apply vle_nonpos_nonneg; lia|reflexivity].
    + split; [discriminate|]. intros H. exfalso.
      revert H. apply vle_sign; lia.
    + rewrite SFleb_positive. symmetry. apply canonical_order; trivial.
Qed.

Lemma vle_refl (a b e : Z) : vle a b e a b e.
Proof. unfold vle. lia. Qed.

Lemma vle_trans (a1 b1 e1 a2 b2 e2 a3 b3 e3 : Z) :
  0 < b1 -> 0 < b2 -> 0 < b3 ->
  vle a1 b1 e1 a2 b2 e2 -> vle a2 b2 e2 a3 b3 e3 -> vle a1 b1 e1 a3 b3 e3.
Proof.
  intros B1 B2 B3 H12 H23.
  set (c := Z.min e1 (Z.min e2 e3)).
  apply (vle_base c) in H12; try lia. apply (vle_base c) in H23; try lia.
  apply (vle_base c); try lia.
  pose proof (pow2_pos (e1 - c) ltac:(lia)). pose proof (pow2_pos (e2 - c) ltac:(lia)).
  pose proof (pow2_pos (e3 - c) ltac:(lia)).
  set (p1 := 2 ^ (e1 - c)) in *. set (p2 := 2 ^ (e2 - c)) in *.
  set (p3 := 2 ^ (e3 - c)) in *.
  assert (X1 : a1 * b2 * p1 * b3 <= a2 * b1 * p2 * b3) by nia.
  assert (X2 : a2 * b3 * p2 * b1 <= a3 * b2 * p3 * b1) by nia.
  assert (X3 : (a1 * b3 * p1) * b2 <= (a3 * b1 * p3) * b2) by lia.
  apply Z.mul_le_mono_pos_r in X3; trivial.
Qed.

Lemma SFleb_trans (x y z : num) :
  valid_binary prec emax x = true -> valid_binary prec emax y = true ->
  valid_binary prec emax z = true ->
  finite x = true -> finite y = true -> finite z = true ->
  SFleb x y = true -> SFleb y z = true -> SFleb x z = true.
Proof.
  intros Vx Vy Vz Fx Fy Fz Hxy Hyz.
  apply SFleb_fle in Hxy, Hyz; trivial. apply SFleb_fle; trivial.
  unfold fle in *. eapply vle_trans; try eassumption; lia.
Qed.

Lemma packed_nonneg (n g : Z) (y : num) : packed false n g y -> nonneg y = true.
Proof. intros [ | | ]; reflexivity. Qed.

Lemma rounds_nonneg (a b e : Z) (y : num) : rounds false a b e y -> nonneg y = true.
Proof.
  intros (n & g & _ & R & ->). apply (packed_nonneg n g).
  eapply rsum_packed. exact R.
Qed.

Lemma SFleb_zero_nonneg (z : bool) (y : num) :
  nonneg y = true -> SFleb (S754_zero z) y = true.
Proof. destruct y as [s|[]| |[] m e]; try discriminate; reflexivity. Qed.

Lemma SFleb_opp_nonneg (x y : num) :
  nonneg x = true -> nonneg y = true -> SFleb (SFopp x) y = true.
Proof.
  destruct x as [sx|[]| |[] mx ex]; try discriminate;
    destruct y as [sy|[]| |[] my ey]; try discriminate; reflexivity.
Qed.

Lemma rounds_true (a b e : Z) (y : num) :
  rounds true a b e y -> exists y', y = SFopp y' /\ rounds false a b e y'.
Proof.
  intros (n & g & G & R & ->). exists (pack false n g). split.
  - apply (pack_opp false).
  - now exists n, g.
Qed.

Theorem srounds_mono (A1 b1 e1 A2 b2 e2 : Z) (y1 y2 : num) :
  0 < b1 -> 0 < b2 ->
  srounds A1 b1 e1 y1 -> srounds A2 b2 e2 y2 ->
  vle A1 b1 e1 A2 b2 e2 -> SFleb y1 y2 = true.
Proof.
  intros B1 B2 H1 H2 Hle.
  destruct H1 as [[-> [s1 ->]]|[[P1 R1]|[N1 R1]]];
    destruct H2 as [[-> [s2 ->]]|[[P2 R2]|[N2 R2]]].
  - reflexivity.
  - apply SFleb_zero_nonneg. eapply rounds_nonneg. exact R2.
  - exfalso. revert Hle. apply vle_sign'; lia.
  - exfalso. revert Hle. apply vle_sign; lia.
  - eapply rounds_mono; eassumption.
  - exfalso. revert Hle. apply vle_sign; lia.
  - apply rounds_true in R1 as (y1' & -> & R1).
    apply SFleb_opp_nonneg; [eapply rounds_nonneg; exact R1|reflexivity].
  - apply rounds_true in R1 as (y1' & -> & R1).
    apply SFleb_opp_nonneg; eapply rounds_nonneg; eassumption.
  - apply rounds_true in R1 as (y1' & -> & R1).
    apply rounds_true in R2 as (y2' & -> & R2).
    rewrite SFleb_opp. eapply rounds_mono; try eassumption.
    apply vle_opp. exact Hle.
Qed.

Lemma SFopp_valid (y : num) :
  valid_binary prec emax (SFopp y) = valid_binary prec emax y.
Proof. destruct y; reflexivity. Qed.

Lemma srounds_valid (A b e : Z) (y : num) :
  srounds A b e y -> valid_binary prec emax y = true.
Proof.
  intros [[_ [s ->]]|[[_ R]|[_ R]]]; try reflexivity;
    eapply rounds_valid; exact R.
Qed.

(** A valid finite number is the rounding of its own value. *)
Lemma self_rounds (s : bool) (m : positive) (e : Z) :
  valid_binary prec emax (S754_finite s m e) = true ->
  rounds s (Zpos m) 1 e (S754_finite s m e).
Proof.
  intros V. apply valid_canonical in V as [[Hm C] HE].
  exists (Zpos m), e. split; [lia|]. split.
  - rewrite Z.sub_diag, Z.pow_0_r, Z.mul_1_r.
    pose proof (Zdigits2_bounds (Zpos m) Hm) as [Hlo Hhi].
    pose proof (Zdigits2_pos (Zpos m) Hm).
    constructor; try lia.
    + constructor; try lia.
    + right. exists (Zdigits2 (Zpos m)). rewrite fexp_eq in C.
      split; [lia|]. split; [rewrite fexp_eq; lia|lia].
  - rewrite pack_canonical by (split; trivial).
    apply Z.leb_le in HE. now rewrite HE.
Qed.

Lemma self_srounds (x : num) :
  valid_binary prec emax x = true -> finite x = true ->
  srounds (mant x) 1 (expo x) x.
Proof.
  intros V F. destruct x as [s|s| |s m e]; try discriminate.
  - left. split; [reflexivity|now exists s].
  - cbn [mant expo]. destruct s; cbn [cond_Zopp].
    + right. right. split; [lia|]. now apply self_rounds.
    + right. left. split; [lia|]. now apply self_rounds.
Qed.

Lemma SFleb_antisym (x y : num) :
  valid_binary prec emax x = true -> valid_binary prec emax y = true ->
  mant x <> 0 ->
  SFleb x y = true -> SFleb y x = true -> x = y.
Proof.
  intros Vx Vy Hx.
  destruct x as [sx|sx| |sx mx ex]; cbn [mant] in Hx; try lia.
  destruct y as [sy|sy| |sy my ey].
  - destruct sx; cbn; discriminate.
  - destruct sx, sy; cbn; discriminate.
  - discriminate.
  - destruct sx, sy; try (cbn; discriminate).
    + change (S754_finite true mx ex) with (SFopp (S754_finite false mx ex)).
      change (S754_finite true my ey) with (SFopp (S754_finite false my ey)).
      rewrite !SFleb_opp, !SFleb_positive. intros H1 H2.
      assert (ex = ey /\ Zpos mx = Zpos my) as [-> E] by lia.
      now injection E as ->.
    + rewrite !SFleb_positive. intros H1 H2.
      assert (ex = ey /\ Zpos mx = Zpos my) as [-> E] by lia.
      now injection E as ->.
Qed.

(** Rounding is exact on representable values: a rational whose value is
    that of a valid finite non-zero number is rounded to that number. *)
Theorem srounds_exact (A b e : Z) (y f : num) :
  0 < b -> srounds A b e y ->
  valid_binary prec emax f = true -> finite f = true -> mant f <> 0 ->
  veq A b e (mant f) 1 (expo f) -> y = f.
Proof.
  intros Hb Hy Vf Ff Hf [H1 H2]. symmetry.
  pose proof (self_srounds f Vf Ff) as Sf.
  apply SFleb_antisym; trivial.
  - eapply srounds_valid; exact Hy.
  - eapply (srounds_mono _ 1 _ A b e); try eassumption; lia.
  - eapply (srounds_mono A b e _ 1 _); try eassumption; lia.
Qed.

Lemma binary_normalize_srounds (M e : Z) (z : bool) :
  exists A E,
    E <= e /\ A = M * 2 ^ (e - E)
    /\ srounds A 1 E (binary_normalize prec emax M e z).
Proof.
  destruct M as [|m|m]; cbn [binary_normalize].
  - exists 0, e. split; [lia|]. split; [reflexivity|].
    left. split; [reflexivity|now exists z].
  - destruct (binary_round_rounds false m e) as (A & E & HE & HA & R).
    exists A, E. split; [trivial|]. split; [trivial|].
    right. left. split; [|trivial].
    pose proof (pow2_pos (e - E) ltac:(lia)). nia.
  - destruct (binary_round_rounds true m e) as (A & E & HE & HA & R).
    exists (- A), E. split; [trivial|]. split.
    + rewrite HA. change (Z.neg m) with (- Zpos m). ring.
    + right. right. rewrite Z.opp_involutive. split; [|trivial].
      pose proof (pow2_pos (e - E) ltac:(lia)). nia.
Qed.

(** ** Multiplication by a positive number *)
Lemma mul_pre (mx mc : positive) (ex ec : Z) :
  canonical (Zpos mx) ex -> canonical (Zpos mc) ec ->
  ex + ec <= fexp prec emax (Zdigits2 (Zpos (mx * mc)) + (ex + ec)).
Proof.
  intros [Hx Cx] [Hc Cc].
  pose proof (Zdigits2_bounds (Zpos mx) Hx) as [Lx Ux].
  pose proof (Zdigits2_bounds (Zpos mc) Hc) as [Lc Uc].
  pose proof (Zdigits2_pos (Zpos mx) Hx) as Px.
  pose proof (Zdigits2_pos (Zpos mc) Hc) as Pc.
  assert (Hp : 0 < Zpos (mx * mc)) by lia.
  pose proof (Zdigits2_bounds _ Hp) as [Lp Up].
  remember (Zdigits2 (Zpos mx)) as dx eqn:E1. clear E1.
  remember (Zdigits2 (Zpos mc)) as dc eqn:E2. clear E2.
  remember (Zdigits2 (Zpos (mx * mc))) as dp eqn:E3. clear E3.
  rewrite Pos2Z.inj_mul in *.
  assert (Hd : dx + dc - 1 <= dp).
  { destruct (Z.le_gt_cases (dx + dc - 1) dp) as [|Hgt]; trivial. exfalso.
    assert (2 ^ dp <= 2 ^ (dx - 1 + (dc - 1))) by (apply Z.pow_le_mono_r; lia).
    rewrite Z.pow_add_r in * by lia.
    pose proof (pow2_pos (dx - 1) ltac:(lia)). pose proof (pow2_pos (dc - 1) ltac:(lia)).
    nia. }
  rewrite fexp_eq in *. lia.
Qed.

Lemma mul_srounds (x : num) (mc : positive) (ec : Z) :
  valid_binary prec emax x = true -> finite x = true ->
  valid_binary prec emax (S754_finite false mc ec) = true ->
  srounds (mant x * Zpos mc) 1 (expo x + ec) (mul x (S754_finite false mc ec)).
Proof.
  intros Vx Fx Vc. destruct x as [sx|sx| |sx mx ex]; try discriminate.
  - left. split; [reflexivity|]. eexists. reflexivity.
  - cbn [mant expo]. unfold mul. cbn [SFmul].
    apply valid_canonical in Vx as [Cx _], Vc as [Cc _].
    pose proof (mul_pre mx mc ex ec Cx Cc) as Hpre.
    pose proof (binary_round_aux_rounds (xorb sx false) _ 1 _ (ex + ec) loc_Exact
                  (inb_exact (Zpos (mx * mc)) ltac:(lia)) Hpre) as R.
    rewrite Pos2Z.inj_mul in R at 1.
    destruct sx; cbn [xorb cond_Zopp] in *.
    + right. right. split; [lia|].
      replace (- (Z.neg mx * Zpos mc)) with (Zpos mx * Zpos mc) by lia. exact R.
    + right. left. split; [lia|exact R].
Qed.

Lemma fle_scale (x1 x2 : num) (k : Z) (j : Z) :
  0 < k -> fle x1 x2 ->
  vle (mant x1 * k) 1 (expo x1 + j) (mant x2 * k) 1 (expo x2 + j).
Proof.
  intros Hk H. unfold fle, vle in *.
  replace (Z.min (expo x1 + j) (expo x2 + j)) with (Z.min (expo x1) (expo x2) + j) by lia.
  replace (expo x1 + j - (Z.min (expo x1) (expo x2) + j))
    with (expo x1 - Z.min (expo x1) (expo x2)) by lia.
  replace (expo x2 + j - (Z.min (expo x1) (expo x2) + j))
    with (expo x2 - Z.min (expo x1) (expo x2)) by lia.
  nia.
Qed.

(** Multiplication by a positive constant is monotone. *)
Theorem mul_mono (x1 x2 : num) (mc : positive) (ec : Z) :
  valid_binary prec emax x1 = true -> finite x1 = true ->
  valid_binary prec emax x2 = true -> finite x2 = true ->
  valid_binary prec emax (S754_finite false mc ec) = true ->
  SFleb x1 x2 = true ->
  SFleb (mul x1 (S754_finite false mc ec)) (mul x2 (S754_finite false mc ec)) = true.
Proof.
  intros V1 F1 V2 F2 Vc H. apply SFleb_fle in H; trivial.
  eapply srounds_mono; try (apply mul_srounds; trivial); try lia.
  apply fle_scale; [lia|exact H].
Qed.

(** ** Addition and subtraction *)
Lemma shl_align_fst (m : positive) (e e' : Z) :
  e' <= e -> Zpos (fst (shl_align m e e')) = Zpos m * 2 ^ (e - e').
Proof.
  intros H. unfold shl_align. destruct (e' - e) as [|d|d] eqn:Hd; cbn [fst].
  - replace (e - e') with 0 by lia. cbn. lia.
  - lia.
  - rewrite iter_xO. f_equal. f_equal. lia.
Qed.

Lemma cond_Zopp_mul (s : bool) (a k : Z) : cond_Zopp s (a * k) = cond_Zopp s a * k.
Proof. destruct s; cbn [cond_Zopp]; ring. Qed.

Lemma valid_expo_min (s : bool) (m : positive) (e : Z) :
  valid_binary prec emax (S754_finite s m e) = true -> -1074 <= e.
Proof.
  intros V. apply valid_canonical in V as [[_ C] _]. rewrite fexp_eq in C. lia.
Qed.

(** The sum of two finite numbers is their exact sum, rounded. *)
Lemma add_finite_srounds (sx sy : bool) (mx my : positive) (ex ey : Z) :
  exists A E,
    E <= ex /\ E <= ey
    /\ A = cond_Zopp sx (Zpos mx) * 2 ^ (ex - E) + cond_Zopp sy (Zpos my) * 2 ^ (ey - E)
    /\ srounds A 1 E (add (S754_finite sx mx ex) (S754_finite sy my ey)).
Proof.
  unfold add. cbn [SFadd].
  set (ez := Z.min ex ey).
  destruct (binary_normalize_srounds
              (cond_Zopp sx (Zpos (fst (shl_align mx ex ez)))
               + cond_Zopp sy (Zpos (fst (shl_align my ey ez)))) ez false)
    as (A & E & HE & HA & R).
  exists A, E. split; [lia|]. split; [lia|]. split; [|exact R].
  rewrite HA, !shl_align_fst, !cond_Zopp_mul by lia.
  rewrite (pow2_split ex ez E), (pow2_split ey ez E) by lia. ring.
Qed.


(** Adding a finite non-zero constant is monotone. *)
Theorem add_mono (x1 x2 : num) (sc : bool) (mc : positive) (ec : Z) :
  valid_binary prec emax x1 = true -> finite x1 = true ->
  valid_binary prec emax x2 = true -> finite x2 = true ->
  valid_binary prec emax (S754_finite sc mc ec) = true ->
  SFleb x1 x2 = true ->
  SFleb (add x1 (S754_finite sc mc ec)) (add x2 (S754_finite sc mc ec)) = true.
Proof.
  intros V1 F1 V2 F2 Vc H. apply SFleb_fle in H; trivial.
  set (c := S754_finite sc mc ec) in *.
  (* each sum is the rounding of [mant x * 2^(expo x) + c], where a zero
     [x] contributes nothing *)
  assert (S : forall x, valid_binary prec emax x = true -> finite x = true ->
            exists A E, E <= ec /\ (mant x = 0 \/ E <= expo x)
              /\ A = mant x * 2 ^ (expo x - E) + mant c * 2 ^ (ec - E)
              /\ srounds A 1 E (add x c)).
  { intros x Vx Fx. destruct x as [sx|sx| |sx mx ex]; try discriminate.
    - exists (mant c), ec. split; [lia|]. split; [now left|]. split.
      + cbn [mant]. rewrite Z.sub_diag, Z.pow_0_r. ring.
      + change (add (S754_zero sx) c) with c. apply (self_srounds c Vc eq_refl).
    - destruct (add_finite_srounds sx sc mx mc ex ec) as (A & E & H1 & H2 & HA & R).
      exists A, E. split; [lia|]. split; [right; exact H1|]. now split. }
  destruct (S x1 V1 F1) as (A1 & E1 & Hc1 & Hx1 & HA1 & R1).
  destruct (S x2 V2 F2) as (A2 & E2 & Hc2 & Hx2 & HA2 & R2).
  eapply srounds_mono; try eassumption; try lia.
  set (b := Z.min E1 E2).
  apply (vle_base b); try lia. rewrite !Z.mul_1_r.
  assert (T : forall x A E, b <= E -> E <= ec -> (mant x = 0 \/ E <= expo x) ->
            A = mant x * 2 ^ (expo x - E) + mant c * 2 ^ (ec - E) ->
            A * 2 ^ (E - b)
            = (if mant x =? 0 then 0 else mant x * 2 ^ (expo x - b))
              + mant c * 2 ^ (ec - b)).
  { intros x A E Hb HE Hx ->. rewrite Z.mul_add_distr_r.
    rewrite <- !Z.mul_assoc, <- (pow2_split ec E b) by lia. f_equal.
    destruct (Z.eqb_spec (mant x) 0) as [->|Hm]; [reflexivity|].
    destruct Hx as [Hx|Hx]; [lia|].
    now rewrite <- (pow2_split (expo x) E b) by lia. }
  rewrite (T x1 A1 E1 ltac:(lia) Hc1 Hx1 HA1), (T x2 A2 E2 ltac:(lia) Hc2 Hx2 HA2).
  apply Z.add_le_mono_r.
  unfold fle in H.
  destruct (Z.eqb_spec (mant x1) 0) as [Z1|Z1], (Z.eqb_spec (mant x2) 0) as [Z2|Z2].
  - lia.
  - destruct (Z.le_gt_cases 0 (mant x2)) as [P|N].
    + pose proof (pow2_pos (expo x2 - b) ltac:(lia)). nia.
    + exfalso. revert H. rewrite Z1. apply vle_sign'; lia.
  - destruct (Z.le_gt_cases (mant x1) 0) as [P|N].
    + pose proof (pow2_pos (expo x1 - b) ltac:(lia)). nia.
    + exfalso. revert H. rewrite Z2. apply vle_sign; lia.
  - apply (vle_base b) in H; [|lia|lia]. rewrite !Z.mul_1_r in H. exact H.
Qed.

Lemma fle_sval (x1 x2 : num) (b : Z) :
  fle x1 x2 ->
  (mant x1 = 0 \/ b <= expo x1) -> (mant x2 = 0 \/ b <= expo x2) ->
  sval x1 b <= sval x2 b.
Proof.
  intros H H1 H2. unfold sval, fle in *.
  destruct (Z.eqb_spec (mant x1) 0) as [Z1|Z1], (Z.eqb_spec (mant x2) 0) as [Z2|Z2].
  - lia.
  - destruct (Z.le_gt_cases 0 (mant x2)) as [P|N].
    + pose proof (pow2_pos (expo x2 - b) ltac:(lia)). nia.
    + exfalso. revert H. rewrite Z1. apply vle_sign'; lia.
  - destruct (Z.le_gt_cases (mant x1) 0) as [P|N].
    + pose proof (pow2_pos (expo x1 - b) ltac:(lia)). nia.
    + exfalso. revert H. rewrite Z2. apply vle_sign; lia.
  - apply (vle_base b) in H; [|lia|lia]. rewrite !Z.mul_1_r in H. exact H.
Qed.

(** ** Division by a positive number *)
Lemma new_location_spec (nb r : Z) :
  0 < nb -> 0 <= r < nb ->
  new_location nb r = if r =? 0 then loc_Exact else loc_Inexact (2 * r ?= nb).
Proof.
  intros Hnb Hr. unfold new_location, new_location_even, new_location_odd.
  destruct (Z.even nb) eqn:E; [reflexivity|].
  destruct (Z.eqb_spec r 0); [reflexivity|]. f_equal.
  assert (Hodd : Z.odd nb = true) by (rewrite <- Z.negb_even, E; reflexivity).
  apply Z.odd_spec in Hodd as [k ->].
  destruct (Z.compare_spec (2 * r + 1) (2 * k + 1)),
    (Z.compare_spec (2 * r) (2 * k + 1)); try reflexivity; lia.
Qed.

Lemma shiftl_match (m s : Z) :
  0 <= s ->
  match s with
  | 0 => m
  | Zpos _ => Z.shiftl m s
  | Zneg _ => 0
  end = m * 2 ^ s.
Proof.
  intros Hs. destruct s as [|p|p]; try lia.
  apply Z.shiftl_mul_pow2. lia.
Qed.

Lemma div_core_spec (mx mc : positive) (ex ec : Z) :
  let '(q, e', l) := SFdiv_core_binary prec emax (Zpos mx) ex (Zpos mc) ec in
  e' <= ex - ec
  /\ inb (Zpos mx * 2 ^ (ex - ec - e')) (Zpos mc) (shr_record_of_loc q l)
  /\ e' <= fexp prec emax (Zdigits2 q + e').
Proof.
  unfold SFdiv_core_binary.
  set (d1 := Zdigits2 (Zpos mx)). set (d2 := Zdigits2 (Zpos mc)).
  set (e' := Z.min (fexp prec emax (d1 + ex - (d2 + ec))) (ex - ec)).
  set (s := ex - ec - e').
  assert (Hs : 0 <= s) by (unfold s, e'; lia).
  set (m' := match s with
             | 0 => Zpos mx
             | Zpos _ => Z.shiftl (Zpos mx) s
             | Zneg _ => 0
             end).
  assert (Hm' : m' = Zpos mx * 2 ^ s) by (apply shiftl_match; exact Hs).
  clearbody m'.
  pose proof (Z.div_eucl_eq m' (Zpos mc) ltac:(lia)) as Heq.
  pose proof (Z.mod_pos_bound m' (Zpos mc) ltac:(lia)) as Hmod.
  unfold Z.modulo in Hmod.
  destruct (Z.div_eucl m' (Zpos mc)) as [q r].
  pose proof (pow2_pos s Hs) as Hp.
  assert (Hq : 0 <= q) by nia.
  split; [unfold e'; lia|]. split.
  - fold s. rewrite <- Hm'.
    constructor; rewrite ?NumFacts.shr_record_of_loc_m; try lia; try nia.
    rewrite loc_of_shr_record_of_loc, new_location_spec by lia.
    unfold loc_of. rewrite Heq.
    destruct (Z.eqb_spec r 0) as [->|Hr].
    + replace (Zpos mc * q + 0 =? q * Zpos mc) with true; [reflexivity|].
      symmetry. apply Z.eqb_eq. ring.
    + replace (Zpos mc * q + r =? q * Zpos mc) with false.
      * f_equal.
        destruct (Z.compare_spec (2 * r) (Zpos mc)),
          (Z.compare_spec (2 * (Zpos mc * q + r)) ((2 * q + 1) * Zpos mc));
          try reflexivity; nia.
      * symmetry. apply Z.eqb_neq. nia.
  - (* enough digits in the quotient *)
    rewrite fexp_eq. destruct (Z.le_gt_cases e' (-1074)) as [|He]; [lia|].
    assert (Hd : 53 <= Zdigits2 q); [|lia].
    pose proof (Zdigits2_bounds (Zpos mx) ltac:(lia)) as [L1 U1].
    pose proof (Zdigits2_bounds (Zpos mc) ltac:(lia)) as [L2 U2].
    pose proof (Zdigits2_pos (Zpos mx) ltac:(lia)) as P1.
    pose proof (Zdigits2_pos (Zpos mc) ltac:(lia)) as P2.
    fold d1 in L1, U1, P1. fold d2 in L2, U2, P2.
    assert (Hs' : 53 + d2 - d1 <= s).
    { unfold s, e' in *. rewrite fexp_eq in *. lia. }
    assert (Hbig : 2 ^ 52 * 2 ^ d2 <= m').
    { rewrite Hm'.
      assert (2 ^ (52 + d2) <= 2 ^ (d1 - 1) * 2 ^ s).
      { rewrite <- Z.pow_add_r by lia. apply Z.pow_le_mono_r; lia. }
      rewrite Z.pow_add_r in * by lia.
      pose proof (pow2_pos (d1 - 1) ltac:(lia)). nia. }
    assert (Hq52 : 2 ^ 52 <= q).
    { destruct (Z.le_gt_cases (2 ^ 52) q) as [|Hlt]; trivial. exfalso.
      assert (q + 1 <= 2 ^ 52) by lia.
      pose proof (pow2_pos d2 ltac:(lia)).
      assert (m' < (q + 1) * Zpos mc) by nia.
      assert ((q + 1) * Zpos mc <= 2 ^ 52 * Zpos mc) by nia.
      assert (2 ^ 52 * Zpos mc < 2 ^ 52 * 2 ^ d2) by nia.
      lia. }
    destruct (Z.le_gt_cases 53 (Zdigits2 q)) as [|Hlt]; trivial. exfalso.
    pose proof (Zdigits2_bounds q ltac:(lia)) as [_ Uq].
    assert (2 ^ Zdigits2 q <= 2 ^ 52) by (apply Z.pow_le_mono_r; lia).
    lia.
Qed.

Lemma div_srounds (x : num) (mc : positive) (ec : Z) :
  finite x = true ->
  exists A E,
    (mant x = 0 \/ E <= expo x - ec)
    /\ A = mant x * 2 ^ (expo x - ec - E)
    /\ srounds A (Zpos mc) E (div x (S754_finite false mc ec)).
Proof.
  intros Fx. destruct x as [sx|sx| |sx mx ex]; try discriminate.
  - exists 0, 0. split; [now left|]. split; [reflexivity|].
    left. split; [reflexivity|]. eexists. reflexivity.
  - cbn [mant expo]. unfold div. cbn [SFdiv].
    pose proof (div_core_spec mx mc ex ec) as H.
    destruct (SFdiv_core_binary prec emax (Zpos mx) ex (Zpos mc) ec) as [[q e'] l].
    destruct H as (He & Hin & Hpre).
    pose proof (binary_round_aux_rounds (xorb sx false) _ _ q e' l Hin Hpre) as R.
    exists (cond_Zopp sx (Zpos mx) * 2 ^ (ex - ec - e')), e'.
    split; [now right|]. split; [reflexivity|].
    pose proof (pow2_pos (ex - ec - e') ltac:(lia)).
    destruct sx; cbn [xorb cond_Zopp] in *.
    + right. right. split; [nia|].
      replace (- (- Zpos mx * 2 ^ (ex - ec - e'))) with (Zpos mx * 2 ^ (ex - ec - e'))
        by ring. exact R.
    + right. left. split; [nia|exact R].
Qed.

(** Division by a positive constant is monotone. *)
Theorem div_mono (x1 x2 : num) (mc : positive) (ec : Z) :
  valid_binary prec emax x1 = true -> finite x1 = true ->
  valid_binary prec emax x2 = true -> finite x2 = true ->
  SFleb x1 x2 = true ->
  SFleb (div x1 (S754_finite false mc ec)) (div x2 (S754_finite false mc ec)) = true.
Proof.
  intros V1 F1 V2 F2 H. apply SFleb_fle in H; trivial.
  destruct (div_srounds x1 mc ec F1) as (A1 & E1 & H1 & HA1 & R1).
  destruct (div_srounds x2 mc ec F2) as (A2 & E2 & H2 & HA2 & R2).
  eapply srounds_mono; try eassumption; try lia.
  set (b := Z.min E1 E2).
  apply (vle_base b); try lia.
  assert (T : forall x A E, b <= E -> (mant x = 0 \/ E <= expo x - ec) ->
            A = mant x * 2 ^ (expo x - ec - E) ->
            A * 2 ^ (E - b) = sval x (b + ec)).
  { intros x A E Hb Hx ->. unfold sval.
    destruct (Z.eqb_spec (mant x) 0) as [->|Hm]; [reflexivity|].
    destruct Hx as [Hx|Hx]; [lia|].
    rewrite <- Z.mul_assoc, <- Z.pow_add_r by lia. do 2 f_equal. lia. }
  replace (A1 * Zpos mc * 2 ^ (E1 - b)) with (A1 * 2 ^ (E1 - b) * Zpos mc) by ring.
  replace (A2 * Zpos mc * 2 ^ (E2 - b)) with (A2 * 2 ^ (E2 - b) * Zpos mc) by ring.
  rewrite (T x1 A1 E1 ltac:(lia) H1 HA1), (T x2 A2 E2 ltac:(lia) H2 HA2).
  apply Z.mul_le_mono_nonneg_r; [lia|].
  apply fle_sval; trivial; lia.
Qed.

Lemma div_valid (x : num) (mc : positive) (ec : Z) :
  finite x = true ->
  valid_binary prec emax (div x (S754_finite false mc ec)) = true.
Proof.
  intros F. destruct (div_srounds x mc ec F) as (A & E & _ & _ & R).
  eapply srounds_valid; exact R.
Qed.

Lemma mul_valid (x : num) (mc : positive) (ec : Z) :
  valid_binary prec emax x = true -> finite x = true ->
  valid_binary prec emax (S754_finite false mc ec) = true ->
  valid_binary prec emax (mul x (S754_finite false mc ec)) = true.
Proof.
  intros V F Vc. eapply srounds_valid. apply mul_srounds; trivial.
Qed.

Lemma add_valid (x : num) (sc : bool) (mc : positive) (ec : Z) :
  valid_binary prec emax x = true -> finite x = true ->
  valid_binary prec emax (S754_finite sc mc ec) = true ->
  valid_binary prec emax (add x (S754_finite sc mc ec)) = true.
Proof.
  intros V F Vc. destruct x as [sx|sx| |sx mx ex]; try discriminate.
  - exact Vc.
  - destruct (add_finite_srounds sx sc mx mc ex ec) as (A & E & _ & _ & _ & R).
    eapply srounds_valid; exact R.
Qed.

Lemma veq_intro (b a1 b1 e1 a2 b2 e2 : Z) :
  b <= e1 -> b <= e2 ->
  a1 * b2 * 2 ^ (e1 - b) = a2 * b1 * 2 ^ (e2 - b) ->
  veq a1 b1 e1 a2 b2 e2.
Proof. intros H1 H2 E. split; apply (vle_base b); lia. Qed.

Lemma veq_elim (b a1 b1 e1 a2 b2 e2 : Z) :
  b <= e1 -> b <= e2 ->
  veq a1 b1 e1 a2 b2 e2 ->
  a1 * b2 * 2 ^ (e1 - b) = a2 * b1 * 2 ^ (e2 - b).
Proof.
  intros H1 H2 [L R].
  apply (vle_base b) in L; try lia. apply (vle_base b) in R; try lia.
Qed.

Lemma veq_sym (a1 b1 e1 a2 b2 e2 : Z) :
  veq a1 b1 e1 a2 b2 e2 -> veq a2 b2 e2 a1 b1 e1.
Proof. intros [L R]. now split. Qed.

Lemma veq_trans (a1 b1 e1 a2 b2 e2 a3 b3 e3 : Z) :
  0 < b1 -> 0 < b2 -> 0 < b3 ->
  veq a1 b1 e1 a2 b2 e2 -> veq a2 b2 e2 a3 b3 e3 -> veq a1 b1 e1 a3 b3 e3.
Proof.
  intros B1 B2 B3 [L1 R1] [L2 R2].
  split; [apply (vle_trans _ _ _ a2 b2 e2)|apply (vle_trans _ _ _ a2 b2 e2)]; trivial.
Qed.

Lemma int_float_is_int (n : Z) : Z.abs n < 2 ^ 53 -> is_int (int_float n) n.
Proof.
  intros Hn. destruct n as [|p|p]; cbn [int_float].
  - constructor; try reflexivity. cbn [mant expo]. apply (veq_intro 0); try lia; reflexivity.
  - pose proof (Zdigits2_bounds (Zpos p) ltac:(lia)) as [L U].
    pose proof (Zdigits2_pos (Zpos p) ltac:(lia)) as P.
    assert (Hd : Zdigits2 (Zpos p) <= 53).
    { destruct (Z.le_gt_cases (Zdigits2 (Zpos p)) 53) as [|Hgt]; trivial. exfalso.
      assert (2 ^ 53 <= 2 ^ (Zdigits2 (Zpos p) - 1)) by (apply Z.pow_le_mono_r; lia).
      lia. }
    set (d := Zdigits2 (Zpos p)) in *.
    assert (Hm : Zpos (Z.to_pos (Zpos p * 2 ^ (53 - d))) = Zpos p * 2 ^ (53 - d)).
    { pose proof (pow2_pos (53 - d) ltac:(lia)). rewrite Z2Pos.id by nia. reflexivity. }
    constructor.
    + cbn [valid_binary]. unfold bounded, canonical_mantissa.
      change (Zpos (digits2_pos (Z.to_pos (Zpos p * 2 ^ (53 - d)))))
        with (Zdigits2 (Zpos (Z.to_pos (Zpos p * 2 ^ (53 - d))))).
      rewrite Hm, Zdigits2_shift by lia. fold d. rewrite fexp_eq.
      apply andb_true_intro. split; [apply Z.eqb_eq|apply Z.leb_le]; unfold emax, prec; lia.
    + reflexivity.
    + cbn [mant expo cond_Zopp]. rewrite Hm. apply (veq_intro (d - 53)); try lia.
      rewrite Z.sub_diag, Z.pow_0_r.
      replace (0 - (d - 53)) with (53 - d) by lia. ring.
  - pose proof (Zdigits2_bounds (Zpos p) ltac:(lia)) as [L U].
    pose proof (Zdigits2_pos (Zpos p) ltac:(lia)) as P.
    change (Zdigits2 (Z.neg p)) with (Zdigits2 (Zpos p)).
    assert (Hd : Zdigits2 (Zpos p) <= 53).
    { destruct (Z.le_gt_cases (Zdigits2 (Zpos p)) 53) as [|Hgt]; trivial. exfalso.
      assert (2 ^ 53 <= 2 ^ (Zdigits2 (Zpos p) - 1)) by (apply Z.pow_le_mono_r; lia).
      lia. }
    set (d := Zdigits2 (Zpos p)) in *.
    assert (Hm : Zpos (Z.to_pos (Zpos p * 2 ^ (53 - d))) = Zpos p * 2 ^ (53 - d)).
    { pose proof (pow2_pos (53 - d) ltac:(lia)). rewrite Z2Pos.id by nia. reflexivity. }
    constructor.
    + cbn [valid_binary]. unfold bounded, canonical_mantissa.
      change (Zpos (digits2_pos (Z.to_pos (Zpos p * 2 ^ (53 - d)))))
        with (Zdigits2 (Zpos (Z.to_pos (Zpos p * 2 ^ (53 - d))))).
      rewrite Hm, Zdigits2_shift by lia. fold d. rewrite fexp_eq.
      apply andb_true_intro. split; [apply Z.eqb_eq|apply Z.leb_le]; unfold emax, prec; lia.
    + reflexivity.
    + cbn [mant expo cond_Zopp]. rewrite Hm. apply (veq_intro (d - 53)); try lia.
      rewrite Z.sub_diag, Z.pow_0_r.
      replace (0 - (d - 53)) with (53 - d) by lia.
      change (Z.neg p) with (- Zpos p). ring.
Qed.

Lemma veq_int_zero (a b e n : Z) :
  0 < b -> veq a b e n 1 0 -> (a = 0 <-> n = 0).
Proof.
  intros Hb E. apply (veq_elim (Z.min e 0)) in E; [|lia|lia].
  pose proof (pow2_pos (e - Z.min e 0) ltac:(lia)).
  pose proof (pow2_pos (0 - Z.min e 0) ltac:(lia)).
  split; intros ->; nia.
Qed.

(** A valid number with a non-zero integer value is the float of that
    integer; with value zero it is a zero. *)
Lemma is_int_unique (x y : num) (n : Z) :
  is_int x n -> is_int y n -> n <> 0 -> x = y.
Proof.
  intros [Vx Fx Ex] [Vy Fy Ey] Hn.
  assert (Hx : mant x <> 0).
  { intros H. apply (veq_int_zero (mant x) 1 (expo x) n) in H; trivial; lia. }
  apply SFleb_antisym; trivial; apply SFleb_fle; trivial; unfold fle.
  - eapply vle_trans; [| | |apply Ex|apply Ey]; lia.
  - eapply vle_trans; [| | |apply Ey|apply Ex]; lia.
Qed.

Lemma is_int_zero (x : num) : is_int x 0 -> exists s, x = S754_zero s.
Proof.
  intros [V F E]. destruct x as [s|s| |s m e]; try discriminate.
  - now exists s.
  - exfalso. cbn [mant expo] in E.
    assert (H : cond_Zopp s (Zpos m) = 0) by (apply (veq_int_zero _ 1 e 0); trivial; lia).
    destruct s; cbn [cond_Zopp] in H; lia.
Qed.

Lemma srounds_is_int (A b e : Z) (y : num) (n : Z) :
  0 < b -> srounds A b e y -> veq A b e n 1 0 -> Z.abs n < 2 ^ 53 ->
  is_int y n.
Proof.
  intros Hb S E Hn. pose proof (int_float_is_int n Hn) as I.
  destruct (Z.eq_dec n 0) as [->|Hn0].
  - assert (A = 0) by (apply (veq_int_zero _ b e 0); trivial).
    subst A. destruct S as [[_ [s ->]]|[[H _]|[H _]]]; try lia.
    constructor; try reflexivity. cbn [mant expo]. apply (veq_intro 0); try lia; reflexivity.
  - destruct I as [V F E']. pose proof E' as E''.
    assert (Hm : mant (int_float n) <> 0).
    { intros H.
      apply (veq_int_zero (mant (int_float n)) 1 (expo (int_float n)) n) in H;
        trivial; lia. }
    rewrite (srounds_exact A b e y (int_float n) Hb S V F Hm).
    + now constructor.
    + eapply veq_trans; [| | |exact E|apply veq_sym; exact E'']; lia.
Qed.

Lemma of_Z_is_int (n : Z) : Z.abs n < 2 ^ 53 -> is_int (of_Z n) n.
Proof.
  intros Hn. unfold of_Z.
  destruct (binary_normalize_srounds n 0 false) as (A & E & HE & HA & R).
  apply (srounds_is_int A 1 E); trivial; try lia.
  apply (veq_intro E); try lia. rewrite HA, Z.sub_diag, Z.pow_0_r. ring.
Qed.

(** Integer-valued numbers are ordered as their integers are. *)
Lemma is_int_le (x y : num) (a b : Z) :
  is_int x a -> is_int y b -> (SFleb x y = true <-> a <= b).
Proof.
  intros [Vx Fx Ex] [Vy Fy Ey]. rewrite SFleb_fle by trivial. unfold fle.
  assert (H : vle a 1 0 b 1 0 <-> a <= b).
  { unfold vle. rewrite Z.min_id, Z.sub_diag, Z.pow_0_r. lia. }
  rewrite <- H. destruct Ex as [Ex1 Ex2], Ey as [Ey1 Ey2]. split; intros L.
  - eapply vle_trans; [| | |exact Ex2|]; try lia.
    eapply vle_trans; [| | |exact L|exact Ey1]; lia.
  - eapply vle_trans; [| | |exact Ex1|]; try lia.
    eapply vle_trans; [| | |exact L|exact Ey2]; lia.
Qed.

Lemma to_Z_is_int (x : num) (n : Z) : is_int x n -> to_Z x = Some n.
Proof.
  intros [V F E]. destruct x as [s|s| |s m e]; try discriminate.
  - cbn [mant expo to_Z] in *. apply (veq_elim 0) in E; try lia.
    rewrite Z.sub_diag, Z.pow_0_r in E. f_equal. lia.
  - cbn [mant expo to_Z] in *. destruct (Z.leb_spec 0 e) as [He|He].
    + apply (veq_elim 0) in E; try lia.
      rewrite Z.sub_diag, Z.pow_0_r, Z.sub_0_r, !Z.mul_1_r in E.
      f_equal. rewrite <- E. destruct s; cbn [cond_Zopp]; ring.
    + apply (veq_elim e) in E; try lia.
      rewrite Z.sub_diag, Z.pow_0_r, !Z.mul_1_r, Z.sub_0_l in E.
      pose proof (pow2_pos (- e) ltac:(lia)) as Hp.
      assert (Hm : Zpos m = Z.abs n * 2 ^ (- e)).
      { destruct s; cbn [cond_Zopp] in E; nia. }
      rewrite Hm, Z.mod_mul, Z.eqb_refl, Z.div_mul by lia.
      f_equal. destruct s; cbn [cond_Zopp] in *; nia.
Qed.

Lemma is_int_self (s : bool) (m : positive) (e : Z) :
  valid_binary prec emax (S754_finite s m e) = true -> 0 <= e ->
  is_int (S754_finite s m e) (cond_Zopp s (Zpos m) * 2 ^ e).
Proof.
  intros V He. constructor; trivial. cbn [mant expo].
  apply (veq_intro 0); try lia. rewrite Z.sub_diag, Z.pow_0_r, Z.sub_0_r. ring.
Qed.

Lemma is_int_zero_intro (s : bool) : is_int (S754_zero s) 0.
Proof. constructor; try reflexivity. apply (veq_intro 0); try lia; reflexivity. Qed.

Lemma floor_is_int (x : num) :
  valid_binary prec emax x = true -> finite x = true ->
  Z.abs (Zfloor x) < 2 ^ 53 -> is_int (floor x) (Zfloor x).
Proof.
  intros V F H. destruct x as [s|s| |s m e]; try discriminate.
  - apply is_int_zero_intro.
  - cbn [floor Zfloor] in *. destruct (Z.leb_spec 0 e) as [He|He].
    + now apply is_int_self.
    + destruct (Z.eqb_spec (Z.shiftr (cond_Zopp s (Zpos m)) (- e)) 0) as [->|Hn].
      * apply is_int_zero_intro.
      * now apply of_Z_is_int.
Qed.

Lemma round_is_int (x : num) :
  valid_binary prec emax x = true -> finite x = true ->
  Z.abs (Zround x) < 2 ^ 53 -> is_int (round x) (Zround x).
Proof.
  intros V F H. destruct x as [s|s| |s m e]; try discriminate.
  - apply is_int_zero_intro.
  - cbn [round Zround] in *. destruct (Z.leb_spec 0 e) as [He|He].
    + now apply is_int_self.
    + destruct (Z.eqb_spec (Z.shiftr (cond_Zopp s (Zpos m) + 2 ^ (- e - 1)) (- e)) 0)
        as [->|Hn].
      * apply is_int_zero_intro.
      * now apply of_Z_is_int.
Qed.

Lemma Zfloor_sval (x : num) (b : Z) :
  b <= 0 -> (mant x = 0 \/ b <= expo x) ->
  Zfloor x = sval x b / 2 ^ (- b).
Proof.
  intros Hb Hx. unfold sval.
  pose proof (pow2_pos (- b) ltac:(lia)) as Hp.
  destruct x as [s|s| |s m e]; cbn [Zfloor mant expo]; try reflexivity.
  assert (Hm : cond_Zopp s (Zpos m) <> 0) by (destruct s; cbn; lia).
  destruct Hx as [Hx|Hx]; [cbn [mant] in Hx; lia|]. cbn [expo] in Hx.
  destruct (Z.eqb_spec (cond_Zopp s (Zpos m)) 0); [lia|].
  destruct (Z.leb_spec 0 e) as [He|He].
  - rewrite (pow2_split e 0 b), Z.sub_0_r, Z.sub_0_l by lia.
    rewrite Z.mul_assoc, Z.div_mul by lia. reflexivity.
  - rewrite Z.shiftr_div_pow2 by lia.
    replace (2 ^ (- b)) with (2 ^ (- e) * 2 ^ (e - b))
      by (rewrite <- Z.pow_add_r by lia; f_equal; lia).
    pose proof (pow2_pos (e - b) ltac:(lia)).
    pose proof (pow2_pos (- e) ltac:(lia)).
    rewrite Z.div_mul_cancel_r by lia. reflexivity.
Qed.

Lemma Zround_sval (x : num) (b : Z) :
  b <= 0 -> (mant x = 0 \/ b <= expo x) ->
  Zround x = (2 * sval x b + 2 ^ (- b)) / (2 * 2 ^ (- b)).
Proof.
  intros Hb Hx. unfold sval.
  pose proof (pow2_pos (- b) ltac:(lia)) as Hp.
  destruct x as [s|s| |s m e]; cbn [Zround mant expo];
    try (cbn [Z.eqb]; rewrite Z.mul_0_r, Z.add_0_l; symmetry; apply Z.div_small; lia).
  assert (Hm : cond_Zopp s (Zpos m) <> 0) by (destruct s; cbn; lia).
  destruct Hx as [Hx|Hx]; [cbn [mant] in Hx; lia|]. cbn [expo] in Hx.
  destruct (Z.eqb_spec (cond_Zopp s (Zpos m)) 0); [lia|].
  set (M := cond_Zopp s (Zpos m)) in *.
  destruct (Z.leb_spec 0 e) as [He|He].
  - rewrite (pow2_split e 0 b), Z.sub_0_r, Z.sub_0_l by lia.
    replace (2 * (M * (2 ^ e * 2 ^ (- b))) + 2 ^ (- b))
      with (M * 2 ^ e * (2 * 2 ^ (- b)) + 2 ^ (- b)) by ring.
    rewrite Z.div_add_l by lia. rewrite Z.div_small by lia. lia.
  - rewrite Z.shiftr_div_pow2 by lia.
    pose proof (pow2_pos (e - b) ltac:(lia)) as Hq.
    pose proof (pow2_pos (- e - 1) ltac:(lia)) as Hr.
    assert (E1 : 2 ^ (- e) = 2 * 2 ^ (- e - 1)).
    { rewrite <- Z.pow_succ_r by lia. f_equal. lia. }
    assert (E2 : 2 ^ (- b) = 2 * 2 ^ (- e - 1) * 2 ^ (e - b)).
    { rewrite <- E1, <- Z.pow_add_r by lia. f_equal. lia. }
    replace (2 * (M * 2 ^ (e - b)) + 2 ^ (- b))
      with ((M + 2 ^ (- e - 1)) * (2 * 2 ^ (e - b))) by (rewrite E2; ring).
    replace (2 * 2 ^ (- b)) with (2 ^ (- e) * (2 * 2 ^ (e - b))) by (rewrite E2, E1; ring).
    rewrite Z.div_mul_cancel_r by lia. reflexivity.
Qed.

Lemma fle_base (x y : num) :
  exists b, b <= 0 /\ (mant x = 0 \/ b <= expo x) /\ (mant y = 0 \/ b <= expo y).
Proof.
  exists (Z.min 0 (Z.min (expo x) (expo y))). repeat split; try (right; lia). lia.
Qed.

Lemma Zfloor_mono (x y : num) : fle x y -> Zfloor x <= Zfloor y.
Proof.
  intros H. destruct (fle_base x y) as (b & Hb & Hx & Hy).
  rewrite (Zfloor_sval x b), (Zfloor_sval y b) by trivial.
  apply Z.div_le_mono; [apply pow2_pos; lia|now apply fle_sval].
Qed.

Lemma Zround_mono (x y : num) : fle x y -> Zround x <= Zround y.
Proof.
  intros H. destruct (fle_base x y) as (b & Hb & Hx & Hy).
  rewrite (Zround_sval x b), (Zround_sval y b) by trivial.
  pose proof (pow2_pos (- b) ltac:(lia)).
  apply Z.div_le_mono; [lia|].
  pose proof (fle_sval x y b H Hx Hy). lia.
Qed.

Lemma within_finite (lo hi x : num) :
  good lo = true -> good hi = true -> within lo hi x -> finite x = true.
Proof.
  intros Gl Gh [_ L H]. apply andb_prop in Gl as [_ Fl], Gh as [_ Fh].
  destruct x as [s|s| |s m e]; trivial; try discriminate.
  destruct s.
  - destruct lo as [sl|sl| |sl ml el]; try discriminate;
      try (destruct sl); discriminate.
  - destruct hi as [sh|sh| |sh mh eh]; try discriminate;
      try (destruct sh); discriminate.
Qed.

Lemma within_good (lo hi x : num) :
  good lo = true -> good hi = true -> within lo hi x -> good x = true.
Proof.
  intros Gl Gh W. unfold good.
  rewrite (within_valid _ _ _ W), (within_finite _ _ _ Gl Gh W). reflexivity.
Qed.

Lemma mul_within (lo hi x c : num) :
  good lo = true -> good hi = true -> positive_finite c = true ->
  within lo hi x -> within (mul lo c) (mul hi c) (mul x c).
Proof.
  intros Gl Gh Pc W. pose proof (within_good _ _ _ Gl Gh W) as Gx.
  destruct W as [_ L H].
  apply andb_prop in Gl as [Vl Fl], Gh as [Vh Fh], Gx as [Vx Fx].
  destruct c as [s|s| |[] mc ec]; try discriminate. cbn [positive_finite] in Pc.
  constructor.
  - now apply mul_valid.
  - now apply mul_mono.
  - now apply mul_mono.
Qed.

Lemma add_within (lo hi x c : num) :
  good lo = true -> good hi = true -> finite_nonzero c = true ->
  within lo hi x -> within (add lo c) (add hi c) (add x c).
Proof.
  intros Gl Gh Pc W. pose proof (within_good _ _ _ Gl Gh W) as Gx.
  destruct W as [_ L H].
  apply andb_prop in Gl as [Vl Fl], Gh as [Vh Fh], Gx as [Vx Fx].
  destruct c as [s|s| |sc mc ec]; try discriminate. cbn [finite_nonzero] in Pc.
  constructor.
  - now apply add_valid.
  - now apply add_mono.
  - now apply add_mono.
Qed.

Lemma div_within (lo hi x c : num) :
  good lo = true -> good hi = true -> positive_finite c = true ->
  within lo hi x -> within (div lo c) (div hi c) (div x c).
Proof.
  intros Gl Gh Pc W. pose proof (within_good _ _ _ Gl Gh W) as Gx.
  destruct W as [_ L H].
  apply andb_prop in Gl as [Vl Fl], Gh as [Vh Fh], Gx as [Vx Fx].
  destruct c as [s|s| |[] mc ec]; try discriminate.
  constructor.
  - now apply div_valid.
  - now apply div_mono.
  - now apply div_mono.
Qed.

(** Rounding to an integer keeps a number between the roundings of the
    ends of its interval. *)
Lemma round_within (lo hi x : num) :
  good lo = true -> good hi = true ->
  - 2 ^ 53 < Zround lo -> Zround hi < 2 ^ 53 ->
  within lo hi x ->
  is_int (round x) (Zround x) /\ Zround lo <= Zround x <= Zround hi.
Proof.
  intros Gl Gh Bl Bh W. pose proof (within_good _ _ _ Gl Gh W) as Gx.
  destruct W as [_ L H].
  apply andb_prop in Gl as [Vl Fl], Gh as [Vh Fh], Gx as [Vx Fx].
  apply SFleb_fle in L, H; trivial.
  apply Zround_mono in L, H.
  split; [|lia]. apply round_is_int; trivial. lia.
Qed.

Lemma floor_within (lo hi x : num) :
  good lo = true -> good hi = true ->
  - 2 ^ 53 < Zfloor lo -> Zfloor hi < 2 ^ 53 ->
  within lo hi x ->
  is_int (floor x) (Zfloor x) /\ Zfloor lo <= Zfloor x <= Zfloor hi.
Proof.
  intros Gl Gh Bl Bh W. pose proof (within_good _ _ _ Gl Gh W) as Gx.
  destruct W as [_ L H].
  apply andb_prop in Gl as [Vl Fl], Gh as [Vh Fh], Gx as [Vx Fx].
  apply SFleb_fle in L, H; trivial.
  apply Zfloor_mono in L, H.
  split; [|lia]. apply floor_is_int; trivial. lia.
Qed.

(** An integer-valued number lies between the floats of two integers
    that bound its value. *)
Lemma is_int_within (x : num) (n a b : Z) :
  is_int x n -> a <= n <= b -> Z.abs a < 2 ^ 53 -> Z.abs b < 2 ^ 53 ->
  within (of_Z a) (of_Z b) x.
Proof.
  intros I Hn Ha Hb. constructor.
  - apply (int_valid _ _ I).
  - apply (is_int_le _ _ a n (of_Z_is_int a Ha) I). lia.
  - apply (is_int_le _ _ n b I (of_Z_is_int b Hb)). lia.
Qed.

Lemma one_eq : of_Z 1 = one.
Proof. vm_compute. reflexivity. Qed.

Lemma SFltb_positive (N1 N2 : positive) (E1 E2 : Z) :
  SFltb (S754_finite false N1 E1) (S754_finite false N2 E2) = true
  <-> E1 < E2 \/ (E1 = E2 /\ Zpos N1 < Zpos N2).
Proof.
  unfold SFltb, SFcompare.
  change (Pos.compare_cont Eq N1 N2) with (N1 ?= N2)%positive.
  destruct (Z.compare_spec E1 E2); [|split; [lia|reflexivity] |split; [discriminate|lia]].
  destruct (Pos.compare_spec N1 N2); split; try lia; try reflexivity; try discriminate.
Qed.

Lemma unit_interval_within (r : num) :
  unit_interval r = true -> within (S754_zero false) pred_one r.
Proof.
  destruct r as [[]|s| |[] m e]; try discriminate.
  - intros _. constructor; reflexivity.
  - cbn [unit_interval]. rewrite one_eq. intros H. apply andb_prop in H as [B L].
    assert (V : valid_binary prec emax (S754_finite false m e) = true) by exact B.
    constructor.
    + exact V.
    + reflexivity.
    + apply SFleb_positive.
      apply valid_canonical in V as [[Hm C] _].
      pose proof (Zdigits2_bounds (Zpos m) Hm) as [Lo Hi].
      rewrite fexp_eq in C.
      apply SFltb_positive in L.
      destruct (Z_lt_le_dec e (-53)) as [He|He]; [left; exact He|right].
      assert (Hd : Zdigits2 (Zpos m) <= 53) by lia.
      assert (P : 2 ^ Zdigits2 (Z.pos m) <= 2 ^ 53)
        by (apply Z.pow_le_mono_r; lia).
      change (2 ^ 53) with 9007199254740992 in P.
      destruct L as [L|[-> L]].
      * split; lia.
      * exfalso.
        assert (Hd' : Zdigits2 (Zpos m) = 53) by lia.
        rewrite Hd' in Lo. change (2 ^ (53 - 1)) with 4503599627370496 in Lo. lia.
Qed.













Lemma is_int_not_nan (x : num) (n : Z) : is_int x n -> is_nan x = false.
Proof. intros [_ F _]. destruct x; trivial; discriminate F. Qed.

Lemma is_int_lt (x y : num) (a b : Z) :
  is_int x a -> is_int y b -> (lt x y = true <-> a < b).
Proof.
  intros Hx Hy.
  rewrite (NumFacts.lt_is_not_ge x y)
    by (eapply is_int_not_nan; eassumption).
  unfold ge. pose proof (is_int_le y x b a Hy Hx) as L.
  destruct (SFleb y x); cbn [negb]; split; intros H; try discriminate; try lia.
Qed.

Lemma good_zero : good (S754_zero false) = true.
Proof. reflexivity. Qed.

Lemma good_pred_one : good pred_one = true.
Proof. reflexivity. Qed.

Lemma randomInRange_within (r min max : num) :
  unit_interval r = true -> range_check min max = true ->
  within (range_lo min max) (range_hi min max) (add (mul r (sub max min)) min).
Proof.
  intros Hr H. unfold range_check in H.
  repeat (apply andb_prop in H as [H ?]).
  apply add_within; trivial.
  apply mul_within; trivial.
  now apply unit_interval_within.
Qed.

Lemma Zround_bounds (lo hi x : num) :
  good lo = true -> good hi = true -> within lo hi x ->
  Zround lo <= Zround x <= Zround hi.
Proof.
  intros Gl Gh W. pose proof (within_good _ _ _ Gl Gh W) as Gx.
  destruct W as [V L H].
  apply andb_prop in Gl as [Vl Fl], Gh as [Vh Fh], Gx as [Vx Fx].
  split; apply Zround_mono; apply SFleb_fle; trivial.
Qed.

Lemma rounded_within (lo hi x scale : num) :
  scale_check lo hi scale = true -> within lo hi x ->
  within (div (of_Z (Zround (mul lo scale))) scale)
         (div (of_Z (Zround (mul hi scale))) scale)
         (div (round (mul x scale)) scale).
Proof.
  intros H W. unfold scale_check in H.
  repeat (apply andb_prop in H as [H ?]).
  repeat match goal with
         | [ B : (_ <? _) = true |- _ ] => apply Z.ltb_lt in B
         end.
  assert (W' : within (mul lo scale) (mul hi scale) (mul x scale))
    by now apply mul_within.
  destruct (round_within (mul lo scale) (mul hi scale) (mul x scale)) as [I B];
    trivial.
  assert (Ba : Z.abs (Zround (mul lo scale)) < 2 ^ 53) by lia.
  assert (Bb : Z.abs (Zround (mul hi scale)) < 2 ^ 53) by lia.
  apply div_within; trivial.
  - unfold good. destruct (of_Z_is_int _ Ba) as [V F _]. now rewrite V, F.
  - unfold good. destruct (of_Z_is_int _ Bb) as [V F _]. now rewrite V, F.
  - now apply (is_int_within _ (Zround (mul x scale))).
Qed.

Lemma floored_within (lo hi x : num) :
  floor_check lo hi = true -> within lo hi x ->
  exists n, is_int (floor x) n /\ Zfloor lo <= n <= Zfloor hi.
Proof.
  intros H W. unfold floor_check in H.
  repeat (apply andb_prop in H as [H ?]).
  repeat match goal with
         | [ B : (_ <? _) = true |- _ ] => apply Z.ltb_lt in B
         end.
  exists (Zfloor x). now apply (floor_within lo hi x).
Qed.

Lemma mul_unit_within (r k : num) :
  unit_interval r = true -> positive_finite k = true ->
  within (mul (S754_zero false) k) (mul pred_one k) (mul r k).
Proof.
  intros Hr Hk. apply mul_within; trivial. now apply unit_interval_within.
Qed.

Lemma index_in (A : Type) (l : list A) (r : num) :
  unit_interval r = true -> choice_check (Z.of_nat (List.length l)) = true ->
  exists x, index l (floor (mul r (of_Z (Z.of_nat (List.length l))))) = Some x
            /\ In x l.
Proof.
  intros Hr H. unfold choice_check in H.
  repeat (apply andb_prop in H as [H ?]).
  repeat match goal with
         | [ B : (_ <? _) = true |- _ ] => apply Z.ltb_lt in B
         | [ B : (_ <=? _) = true |- _ ] => apply Z.leb_le in B
         end.
  destruct (floored_within _ _ (mul r (of_Z (Z.of_nat (List.length l))))
              ltac:(eassumption)) as (n & I & B).
  { now apply mul_unit_within. }
  unfold index. rewrite (to_Z_is_int _ _ I).
  destruct (Z.ltb_spec n 0) as [C|C]; [lia|].
  destruct (nth_error l (Z.to_nat n)) as [x|] eqn:E.
  - exists x. split; [reflexivity|]. now apply nth_error_In in E.
  - apply nth_error_None in E. lia.
Qed.



End RoundingFacts.

(** * Properties of the seeding script *)
Module SeedSpec.
Import JS Num Seed.

(** The threat level is decided by three thresholds; on a number that is
    not NaN the four outcomes are the four intervals they cut. *)
Lemma pickThreat_intervals (wq : num) :
  is_nan wq = false ->
  (pickThreatByWaterQuality wq = "low" <-> ge wq (dyadic 15 (-1)) = true)
  /\ (pickThreatByWaterQuality wq = "medium" <->
      ge wq (dyadic 11 (-1)) = true /\ lt wq (dyadic 15 (-1)) = true)
  /\ (pickThreatByWaterQuality wq = "high" <->
      ge wq (dyadic 7 (-1)) = true /\ lt wq (dyadic 11 (-1)) = true)
  /\ (pickThreatByWaterQuality wq = "critical" <-> lt wq (dyadic 7 (-1)) = true).
Proof.
  intros Hwq.
  rewrite !(NumFacts.lt_is_not_ge wq) by (trivial; reflexivity).
  assert (H75 : ge wq (dyadic 15 (-1)) = true -> ge wq (dyadic 11 (-1)) = true).
  { apply NumFacts.ge_weaken. right. split; [reflexivity|]. vm_compute. discriminate. }
  assert (H55 : ge wq (dyadic 11 (-1)) = true -> ge wq (dyadic 7 (-1)) = true).
  { apply NumFacts.ge_weaken. left. reflexivity. }
  unfold pickThreatByWaterQuality.
  destruct (ge wq (dyadic 15 (-1))) eqn:A, (ge wq (dyadic 11 (-1))) eqn:B,
    (ge wq (dyadic 7 (-1))) eqn:C; simpl;
    try (specialize (H75 eq_refl)); try (specialize (H55 eq_refl));
    try discriminate;
    repeat split; try discriminate; try tauto; intros []; discriminate.
Qed.

Section Generated.

Variable random : nat -> num.
Variable now : num.
Variable toFixed1 : num -> string.

(** What is known of a document that an iteration returned, in terms of
    the numbers [Math.random] gave it. *)
Record drawn (n : nat) (d : observation) : Prop := {
  drawn_region :
    region d = index regions (floor (mul (random n) (of_Z 4)));
  drawn_species :
    species d = index speciesPool (floor (mul (random (n + 1)) (of_Z 20)));
  drawn_createdAt :
    createdAt d =
      TimeClip
        (sub now
           (mul (mul (mul (mul (floor (mul (mul (random (n + 3)) (of_Z 6)) (of_Z 30)))
                               (of_Z 24)) (of_Z 60)) (of_Z 60)) (of_Z 1000)));
  drawn_profile :
    exists name prof,
      region d = Some name /\ lookup_profile regionProfiles name = Some prof
      /\ coordinates d =
           (div (round (mul (add (mul (random (n + 5))
                                      (sub (snd (lat prof)) (fst (lat prof))))
                                 (fst (lat prof))) (of_Z 1000))) (of_Z 1000),
            div (round (mul (add (mul (random (n + 6))
                                      (sub (snd (lon prof)) (fst (lon prof))))
                                 (fst (lon prof))) (of_Z 1000))) (of_Z 1000));
  drawn_waterQuality :
    waterQuality d =
      div (round (mul (add (mul (random (n + 7)) (sub (of_Z 9) (of_Z 2)))
                           (of_Z 2)) (of_Z 10))) (of_Z 10);
  drawn_threatLevel :
    threatLevel d = pickThreatByWaterQuality (waterQuality d);
  drawn_speciesCount :
    speciesCount d =
      floor (add (mul (random (n + 8)) (sub (of_Z 300) (of_Z 5))) (of_Z 5)) }.

Lemma iteration_returns (n n' : nat) (d : observation) :
  iteration random now toFixed1 n = (Returned d, n') ->
  n' = (n + 10)%nat /\ drawn n d.
Proof.
  cbv beta iota zeta
    delta [iteration rbind randomChoice randomInRange Math_random rret rthrow].
  replace (Z.of_nat (List.length regions)) with 4%Z by reflexivity.
  replace (Z.of_nat (List.length speciesPool)) with 20%Z by reflexivity.
  destruct (index regions (floor (mul (random n) (of_Z 4)))) as [name|] eqn:Hregion.
  - destruct (lookup_profile regionProfiles name) as [prof|] eqn:Hprof.
    + cbv beta iota zeta. intros [= <- <-]. split; [lia|].
      constructor;
        cbn [region species createdAt coordinates waterQuality threatLevel
             speciesCount];
        rewrite ?Nat.add_succ_r, ?Nat.add_0_r; try reflexivity;
        try (symmetry; assumption).
      exists name, prof. repeat split; trivial.
    + discriminate.
  - discriminate.
Qed.

(** The loop extends [docs] by documents drawn at the successive states. *)
Lemma loop_returns (P : observation -> Prop) :
  (forall n d, drawn n d -> P d) ->
  forall k docs n out n',
    Forall P docs ->
    loop random now toFixed1 k docs n = (Returned out, n') ->
    Forall P out.
Proof.
  intros HP. induction k as [|k IH]; simpl; intros docs n out n' Hdocs.
  - intros [= <- _]. exact Hdocs.
  - unfold rbind at 1.
    destruct (iteration random now toFixed1 n) as [[d|e] m] eqn:Hit;
      [|discriminate].
    intros Hloop. apply (IH (docs ++ [d])%list m out n'); trivial.
    apply Forall_app. split; trivial. constructor; [|constructor].
    apply (HP n). now apply iteration_returns in Hit.
Qed.

End Generated.

(** C10: in every document the script generates, the threat level is
    determined by the water quality: "low" iff it is at least 7.5,
    "medium" iff it is at least 5.5 and below 7.5, "high" iff it is at
    least 3.5 and below 5.5, and "critical" iff it is below 3.5. *)
Theorem threat_follows_water_quality
  (random : nat -> num) (now : num) (toFixed1 : num -> string)
  (docs : list observation) (n n' : nat)
  (Hrandom : forall k, unit_interval (random k) = true)
  (Hrun : generate random now toFixed1 n = (Returned docs, n')) :
  Forall
    (fun d =>
       threatLevel d = pickThreatByWaterQuality (waterQuality d)
       /\ (threatLevel d = "low" <-> ge (waterQuality d) (dyadic 15 (-1)) = true)
       /\ (threatLevel d = "medium" <->
           ge (waterQuality d) (dyadic 11 (-1)) = true
           /\ lt (waterQuality d) (dyadic 15 (-1)) = true)
       /\ (threatLevel d = "high" <->
           ge (waterQuality d) (dyadic 7 (-1)) = true
           /\ lt (waterQuality d) (dyadic 11 (-1)) = true)
       /\ (threatLevel d = "critical" <->
           lt (waterQuality d) (dyadic 7 (-1)) = true))
    docs.
Proof.
  unfold generate in Hrun.
  refine (loop_returns random now toFixed1 _ _ _ _ _ _ _ (Forall_nil _) Hrun).
  intros k d Hd. split; [apply (drawn_threatLevel _ _ _ _ Hd)|].
  rewrite (drawn_threatLevel _ _ _ _ Hd).
  apply pickThreat_intervals. rewrite (drawn_waterQuality _ _ _ _ Hd).
  apply NumFacts.div_not_nan, NumFacts.round_not_nan, NumFacts.mul_not_nan,
    NumFacts.add_not_nan, NumFacts.mul_not_nan, NumFacts.unit_interval_not_nan,
    Hrandom.
Qed.

Lemma threat_follows_water_quality_witness :
  Forall
    (fun d =>
       threatLevel d = pickThreatByWaterQuality (waterQuality d)
       /\ (threatLevel d = "low" <-> ge (waterQuality d) (dyadic 15 (-1)) = true)
       /\ (threatLevel d = "medium" <->
           ge (waterQuality d) (dyadic 11 (-1)) = true
           /\ lt (waterQuality d) (dyadic 15 (-1)) = true)
       /\ (threatLevel d = "high" <->
           ge (waterQuality d) (dyadic 7 (-1)) = true
           /\ lt (waterQuality d) (dyadic 11 (-1)) = true)
       /\ (threatLevel d = "critical" <->
           lt (waterQuality d) (dyadic 7 (-1)) = true))
    Examples.sample_docs.
Proof.
  apply (threat_follows_water_quality
           (fun _ => Examples.half) (of_Z 1700000000000) (fun _ => "0.0")
           Examples.sample_docs 0 1000).
  - intros k. reflexivity.
  - vm_compute. reflexivity.
Defined.

End SeedSpec.

(** * The seeding run *)
Module SeedRunSpec.
Import JS Num Seed Rounding RoundingFacts SeedSpec.
Local Open Scope Z_scope.
Local Open Scope string_scope.

Ltac by_computation := vm_compute; reflexivity.


Lemma draw_rounded (r min max scale lo hi : num) :
  unit_interval r = true ->
  range_check min max = true ->
  scale_check (range_lo min max) (range_hi min max) scale = true ->
  div (of_Z (Zround (mul (range_lo min max) scale))) scale = lo ->
  div (of_Z (Zround (mul (range_hi min max) scale))) scale = hi ->
  le lo (div (round (mul (add (mul r (sub max min)) min) scale)) scale) = true
  /\ le (div (round (mul (add (mul r (sub max min)) min) scale)) scale) hi = true.
Proof.
  intros Hr Hrange Hscale <- <-.
  destruct (rounded_within _ _ _ _ Hscale (randomInRange_within r min max Hr Hrange))
    as [_ L H].
  split; assumption.
Qed.

Lemma draw_floored (r min max : num) (a b : Z) :
  unit_interval r = true ->
  range_check min max = true ->
  floor_check (range_lo min max) (range_hi min max) = true ->
  Zfloor (range_lo min max) = a -> Zfloor (range_hi min max) = b ->
  exists n, is_int (floor (add (mul r (sub max min)) min)) n /\ a <= n <= b.
Proof.
  intros Hr Hrange Hfloor <- <-.
  exact (floored_within _ _ _ Hfloor (randomInRange_within r min max Hr Hrange)).
Qed.


Section Bounds.

Variable random : nat -> num.
Variable now : num.
Variable toFixed1 : num -> string.
Variable t : Z.
Hypothesis Hrandom : forall k, unit_interval (random k) = true.
Hypothesis Hnow : now = of_Z t.
Hypothesis Ht : - 8640000000000000 + 180 * 86400000 <= t <= 8640000000000000.








End Bounds.




End SeedRunSpec.

(** * Edges of the route handlers *)
Module HandlerEdges.
Import JS Eff Http.

(** X1: a request whose body is the JSON value [null] is answered by both
    handlers with their generic 500, after the error was logged, and
    nothing but the parsing of the body is called. *)
Theorem null_body_is_internal_error :
  (forall w,
      Login.req_json w = Returned VNull ->
      Login.POST w [] =
        (Returned Login.internal_error,
         [EvReqJson;
          EvConsoleError (lit "Login error:")
            (TypeError "Cannot destructure 'null'")]))
  /\ (forall w,
        Contact.req_json w = Returned VNull ->
        Contact.POST w [] =
          (Returned Contact.internal_error,
           [EvReqJson;
            EvConsoleError (lit "Contact form error:")
              (TypeError "Cannot destructure 'null'")])).
Proof.
  split; intros w H.
  - LoginSpec.run. now rewrite H.
  - ContactSpec.run. now rewrite H.
Qed.

(** X2: when a required field is missing, the login handler answers
    before any collaborator but the request is called: no database
    lookup, no comparison, no token. *)
Theorem login_missing_field_calls_nothing (w : Login.world) (body : value)
  (Hreq : Login.req_json w = Returned body)
  (Hnull : body <> VNull) (Hundef : body <> VUndefined)
  (Hmissing : Login.present body = false) :
  snd (Login.POST w []) = [EvReqJson].
Proof.
  LoginSpec.run. rewrite Hreq, (HandlersSpec.coercible body Hnull Hundef).
  unfold Login.present in Hmissing.
  destruct (truthy (get body (lit "email"))), (truthy (get body (lit "password")));
    try discriminate; reflexivity.
Qed.

Lemma login_missing_field_calls_nothing_witness :
  snd (Login.POST
         (Examples.login_world
            (Returned (VObj [(lit "email", VStr (lit "alice@example.com"))]))) [])
  = [EvReqJson].
Proof.
  apply (login_missing_field_calls_nothing
           (Examples.login_world
              (Returned (VObj [(lit "email", VStr (lit "alice@example.com"))])))
           (VObj [(lit "email", VStr (lit "alice@example.com"))]));
    [reflexivity | discriminate | discriminate | reflexivity].
Defined.

(** X3: whatever the collaborators do, the login handler answers with
    200, 400, 401 or 500; it sets a cookie only with 200, and with 200 it
    sets exactly the [auth_token] cookie, holding what [jwt.sign]
    returned. *)
Theorem login_answers (w : Login.world) :
  exists r t,
    Login.POST w [] = (Returned r, t)
    /\ In (status r) [200; 400; 401; 500]%Z
    /\ (status r <> 200%Z -> cookies r = [])
    /\ (status r = 200%Z ->
        exists payload token,
          Login.jwt_sign w payload (Login.JWT_SECRET w) (lit "1h") = Returned token
          /\ cookies r = [Login.auth_cookie w token]).
Proof.
  LoginSpec.run.
  destruct (Login.req_json w) as [body|e]; simpl;
    [|do 2 eexists; split; [reflexivity|]; simpl; split; [tauto|];
      split; [reflexivity|discriminate]].
  destruct (require_object_coercible body); simpl;
    [|do 2 eexists; split; [reflexivity|]; simpl; split; [tauto|];
      split; [reflexivity|discriminate]].
  destruct (negb (truthy (get body (lit "email")))
            || negb (truthy (get body (lit "password")))); simpl;
    [do 2 eexists; split; [reflexivity|]; simpl; split; [tauto|];
      split; [reflexivity|discriminate]|].
  destruct (ToString (Login.convert w) (get body (lit "email"))) as [s|e]; simpl;
    [|do 2 eexists; split; [reflexivity|]; simpl; split; [tauto|];
      split; [reflexivity|discriminate]].
  destruct (Login.getUserCollection w) as [[]|e]; simpl;
    [|do 2 eexists; split; [reflexivity|]; simpl; split; [tauto|];
      split; [reflexivity|discriminate]].
  destruct (Login.findOne w (Login.normalize w s)) as [[u|]|e]; simpl;
    try (do 2 eexists; split; [reflexivity|]; simpl; split; [tauto|];
         split; [reflexivity|discriminate]).
  destruct (negb (truthy (Login.password u))); simpl;
    [do 2 eexists; split; [reflexivity|]; simpl; split; [tauto|];
      split; [reflexivity|discriminate]|].
  destruct (Login.bcrypt_compare w (get body (lit "password")) (Login.password u))
    as [[]|e]; simpl;
    try (do 2 eexists; split; [reflexivity|]; simpl; split; [tauto|];
         split; [reflexivity|discriminate]).
  destruct (Login.jwt_sign w _ (Login.JWT_SECRET w) (lit "1h")) as [token|e] eqn:Hsign;
    simpl;
    [|do 2 eexists; split; [reflexivity|]; simpl; split; [tauto|];
      split; [reflexivity|discriminate]].
  do 2 eexists; split; [reflexivity|]. simpl. split; [tauto|].
  split; [intros H; now elim H|]. intros _. eexists _, token. split; [exact Hsign|reflexivity].
Qed.



(** X6: whatever the mailer does, the contact handler answers with 200,
    400 or 500, it never sets a cookie, and it calls the mailer at most
    once. *)
Theorem contact_answers (w : Contact.world) :
  exists r t,
    Contact.POST w [] = (Returned r, t)
    /\ In (status r) [200; 400; 500]%Z
    /\ cookies r = []
    /\ (List.length (filter is_send t) <= 1)%nat.
Proof.
  ContactSpec.run.
  destruct (Contact.req_json w) as [body|e]; simpl;
    [|do 2 eexists; split; [reflexivity|]; simpl; repeat split; (tauto || lia)].
  destruct (require_object_coercible body); simpl;
    [|do 2 eexists; split; [reflexivity|]; simpl; repeat split; (tauto || lia)].
  destruct (negb (truthy (get body (lit "firstName")))
            || negb (truthy (get body (lit "lastName")))
            || negb (truthy (get body (lit "email")))
            || negb (truthy (get body (lit "message")))); simpl;
    [do 2 eexists; split; [reflexivity|]; simpl; repeat split; (tauto || lia)|].
  destruct (ToString (Contact.convert w) (get body (lit "email"))) as [s|e]; simpl;
    [|do 2 eexists; split; [reflexivity|]; simpl; repeat split; (tauto || lia)].
  destruct (negb (test Contact.emailRegex s)); simpl;
    [do 2 eexists; split; [reflexivity|]; simpl; repeat split; (tauto || lia)|].
  match goal with
  | [ |- context [Contact.sendContactEmail w ?d] ] =>
      destruct (Contact.sendContactEmail w d) as [res|e]
  end; simpl;
    [|do 2 eexists; split; [reflexivity|]; simpl; repeat split; (tauto || lia)].
  destruct (require_object_coercible res); simpl;
    [|do 2 eexists; split; [reflexivity|]; simpl; repeat split; (tauto || lia)].
  destruct (negb (truthy (get res (lit "success")))); simpl;
    do 2 eexists; (split; [reflexivity|]); simpl; repeat split; (tauto || lia).
Qed.

(** X7: a mailer that resolves to [null] or [undefined] makes the read of
    [emailResult.success] throw; the contact handler, having called the
    mailer once, logs the error and answers with the generic 500. *)
Theorem contact_mailer_without_result (w : Contact.world) (body result : value)
  (s : str)
  (Hreq : Contact.req_json w = Returned body)
  (Hpresent : Contact.present body = true)
  (Hstring : ToString (Contact.convert w) (get body (lit "email")) = Returned s)
  (Hformat : test Contact.emailRegex s = true)
  (Hmail : Contact.sendContactEmail w (Contact.fields body) = Returned result)
  (Hnone : result = VNull \/ result = VUndefined) :
  exists e,
    Contact.POST w [] =
      (Returned Contact.internal_error,
       [ EvReqJson; EvSendContactEmail (Contact.fields body);
         EvConsoleError (lit "Contact form error:") e ]).
Proof.
  ContactSpec.run. rewrite Hreq. ContactSpec.pass_guard Hpresent.
  rewrite Hstring. simpl. rewrite Hformat. simpl.
  fold (Contact.fields body). rewrite Hmail.
  destruct Hnone as [-> | ->]; simpl; eexists; reflexivity.
Qed.

Lemma contact_mailer_without_result_witness :
  exists e,
    Contact.POST
      (Examples.contact_world
         (Returned (Examples.contact_body VUndefined (lit "ada@example.org")))
         (Returned VNull)) [] =
      (Returned Contact.internal_error,
       [ EvReqJson;
         EvSendContactEmail
           (Contact.fields (Examples.contact_body VUndefined (lit "ada@example.org")));
         EvConsoleError (lit "Contact form error:") e ]).
Proof.
  apply (contact_mailer_without_result
           (Examples.contact_world
              (Returned (Examples.contact_body VUndefined (lit "ada@example.org")))
              (Returned VNull))
           (Examples.contact_body VUndefined (lit "ada@example.org"))
           VNull (lit "ada@example.org"));
    try reflexivity.
  now left.
Defined.

End HandlerEdges.

(** * The email pattern *)
Module RegexFacts.
Import JS.

Lemma void_inv (s : str) : ~ matches Void s.
Proof. intros H. inversion H. Qed.

Lemma eps_inv (s : str) : matches Eps s <-> s = [].
Proof.
  split; [intros H; now inversion H | intros ->; constructor].
Qed.

Lemma class_inv (p : code_unit -> bool) (s : str) :
  matches (Class p) s <-> exists c, s = [c] /\ p c = true.
Proof.
  split.
  - intros H. inversion H; subst. eexists. split; [reflexivity|assumption].
  - intros (c & -> & H). now constructor.
Qed.

Lemma cat_inv (r1 r2 : regex) (s : str) :
  matches (Cat r1 r2) s <->
  exists s1 s2, s = (s1 ++ s2)%list /\ matches r1 s1 /\ matches r2 s2.
Proof.
  split.
  - intros H. inversion H; subst.
    eexists _, _. split; [reflexivity|]. split; eassumption.
  - intros (s1 & s2 & -> & H1 & H2). now constructor.
Qed.

Lemma alt_inv (r1 r2 : regex) (s : str) :
  matches (Alt r1 r2) s <-> matches r1 s \/ matches r2 s.
Proof.
  split.
  - intros H. inversion H; subst; tauto.
  - intros [H|H]; [now apply matches_left | now apply matches_right].
Qed.

Lemma nullable_matches (r : regex) : nullable r = true <-> matches r [].
Proof.
  induction r as [| |p|r1 IH1 r2 IH2|r1 IH1 r2 IH2|r IH]; simpl.
  - split; [discriminate|]. intros H. now apply void_inv in H.
  - split; [constructor|reflexivity].
  - split; [discriminate|]. intros H. apply class_inv in H as (c & H & _).
    discriminate H.
  - rewrite andb_true_iff, IH1, IH2, cat_inv. split.
    + intros [H1 H2]. now exists [], [].
    + intros (s1 & s2 & E & H1 & H2). symmetry in E.
      apply app_eq_nil in E as [-> ->]. now split.
  - now rewrite orb_true_iff, IH1, IH2, alt_inv.
  - split; [constructor|reflexivity].
Qed.

(** A non-empty match of a star starts with a non-empty match of its body. *)
Lemma star_cons (r : regex) (c : code_unit) (s : str) :
  matches (Star r) (c :: s) ->
  exists s1 s2, s = (s1 ++ s2)%list /\ matches r (c :: s1) /\ matches (Star r) s2.
Proof.
  intros H. remember (Star r) as q eqn:Eq. remember (c :: s) as cs eqn:Es.
  revert s Es.
  induction H as [| | | | | |r' a b Ha _ Hb IHb]; try discriminate.
  injection Eq as ->. intros s Es.
  destruct a as [|c' a].
  - simpl in Es. now apply IHb.
  - simpl in Es. injection Es as -> <-. now exists a, b.
Qed.

Lemma deriv_matches (r : regex) (c : code_unit) (s : str) :
  matches (deriv c r) s <-> matches r (c :: s).
Proof.
  revert s. induction r as [| |p|r1 IH1 r2 IH2|r1 IH1 r2 IH2|r IH]; intros s; simpl.
  - split; intros H; now apply void_inv in H.
  - split; intros H; [now apply void_inv in H|].
    apply eps_inv in H. discriminate H.
  - rewrite class_inv. destruct (p c) eqn:Hp.
    + rewrite eps_inv. split.
      * intros ->. now exists c.
      * intros (c' & [= -> ->] & _). reflexivity.
    + split; [intros H; now apply void_inv in H|].
      intros (c' & [= -> ->] & H). congruence.
  - assert (Hd : matches (Cat (deriv c r1) r2) s <->
                 exists s1 s2, s = (s1 ++ s2)%list /\ matches r1 (c :: s1)
                               /\ matches r2 s2).
    { rewrite cat_inv. split; intros (s1 & s2 & E & H1 & H2); exists s1, s2;
        (split; [exact E|]); (split; [now apply IH1|exact H2]). }
    assert (Hc : matches (Cat r1 r2) (c :: s) <->
                 (exists s1 s2, s = (s1 ++ s2)%list /\ matches r1 (c :: s1)
                                /\ matches r2 s2)
                 \/ (matches r1 [] /\ matches r2 (c :: s))).
    { rewrite cat_inv. split.
      - intros (s1 & s2 & E & H1 & H2). destruct s1 as [|c' s1]; simpl in E.
        + right. subst. tauto.
        + injection E as -> ->. left. now exists s1, s2.
      - intros [(s1 & s2 & -> & H1 & H2) | [H1 H2]].
        + now exists (c :: s1), s2.
        + now exists [], (c :: s). }
    rewrite Hc. destruct (nullable r1) eqn:Hn.
    + rewrite alt_inv, Hd, IH2. apply nullable_matches in Hn. tauto.
    + rewrite Hd. split; [tauto|]. intros [H | [H _]]; [trivial|].
      apply nullable_matches in H. congruence.
  - now rewrite !alt_inv, IH1, IH2.
  - rewrite cat_inv. split.
    + intros (s1 & s2 & -> & H1 & H2).
      apply IH in H1. exact (matches_more _ (c :: s1) s2 H1 H2).
    + intros H. apply star_cons in H as (s1 & s2 & -> & H1 & H2).
      exists s1, s2. split; [reflexivity|]. split; [now apply IH|trivial].
Qed.

Lemma test_matches (r : regex) (s : str) : test r s = true <-> matches r s.
Proof.
  revert r. induction s as [|c s IH]; intros r; simpl.
  - apply nullable_matches.
  - rewrite IH. apply deriv_matches.
Qed.

Lemma star_class (p : code_unit -> bool) (s : str) :
  matches (Star (Class p)) s <-> Forall (fun c => p c = true) s.
Proof.
  split.
  - intros H. remember (Star (Class p)) as q eqn:Eq.
    induction H as [| | | | | |r a b Ha _ Hb IHb]; try discriminate.
    + constructor.
    + injection Eq as ->. apply class_inv in Ha as (c & -> & Hc).
      simpl. constructor; auto.
  - induction 1 as [|c s Hc _ IH]; [constructor|].
    exact (matches_more _ [c] s (matches_class p c Hc) IH).
Qed.

Lemma plus_class (p : code_unit -> bool) (s : str) :
  matches (Plus (Class p)) s <-> s <> [] /\ Forall (fun c => p c = true) s.
Proof.
  unfold Plus. rewrite cat_inv. split.
  - intros (s1 & s2 & -> & H1 & H2).
    apply class_inv in H1 as (c & -> & Hc). apply star_class in H2. simpl.
    split; [discriminate|]. now constructor.
  - intros [Hne H]. destruct s as [|c s]; [contradiction|].
    inversion H; subst. exists [c], s. split; [reflexivity|].
    split; [now constructor | now apply star_class].
Qed.

Lemma lit_matches (c : code_unit) (s : str) : matches (Lit c) s <-> s = [c].
Proof.
  unfold Lit. rewrite class_inv. split.
  - intros (c' & -> & H). apply N.eqb_eq in H. now subst.
  - intros ->. exists c. split; [reflexivity|apply N.eqb_refl].
Qed.

End RegexFacts.

Module EmailFormat.
Import JS Contact.

Lemma emailRegex_shape (s : str) :
  test emailRegex s = true <->
  exists name domain tld,
    s = (name ++ unit_of "@" :: domain ++ unit_of "." :: tld)%list
    /\ name <> [] /\ domain <> [] /\ tld <> []
    /\ Forall (fun c => not_space_or_at c = true) name
    /\ Forall (fun c => not_space_or_at c = true) domain
    /\ Forall (fun c => not_space_or_at c = true) tld.
Proof.
  rewrite RegexFacts.test_matches. unfold emailRegex.
  split.
  - intros H.
    apply RegexFacts.cat_inv in H as (name & s1 & -> & Hname & H).
    apply RegexFacts.cat_inv in H as (at_ & s2 & -> & Hat & H).
    apply RegexFacts.cat_inv in H as (domain & s3 & -> & Hdomain & H).
    apply RegexFacts.cat_inv in H as (dot & tld & -> & Hdot & Htld).
    apply RegexFacts.lit_matches in Hat, Hdot. subst.
    apply RegexFacts.plus_class in Hname as [? ?], Hdomain as [? ?], Htld as [? ?].
    exists name, domain, tld. simpl. tauto.
  - intros (name & domain & tld & -> & N1 & N2 & N3 & F1 & F2 & F3).
    apply (matches_cat _ _ name); [now apply RegexFacts.plus_class|].
    apply (matches_cat _ _ [unit_of "@"]); [now apply RegexFacts.lit_matches|].
    apply (matches_cat _ _ domain); [now apply RegexFacts.plus_class|].
    apply (matches_cat _ _ [unit_of "."]); [now apply RegexFacts.lit_matches|].
    now apply RegexFacts.plus_class.
Qed.

(** X8: the email pattern of the contact form accepts exactly the
    strings of the shape [name@domain.tld] whose three parts are not
    empty and hold neither white space nor an at sign (the domain and the
    last part may hold dots). *)
Theorem email_format (s : str) :
  test emailRegex s = true <->
  exists name domain tld,
    s = (name ++ unit_of "@" :: domain ++ unit_of "." :: tld)%list
    /\ name <> [] /\ domain <> [] /\ tld <> []
    /\ Forall (fun c => not_space_or_at c = true) name
    /\ Forall (fun c => not_space_or_at c = true) domain
    /\ Forall (fun c => not_space_or_at c = true) tld.
Proof. apply emailRegex_shape. Qed.

(** X9: an email that holds a white-space character of any kind, that
    holds no at sign or more than one, or that has no dot after the at
    sign, fails the pattern. *)
Theorem email_format_rejects (s : str) :
  (exists c, In c s /\ is_white_space c = true)
  \/ count_occ N.eq_dec s (unit_of "@") <> 1%nat
  \/ (forall name rest, s = (name ++ unit_of "@" :: rest)%list ->
      ~ In (unit_of ".") rest) ->
  test emailRegex s = false.
Proof.
  intros H. destruct (test emailRegex s) eqn:E; [|reflexivity]. exfalso.
  apply emailRegex_shape in E
    as (name & domain & tld & -> & N1 & N2 & N3 & F1 & F2 & F3).
  assert (Hok : forall l c, Forall (fun c => not_space_or_at c = true) l ->
                In c l -> is_white_space c = false /\ c <> unit_of "@").
  { intros l c Hl Hc. rewrite Forall_forall in Hl. specialize (Hl c Hc).
    unfold not_space_or_at in Hl. apply negb_true_iff, orb_false_iff in Hl as [A B].
    split; [exact A|]. intros ->. now rewrite N.eqb_refl in B. }
  assert (Hcount : forall l, Forall (fun c => not_space_or_at c = true) l ->
                   count_occ N.eq_dec l (unit_of "@") = 0%nat).
  { intros l Hl. apply count_occ_not_In. intros Hin.
    now destruct (Hok l _ Hl Hin) as [_ B]. }
  destruct H as [(c & Hin & Hw) | [H | H]].
  - rewrite in_app_iff in Hin. cbn [In] in Hin. rewrite in_app_iff in Hin.
    cbn [In] in Hin.
    destruct Hin as [Hin | [<- | [Hin | [<- | Hin]]]].
    + destruct (Hok name c F1 Hin) as [A _]. congruence.
    + vm_compute in Hw. discriminate.
    + destruct (Hok domain c F2 Hin) as [A _]. congruence.
    + vm_compute in Hw. discriminate.
    + destruct (Hok tld c F3 Hin) as [A _]. congruence.
  - apply H. rewrite count_occ_app. cbn [count_occ].
    destruct (N.eq_dec (unit_of "@") (unit_of "@")) as [_|C]; [|now elim C].
    rewrite count_occ_app. cbn [count_occ].
    destruct (N.eq_dec (unit_of ".") (unit_of "@")) as [C|_];
      [vm_compute in C; discriminate C|].
    rewrite !Hcount by assumption. reflexivity.
  - apply (H name (domain ++ unit_of "." :: tld)%list eq_refl).
    apply in_app_iff. right. now left.
Qed.

Lemma email_format_rejects_witness :
  test emailRegex Examples.spaced_email = false.
Proof.
  apply email_format_rejects. left. exists 0x3000%N. split; [|reflexivity].
  simpl. tauto.
Defined.

End EmailFormat.

(** * Trimming and normalization *)
Module TrimFacts.
Import JS.

Lemma trimStart_blank (pre s : str) : blank pre -> trimStart (pre ++ s)%list = trimStart s.
Proof.
  induction 1 as [|c pre Hc _ IH]; simpl; [reflexivity|]. now rewrite Hc.
Qed.

Lemma trimStart_split (s : str) :
  exists pre, s = (pre ++ trimStart s)%list /\ blank pre.
Proof.
  induction s as [|c s (pre & E & B)]; simpl.
  - exists []. split; [reflexivity|constructor].
  - destruct (is_white_space c) eqn:Hc.
    + exists (c :: pre). split; [simpl; now f_equal|now constructor].
    + exists []. split; [reflexivity|constructor].
Qed.

Lemma trimStart_head (s : str) (c : code_unit) (r : str) :
  trimStart s = c :: r -> is_white_space c = false.
Proof.
  induction s as [|d s IH]; simpl; [discriminate|].
  destruct (is_white_space d) eqn:Hd; [exact IH|]. now intros [= <- _].
Qed.

Lemma blank_rev (s : str) : blank s -> blank (rev s).
Proof. unfold blank. rewrite !Forall_forall. intros H c Hc. apply H, in_rev, Hc. Qed.

Lemma trimEnd_blank (s post : str) : blank post -> trimEnd (s ++ post)%list = trimEnd s.
Proof.
  intros H. unfold trimEnd. rewrite rev_app_distr, trimStart_blank; trivial.
  now apply blank_rev.
Qed.

Lemma trimEnd_split (s : str) :
  exists post, s = (trimEnd s ++ post)%list /\ blank post.
Proof.
  unfold trimEnd. destruct (trimStart_split (rev s)) as (pre & E & B).
  exists (rev pre). split; [|now apply blank_rev].
  rewrite <- rev_app_distr, <- E. now rewrite rev_involutive.
Qed.

Lemma trimEnd_nil_blank (s : str) : trimEnd s = [] -> blank s.
Proof.
  intros H. destruct (trimEnd_split s) as (post & E & B). rewrite H in E.
  simpl in E. now subst.
Qed.

Lemma trimStart_nil_blank (s : str) : trimStart s = [] -> blank s.
Proof.
  intros H. destruct (trimStart_split s) as (pre & E & B). rewrite H in E.
  rewrite app_nil_r in E. now subst.
Qed.

Lemma blank_trimStart (s : str) : blank s -> trimStart s = [].
Proof. induction 1 as [|c s Hc _ IH]; simpl; [reflexivity|]. now rewrite Hc. Qed.

Lemma trimStart_app (s post : str) :
  trimStart s <> [] -> trimStart (s ++ post)%list = (trimStart s ++ post)%list.
Proof.
  induction s as [|c s IH]; simpl; [intros H; now elim H|].
  destruct (is_white_space c); [exact IH|reflexivity].
Qed.

Lemma trim_padding (pre s post : str) :
  blank pre -> blank post -> trim (pre ++ s ++ post)%list = trim s.
Proof.
  intros Hpre Hpost. unfold trim. rewrite trimStart_blank by trivial.
  destruct (trimStart s) as [|c r] eqn:E.
  - rewrite blank_trimStart; [reflexivity|].
    apply Forall_app. split; [now apply trimStart_nil_blank|trivial].
  - rewrite trimStart_app, E by (rewrite E; discriminate).
    now apply trimEnd_blank.
Qed.

Lemma trim_split (s : str) :
  exists pre post, s = (pre ++ trim s ++ post)%list /\ blank pre /\ blank post.
Proof.
  destruct (trimStart_split s) as (pre & E1 & B1).
  destruct (trimEnd_split (trimStart s)) as (post & E2 & B2).
  exists pre, post. unfold trim. rewrite <- E2. tauto.
Qed.

Lemma trim_ends (s : str) (c : code_unit) :
  (hd_error (trim s) = Some c \/ hd_error (rev (trim s)) = Some c) ->
  is_white_space c = false.
Proof.
  unfold trim. intros [H|H].
  - assert (F : trimStart (trimEnd (trimStart s)) = trimEnd (trimStart s))
      by apply StringFacts.trimStart_trimEnd_fixed, StringFacts.trimStart_idempotent.
    destruct (trimEnd (trimStart s)) as [|d r] eqn:E; [discriminate|].
    injection H as ->. now apply (trimStart_head _ _ _ F).
  - unfold trimEnd in H. rewrite rev_involutive in H.
    destruct (trimStart (rev (trimStart s))) as [|d r] eqn:E; [discriminate|].
    injection H as ->. now apply (trimStart_head _ _ _ E).
Qed.

End TrimFacts.

Module Normalization.
Import JS Eff Http Login.

(** X10: [trim] removes a run of white space from each end and nothing
    else: the string is its trimmed form between two runs of white-space
    characters, the trimmed form neither starts nor ends with one, and
    trimming again changes nothing. *)
Theorem trim_strips_white_space (s : str) :
  (exists pre post,
      s = (pre ++ trim s ++ post)%list
      /\ Forall (fun c => is_white_space c = true) pre
      /\ Forall (fun c => is_white_space c = true) post)
  /\ (forall c, hd_error (trim s) = Some c -> is_white_space c = false)
  /\ (forall c, hd_error (rev (trim s)) = Some c -> is_white_space c = false)
  /\ trim (trim s) = trim s.
Proof.
  split; [apply TrimFacts.trim_split|].
  split; [intros c H; apply (TrimFacts.trim_ends s); now left|].
  split; [intros c H; apply (TrimFacts.trim_ends s); now right|].
  apply StringFacts.trim_idempotent.
Qed.

(** X11: white space of any kind around a submitted email is ignored by
    the login handler: the padded email and the bare one get the same
    run, response and calls alike. *)
Theorem login_ignores_padding (w : world) (pw : value) (pre e post : str)
  (Hpre : Forall (fun c => is_white_space c = true) pre)
  (Hpost : Forall (fun c => is_white_space c = true) post)
  (Hne : e <> []) :
  login w (pre ++ e ++ post)%list pw = login w e pw.
Proof.
  apply LoginSpec.login_depends_on_normalized; trivial.
  - destruct pre; [destruct e; [contradiction|discriminate]|discriminate].
  - unfold normalize. now rewrite TrimFacts.trim_padding.
Qed.

Lemma login_ignores_padding_witness :
  login (Examples.login_world (Threw (Failure "unused")))
        ([0xA0%N] ++ lit " Alice@Example.COM" ++ [0x3000%N; 0xFEFF%N])%list
        (VStr (lit "secret"))
  = login (Examples.login_world (Threw (Failure "unused")))
          (lit "Alice@Example.COM") (VStr (lit "secret")).
Proof.
  apply (login_ignores_padding
           (Examples.login_world (Threw (Failure "unused")))
           (VStr (lit "secret"))
           [0xA0%N; 0x20%N] (lit "Alice@Example.COM") [0x3000%N; 0xFEFF%N]).
  - repeat constructor.
  - repeat constructor.
  - discriminate.
Defined.

End Normalization.

(** * URIs: the seeding script and [lib/mongodb.ts] *)
Module SplitFacts.
Import JS.

Lemma split_not_nil (c : code_unit) (s : str) : split c s <> [].
Proof.
  induction s as [|a s IH]; simpl; [discriminate|].
  destruct (N.eqb a c); [discriminate|].
  destruct (split c s); [contradiction|discriminate].
Qed.

Lemma split_pieces (c : code_unit) (s x : str) : In x (split c s) -> ~ In c x.
Proof.
  revert x. induction s as [|a s IH]; simpl; intros x.
  - intros [<-|[]] [].
  - destruct (N.eqb_spec a c) as [->|Hne].
    + intros [<-|H]; [intros []|now apply IH].
    + destruct (split c s) as [|first others] eqn:E.
      * intros [<-|[]] [H|[]]; congruence.
      * intros [<-|H].
        -- intros [H|H]; [congruence|]. apply (IH first); [now left|exact H].
        -- apply IH. now right.
Qed.

Lemma split_none (c : code_unit) (s : str) : ~ In c s -> split c s = [s].
Proof.
  induction s as [|a s IH]; simpl; [reflexivity|]. intros H.
  destruct (N.eqb_spec a c) as [->|Hne]; [elim H; now left|].
  rewrite IH; [reflexivity|]. intros Hin. apply H. now right.
Qed.

Lemma split_first (c : code_unit) (a b : str) :
  ~ In c a -> split c (a ++ c :: b)%list = a :: split c b.
Proof.
  induction a as [|x a IH]; simpl; intros H.
  - now rewrite N.eqb_refl.
  - destruct (N.eqb_spec x c) as [->|Hne]; [elim H; now left|].
    rewrite IH; [reflexivity|]. intros Hin. apply H. now right.
Qed.

Lemma split_hd_prefix (c : code_unit) (s : str) :
  exists rest, s = (hd [] (split c s) ++ rest)%list.
Proof.
  induction s as [|a s (rest & IH)]; simpl.
  - now exists [].
  - destruct (N.eqb a c); [now exists (a :: s)|].
    destruct (split c s) as [|first others] eqn:E; simpl in *.
    + exists s. reflexivity.
    + exists rest. now rewrite IH at 1.
Qed.

Lemma starts_with_app (p s : str) : starts_with p (p ++ s)%list = true.
Proof.
  induction p as [|x p IH]; simpl; [reflexivity|]. now rewrite N.eqb_refl, IH.
Qed.

End SplitFacts.

Module SeedEnvironment.
Import JS Num Seed.


(** X13: a database name read from a URI is never empty and holds neither
    a slash nor a question mark. *)
Theorem db_name_has_no_separator (uri db : str) :
  getDbNameFromUri uri = Some db ->
  db <> [] /\ ~ In (unit_of "/") db /\ ~ In (unit_of "?") db.
Proof.
  unfold getDbNameFromUri.
  destruct (nth_error (split (unit_of "/") (strip_protocol uri)) 1) as [p|] eqn:Ep;
    [|simpl; discriminate].
  destruct (SplitFacts.split_hd_prefix (unit_of "?") p) as (rest & Hp).
  assert (Hin : In (hd [] (split (unit_of "?") p)) (split (unit_of "?") p)).
  { destruct (split (unit_of "?") p) eqn:E;
      [now elim (SplitFacts.split_not_nil (unit_of "?") p)|now left]. }
  destruct (hd [] (split (unit_of "?") p)) as [|c first] eqn:E; [discriminate|].
  intros [= <-]. split; [discriminate|]. split.
  - intros H.
    apply (SplitFacts.split_pieces (unit_of "/") (strip_protocol uri) p);
      [now apply nth_error_In in Ep|].
    rewrite Hp. apply in_app_iff. now left.
  - now apply (SplitFacts.split_pieces (unit_of "?") p).
Qed.

Lemma db_name_has_no_separator_witness :
  lit "oceanova" <> []
  /\ ~ In (unit_of "/") (lit "oceanova") /\ ~ In (unit_of "?") (lit "oceanova").
Proof.
  apply (db_name_has_no_separator
           (lit "mongodb+srv://user:pw@cluster0.example.net/oceanova?retryWrites=true")
           (lit "oceanova")).
  reflexivity.
Defined.

Lemma db_name_of_uri (proto host db tail : str) :
  proto = lit "mongodb://" \/ proto = lit "mongodb+srv://" ->
  ~ In (unit_of "/") host ->
  db <> [] -> ~ In (unit_of "/") db -> ~ In (unit_of "?") db ->
  tail = [] \/ (exists q, tail = unit_of "?" :: q /\ ~ In (unit_of "/") q) ->
  getDbNameFromUri (proto ++ host ++ unit_of "/" :: db ++ tail)%list = Some db.
Proof.
  intros Hproto Hhost Hdb Hslash Hq Htail. unfold getDbNameFromUri.
  assert (Hstrip : strip_protocol (proto ++ host ++ unit_of "/" :: db ++ tail)%list
                   = (host ++ unit_of "/" :: db ++ tail)%list).
  { destruct Hproto as [-> | ->]; reflexivity. }
  rewrite Hstrip. rewrite (SplitFacts.split_first _ _ _ Hhost).
  cbn [nth_error].
  destruct Htail as [-> | (q & -> & Hnq)].
  - rewrite app_nil_r. rewrite (SplitFacts.split_none _ _ Hslash). cbn [nth_error].
    rewrite (SplitFacts.split_none _ _ Hq). cbn [hd].
    destruct db; [contradiction|reflexivity].
  - assert (Hnone : ~ In (unit_of "/") (db ++ unit_of "?" :: q)%list).
    { rewrite in_app_iff. cbn [In]. intros [H|[H|H]]; try contradiction.
      vm_compute in H. discriminate H. }
    rewrite (SplitFacts.split_none _ _ Hnone). cbn [nth_error].
    rewrite (SplitFacts.split_first _ _ _ Hq). cbn [hd].
    destruct db; [contradiction|reflexivity].
Qed.

(** X14: from a URI made of the [mongodb://] or [mongodb+srv://] scheme, a
    host, a slash, a database name and, possibly, a query, the database
    name is read back; from a URI without a path no name is read. *)
Theorem db_name_is_read_back (proto host db tail : str)
  (Hproto : proto = lit "mongodb://" \/ proto = lit "mongodb+srv://")
  (Hhost : ~ In (unit_of "/") host)
  (Hdb : db <> [])
  (Hslash : ~ In (unit_of "/") db) (Hq : ~ In (unit_of "?") db)
  (Htail : tail = [] \/ (exists q, tail = unit_of "?" :: q /\ ~ In (unit_of "/") q)) :
  getDbNameFromUri (proto ++ host ++ unit_of "/" :: db ++ tail)%list = Some db
  /\ getDbNameFromUri (proto ++ host)%list = None.
Proof.
  split; [now apply db_name_of_uri|].
  unfold getDbNameFromUri.
  assert (Hstrip : strip_protocol (proto ++ host)%list = host).
  { destruct Hproto as [-> | ->]; reflexivity. }
  rewrite Hstrip. rewrite (SplitFacts.split_none _ _ Hhost). reflexivity.
Qed.

Lemma db_name_is_read_back_witness :
  getDbNameFromUri (lit "mongodb://localhost:27017/oceanova?retryWrites=true")
  = Some (lit "oceanova")
  /\ getDbNameFromUri (lit "mongodb://localhost:27017") = None.
Proof.
  apply (db_name_is_read_back (lit "mongodb://") (lit "localhost:27017")
           (lit "oceanova") (lit "?retryWrites=true")).
  - now left.
  - vm_compute. intuition discriminate.
  - discriminate.
  - vm_compute. intuition discriminate.
  - vm_compute. intuition discriminate.
  - right. exists (lit "retryWrites=true"). split; [reflexivity|].
    vm_compute. intuition discriminate.
Defined.

End SeedEnvironment.

Module IndexFacts.
Import JS.

Lemma index_of_none (c : code_unit) (s : str) : ~ In c s -> index_of c s = None.
Proof.
  induction s as [|a s IH]; simpl; [reflexivity|]. intros H.
  destruct (N.eqb_spec a c) as [->|_]; [elim H; now left|].
  rewrite IH; [reflexivity|]. intros Hin. apply H. now right.
Qed.

Lemma index_of_first (c : code_unit) (a b : str) :
  ~ In c a -> index_of c (a ++ c :: b)%list = Some (List.length a).
Proof.
  induction a as [|x a IH]; simpl; intros H.
  - now rewrite N.eqb_refl.
  - destruct (N.eqb_spec x c) as [->|_]; [elim H; now left|].
    rewrite IH; [reflexivity|]. intros Hin. apply H. now right.
Qed.

Lemma index_of_some (c : code_unit) (s : str) (i : nat) :
  index_of c s = Some i ->
  s = (firstn i s ++ c :: skipn (S i) s)%list /\ ~ In c (firstn i s).
Proof.
  revert i. induction s as [|a s IH]; simpl; intros i; [discriminate|].
  destruct (N.eqb_spec a c) as [->|Hne].
  - intros [= <-]. simpl. split; [reflexivity|tauto].
  - destruct (index_of c s) as [j|]; [|discriminate]. simpl.
    intros [= <-]. destruct (IH j eq_refl) as [E H]. split.
    + change (a :: s = a :: (firstn j s ++ c :: skipn (S j) s)%list).
      now f_equal.
    + cbn [firstn In]. intros [Hin|Hin]; [congruence|contradiction].
Qed.

Lemma firstn_length_app (a b : str) : firstn (List.length a) (a ++ b)%list = a.
Proof.
  rewrite firstn_app, Nat.sub_diag, firstn_all. simpl. apply app_nil_r.
Qed.

Lemma skipn_length_app (a b : str) : skipn (List.length a) (a ++ b)%list = b.
Proof.
  rewrite skipn_app, Nat.sub_diag, skipn_all. reflexivity.
Qed.

Lemma join_split (c : code_unit) (s : str) : join c (split c s) = s.
Proof.
  induction s as [|a s IH]; simpl; [reflexivity|].
  destruct (N.eqb_spec a c) as [->|_].
  - pose proof (SplitFacts.split_not_nil c s) as Hne.
    destruct (split c s) as [|x l]; [contradiction|]. simpl in *. now rewrite IH.
  - destruct (split c s) as [|first others] eqn:E.
    + now elim (SplitFacts.split_not_nil c s).
    + destruct others; simpl in *; now rewrite <- IH.
Qed.

Lemma split_join (c : code_unit) (l : list str) :
  l <> [] -> (forall x, In x l -> ~ In c x) -> split c (join c l) = l.
Proof.
  induction l as [|x l IH]; [intros H; now elim H|]. intros _ Hall.
  destruct l as [|y l].
  - simpl. apply SplitFacts.split_none. apply Hall. now left.
  - change (join c (x :: y :: l)) with (x ++ c :: join c (y :: l))%list.
    rewrite SplitFacts.split_first by (apply Hall; now left).
    rewrite IH; [reflexivity|discriminate|].
    intros z Hz. apply Hall. now right.
Qed.

End IndexFacts.

Module MongoSpec.
Import JS Mongo.

Lemma protocol_length_app (proto rest : str) :
  proto = lit "mongodb://" \/ proto = lit "mongodb+srv://" ->
  protocol_length (proto ++ rest)%list = Some (List.length proto).
Proof. intros [-> | ->]; reflexivity. Qed.

Lemma starts_with_firstn (p s : str) (i : nat) :
  starts_with p (firstn i s) = true -> starts_with p s = true.
Proof.
  revert s i. induction p as [|x p IH]; intros s i; [reflexivity|].
  destruct i as [|i], s as [|y s]; simpl; try discriminate.
  rewrite !andb_true_iff. intros [H1 H2]. split; [exact H1|]. now apply (IH s i).
Qed.

Lemma ensure_appends (proto host query db : str) :
  proto = lit "mongodb://" \/ proto = lit "mongodb+srv://" ->
  ~ In (unit_of "/") host -> ~ In (unit_of "?") host ->
  query = [] \/ (exists q, query = unit_of "?" :: q) ->
  db <> [] ->
  ensureDbInUri (proto ++ host ++ query)%list (Some db)
  = (proto ++ host ++ unit_of "/" :: db ++ query)%list.
Proof.
  intros Hproto Hslash Hq Hquery Hdb.
  assert (Hp : ~ In (unit_of "?") proto).
  { destruct Hproto as [-> | ->]; vm_compute; intuition discriminate. }
  assert (Hbase : ~ In (unit_of "?") (proto ++ host)%list).
  { rewrite in_app_iff. tauto. }
  unfold ensureDbInUri. destruct db as [|d db]; [contradiction|].
  assert (Hparts :
    match index_of (unit_of "?") (proto ++ host ++ query)%list with
    | None => (proto ++ host ++ query)%list
    | Some i => firstn i (proto ++ host ++ query)%list
    end = (proto ++ host)%list
    /\ match index_of (unit_of "?") (proto ++ host ++ query)%list with
       | None => []
       | Some i => skipn i (proto ++ host ++ query)%list
       end = query).
  { destruct Hquery as [-> | (q & ->)].
    - rewrite app_nil_r, (IndexFacts.index_of_none _ _ Hbase). now split.
    - rewrite app_assoc, (IndexFacts.index_of_first _ _ _ Hbase).
      now rewrite IndexFacts.firstn_length_app, IndexFacts.skipn_length_app. }
  destruct Hparts as [-> ->].
  rewrite (protocol_length_app _ _ Hproto).
  rewrite IndexFacts.firstn_length_app, IndexFacts.skipn_length_app.
  now rewrite (IndexFacts.index_of_none _ _ Hslash).
Qed.

(** X15: [ensureDbInUri] leaves the URI as it is when no database name is
    given or when the URI does not start with a MongoDB scheme; into a
    URI of a scheme, a host and possibly a query it puts the name after
    the host, before the query. *)
Theorem ensureDbInUri_adds_the_name (uri proto host query db : str)
  (Hproto : proto = lit "mongodb://" \/ proto = lit "mongodb+srv://")
  (Hslash : ~ In (unit_of "/") host) (Hq : ~ In (unit_of "?") host)
  (Hquery : query = [] \/ (exists q, query = unit_of "?" :: q))
  (Hdb : db <> []) :
  ensureDbInUri uri None = uri
  /\ ensureDbInUri uri (Some []) = uri
  /\ ensureDbInUri (proto ++ host ++ query)%list (Some db)
     = (proto ++ host ++ unit_of "/" :: db ++ query)%list
  /\ (starts_with (lit "mongodb://") uri = false ->
      starts_with (lit "mongodb+srv://") uri = false ->
      ensureDbInUri uri (Some db) = uri).
Proof.
  split; [reflexivity|]. split; [reflexivity|].
  split; [now apply ensure_appends|].
  intros H1 H2. unfold ensureDbInUri. destruct db; [reflexivity|].
  cbv zeta.
  match goal with
  | [ |- context [protocol_length ?b] ] =>
      assert (E : protocol_length b = None); [|now rewrite E]
  end.
  unfold protocol_length.
  destruct (index_of (unit_of "?") uri) as [i|]; [|now rewrite H2, H1].
  destruct (starts_with (lit "mongodb+srv://") (firstn i uri)) eqn:E2;
    [apply starts_with_firstn in E2; congruence|].
  destruct (starts_with (lit "mongodb://") (firstn i uri)) eqn:E1;
    [apply starts_with_firstn in E1; congruence|reflexivity].
Qed.

Lemma ensureDbInUri_adds_the_name_witness :
  ensureDbInUri (lit "localhost:27017") None = lit "localhost:27017"
  /\ ensureDbInUri (lit "localhost:27017") (Some []) = lit "localhost:27017"
  /\ ensureDbInUri (lit "mongodb://" ++ lit "localhost:27017" ++ lit "?tls=true")%list
                   (Some (lit "oceanova"))
     = (lit "mongodb://" ++ lit "localhost:27017"
          ++ unit_of "/" :: lit "oceanova" ++ lit "?tls=true")%list
  /\ (starts_with (lit "mongodb://") (lit "localhost:27017") = false ->
      starts_with (lit "mongodb+srv://") (lit "localhost:27017") = false ->
      ensureDbInUri (lit "localhost:27017") (Some (lit "oceanova"))
      = lit "localhost:27017").
Proof.
  apply (ensureDbInUri_adds_the_name (lit "localhost:27017") (lit "mongodb://")
           (lit "localhost:27017") (lit "?tls=true") (lit "oceanova")).
  - now left.
  - vm_compute. intuition discriminate.
  - vm_compute. intuition discriminate.
  - right. now exists (lit "tls=true").
  - discriminate.
Defined.

(** X16: the name that [ensureDbInUri] puts into a URI without one is the
    name the seeding script reads from the result, so that the
    application and the script use the same database. *)
Theorem ensureDbInUri_agrees_with_the_seed_script (proto host query db : str)
  (Hproto : proto = lit "mongodb://" \/ proto = lit "mongodb+srv://")
  (Hslash : ~ In (unit_of "/") host) (Hq : ~ In (unit_of "?") host)
  (Hquery : query = [] \/ (exists q, query = unit_of "?" :: q
                                     /\ ~ In (unit_of "/") q))
  (Hdb : db <> [])
  (Hdb_slash : ~ In (unit_of "/") db) (Hdb_q : ~ In (unit_of "?") db) :
  Seed.getDbNameFromUri (ensureDbInUri (proto ++ host ++ query)%list (Some db))
  = Some db.
Proof.
  rewrite ensure_appends; trivial.
  - now apply SeedEnvironment.db_name_of_uri.
  - destruct Hquery as [-> | (q & -> & _)]; [now left|right; now exists q].
Qed.

Lemma ensureDbInUri_agrees_with_the_seed_script_witness :
  Seed.getDbNameFromUri
    (ensureDbInUri (lit "mongodb+srv://" ++ lit "cluster0.example.net"
                      ++ lit "?retryWrites=true")%list
       (Some (lit "oceanova")))
  = Some (lit "oceanova").
Proof.
  apply (ensureDbInUri_agrees_with_the_seed_script
           (lit "mongodb+srv://") (lit "cluster0.example.net")
           (lit "?retryWrites=true") (lit "oceanova")).
  - now right.
  - vm_compute. intuition discriminate.
  - vm_compute. intuition discriminate.
  - right. exists (lit "retryWrites=true"). split; [reflexivity|].
    vm_compute. intuition discriminate.
  - discriminate.
  - vm_compute. intuition discriminate.
  - vm_compute. intuition discriminate.
Defined.

End MongoSpec.

Module MongoOptions.
Import JS Mongo.

Section Strip.

Variable lower : str -> str.

Lemma strip_without_query (uri : str) :
  ~ In (unit_of "?") uri -> stripUnsupportedMongoOptions lower uri = uri.
Proof.
  intros H. unfold stripUnsupportedMongoOptions.
  now rewrite (IndexFacts.index_of_none _ _ H).
Qed.

Lemma strip_with_query (base query : str) :
  ~ In (unit_of "?") base ->
  stripUnsupportedMongoOptions lower (base ++ unit_of "?" :: query)%list
  = match filter (fun p => negb (unsupported (key_of lower p)))
                 (split (unit_of "&") query) with
    | [] => base
    | p :: keep => (base ++ unit_of "?" :: join (unit_of "&") (p :: keep))%list
    end.
Proof.
  intros H. unfold stripUnsupportedMongoOptions.
  rewrite (IndexFacts.index_of_first _ _ _ H).
  rewrite IndexFacts.firstn_length_app.
  change (S (List.length base)) with (1 + List.length base)%nat.
  rewrite <- skipn_skipn, IndexFacts.skipn_length_app.
  change (skipn 1 (unit_of "?" :: query)) with query.
  now destruct (filter (fun p => negb (unsupported (key_of lower p)))
                       (split (unit_of "&") query)).
Qed.

Lemma filter_fixed (A : Type) (f : A -> bool) (l : list A) :
  filter f (filter f l) = filter f l.
Proof.
  induction l as [|x l IH]; simpl; [reflexivity|].
  destruct (f x) eqn:E; simpl; [now rewrite E, IH|exact IH].
Qed.

Lemma strip_fixed (uri : str) :
  stripUnsupportedMongoOptions lower (stripUnsupportedMongoOptions lower uri)
  = stripUnsupportedMongoOptions lower uri.
Proof.
  destruct (index_of (unit_of "?") uri) as [i|] eqn:E.
  - apply IndexFacts.index_of_some in E as [E Hbase].
    remember (firstn i uri) as base eqn:Eb.
    remember (skipn (S i) uri) as query eqn:Eq.
    clear Eb Eq. subst uri. rewrite (strip_with_query _ _ Hbase).
    destruct (filter (fun p => negb (unsupported (key_of lower p)))
                     (split (unit_of "&") query))
      as [|p keep] eqn:Ekeep.
    + now apply strip_without_query.
    + rewrite (strip_with_query _ _ Hbase).
      rewrite IndexFacts.split_join.
      * rewrite <- Ekeep, filter_fixed, Ekeep. reflexivity.
      * discriminate.
      * intros x Hx. rewrite <- Ekeep in Hx. apply filter_In in Hx as [Hx _].
        now apply (SplitFacts.split_pieces _ _ _ Hx).
  - unfold stripUnsupportedMongoOptions at 2. rewrite E.
    unfold stripUnsupportedMongoOptions. now rewrite E.
Qed.

End Strip.

(** X17: [stripUnsupportedMongoOptions] leaves a URI without a query as
    it is; of a query it keeps, in order, the parameters whose key is not
    one of the three unsupported ones, and it drops the question mark when
    none is left; cleaning a cleaned URI changes nothing. *)
Theorem strip_keeps_supported_options (lower : str -> str) (uri base query : str)
  (Hbase : ~ In (unit_of "?") base) :
  (~ In (unit_of "?") uri -> stripUnsupportedMongoOptions lower uri = uri)
  /\ stripUnsupportedMongoOptions lower (base ++ unit_of "?" :: query)%list
     = match filter (fun p => negb (unsupported (key_of lower p)))
                    (split (unit_of "&") query) with
       | [] => base
       | p :: keep => (base ++ unit_of "?" :: join (unit_of "&") (p :: keep))%list
       end
  /\ stripUnsupportedMongoOptions lower (stripUnsupportedMongoOptions lower uri)
     = stripUnsupportedMongoOptions lower uri.
Proof.
  split; [apply strip_without_query|].
  split; [now apply strip_with_query|apply strip_fixed].
Qed.

Lemma strip_keeps_supported_options_witness :
  stripUnsupportedMongoOptions Examples.latin_lowercase
    (lit "mongodb://localhost/oceanova"
       ++ unit_of "?" :: lit "tlsMinVersion=TLS1.2&retryWrites=true")%list
  = lit "mongodb://localhost/oceanova?retryWrites=true".
Proof.
  destruct (strip_keeps_supported_options Examples.latin_lowercase
              (lit "mongodb://localhost/oceanova")
              (lit "mongodb://localhost/oceanova")
              (lit "tlsMinVersion=TLS1.2&retryWrites=true"))
    as (_ & H & _).
  - vm_compute. intuition discriminate.
  - rewrite H. reflexivity.
Defined.

(** X18: [connectDB] connects once: on an empty cache it sets
    [strictQuery], connects to the cleaned URI and, when that succeeds,
    keeps the connection, so that a later call returns at once without
    calling mongoose; when connecting fails the error is logged and thrown
    again and the cache is left empty, so that a later call tries again. *)
Theorem connectDB_caches_the_connection (w : world) :
  (mongoose_connect w = Returned tt ->
   exists cached,
     connectDB w {| conn := false; promise := None |}
     = (Returned tt, cached,
        [SetStrictQuery; MongooseConnect (CLEANED_MONGODB_URI w); LogConnected])
     /\ connectDB w cached = (Returned tt, cached, []))
  /\ (forall e,
        mongoose_connect w = Threw e ->
        connectDB w {| conn := false; promise := None |}
        = (Threw e, {| conn := false; promise := None |},
           [SetStrictQuery; MongooseConnect (CLEANED_MONGODB_URI w);
            LogConnectionError e])).
Proof.
  unfold connectDB. simpl. split.
  - intros ->. eexists. split; reflexivity.
  - intros e ->. reflexivity.
Qed.


End MongoOptions.

(** * Ways out of the seeding script *)
Module SeedRunEdges.
Import JS Num Seed Rounding RoundingFacts SeedSpec SeedRunSpec.
Local Open Scope Z_scope.
Local Open Scope string_scope.

(** X20: without [MONGODB_URI], or without a database name in it or in
    [MONGODB_DB], the script logs what is missing and exits with code 1;
    no client is created and nothing is generated. *)
Theorem main_needs_configuration (w : world) :
  (getEnv (env w) "MONGODB_URI" None = None ->
   main w = {| ended := Exited 1; exitCode := None;
               events := [ConsoleError "MONGODB_URI is required" None] |})
  /\ (forall uri,
        getEnv (env w) "MONGODB_URI" None = Some uri ->
        getDbNameFromUri uri = None ->
        getEnv (env w) "MONGODB_DB" None = None ->
        ended (main w) = Exited 1
        /\ exists msg, events (main w) = [ConsoleError msg None]).
Proof.
  unfold main. split.
  - intros ->. reflexivity.
  - intros uri -> -> ->. split; [reflexivity|]. eexists. reflexivity.
Qed.

(** X21: once the client is created, it is closed exactly once, as the
    last thing the script does, whether the seeding succeeded or failed;
    the exit code is set to 1 exactly when the seeding failed. *)
Theorem main_always_closes (w : world) (uri db : str)
  (Huri : getEnv (env w) "MONGODB_URI" None = Some uri)
  (Hdb : match getDbNameFromUri uri with
         | Some name => Some name
         | None => getEnv (env w) "MONGODB_DB" None
         end = Some db)
  (Hclient : newMongoClient w = Returned tt) :
  exists t,
    events (main w) = (t ++ [Close])%list
    /\ ~ In Close t
    /\ (exitCode (main w) = Some 1
        <-> exists e t', attempt w db [NewMongoClient uri] = (Threw e, t')).
Proof.
  unfold main. rewrite Huri, Hdb, Hclient.
  assert (Hattempt : forall o t', attempt w db [NewMongoClient uri] = (o, t') ->
                                  ~ In Close t').
  { unfold attempt. intros o t'.
    destruct (connect w); [|intros [= <- <-]; simpl; intuition discriminate].
    destruct (createIndexes w); [|intros [= <- <-]; simpl; intuition discriminate].
    destruct (generate (random w) (now w) (toFixed1 w) 0%nat) as [[docs|e] n];
      [|intros [= <- <-]; simpl; intuition discriminate].
    destruct (insertMany w docs); intros [= <- <-]; simpl; intuition discriminate. }
  destruct (attempt w db [NewMongoClient uri]) as [[[]|e] t'] eqn:E.
  - exists t'. destruct (close w); cbn [events exitCode];
      (split; [reflexivity|]); (split; [exact (Hattempt _ _ eq_refl)|]);
      split; [discriminate | intros (? & ? & [=]) | discriminate | intros (? & ? & [=])].
  - exists (t' ++ [ConsoleError "[seed] Failed:" (Some e)])%list.
    destruct (close w); cbn [events exitCode];
      (split; [reflexivity|]);
      (split; [rewrite in_app_iff; cbn [In];
               intros [H|[H|[]]]; [exact (Hattempt _ _ eq_refl H)|discriminate H]|]);
      (split; [intros _; now exists e, t' | reflexivity]).
Qed.

Lemma main_always_closes_witness :
  exists t,
    events (main Examples.seed_world) = (t ++ [Close])%list
    /\ ~ In Close t
    /\ (exitCode (main Examples.seed_world) = Some 1
        <-> exists e t',
              attempt Examples.seed_world (lit "oceanova")
                [NewMongoClient (lit "mongodb://localhost:27017/oceanova")]
              = (Threw e, t')).
Proof.
  apply (main_always_closes Examples.seed_world
           (lit "mongodb://localhost:27017/oceanova") (lit "oceanova"));
    reflexivity.
Defined.

(** X22: when connecting fails, nothing is generated or inserted: the
    error is logged, the exit code is set to 1 and the client is closed. *)
Theorem main_connection_failure (w : world) (uri db : str) (e : exn)
  (Huri : getEnv (env w) "MONGODB_URI" None = Some uri)
  (Hdb : match getDbNameFromUri uri with
         | Some name => Some name
         | None => getEnv (env w) "MONGODB_DB" None
         end = Some db)
  (Hclient : newMongoClient w = Returned tt)
  (Hconnect : connect w = Threw e) :
  events (main w) =
    [ NewMongoClient uri; ConsoleLog "[seed] Connecting to MongoDB..."; Connect;
      ConsoleError "[seed] Failed:" (Some e); Close ]
  /\ exitCode (main w) = Some 1.
Proof.
  unfold main. rewrite Huri, Hdb, Hclient. unfold attempt. rewrite Hconnect.
  destruct (close w); split; reflexivity.
Qed.

Lemma main_connection_failure_witness :
  events (main
            {| env := env Examples.seed_world;
               random := random Examples.seed_world;
               now := now Examples.seed_world;
               toFixed1 := toFixed1 Examples.seed_world;
               show_count := show_count Examples.seed_world;
               newMongoClient := Returned tt;
               connect := Threw (Failure "ECONNREFUSED");
               createIndexes := Returned tt;
               insertMany := insertMany Examples.seed_world;
               close := Returned tt |}) =
    [ NewMongoClient (lit "mongodb://localhost:27017/oceanova");
      ConsoleLog "[seed] Connecting to MongoDB..."; Connect;
      ConsoleError "[seed] Failed:" (Some (Failure "ECONNREFUSED")); Close ]
  /\ exitCode (main
                 {| env := env Examples.seed_world;
                    random := random Examples.seed_world;
                    now := now Examples.seed_world;
                    toFixed1 := toFixed1 Examples.seed_world;
                    show_count := show_count Examples.seed_world;
                    newMongoClient := Returned tt;
                    connect := Threw (Failure "ECONNREFUSED");
                    createIndexes := Returned tt;
                    insertMany := insertMany Examples.seed_world;
                    close := Returned tt |}) = Some 1.
Proof.
  apply (main_connection_failure _ (lit "mongodb://localhost:27017/oceanova")
           (lit "oceanova") (Failure "ECONNREFUSED")); reflexivity.
Defined.

(** X23: the threat level is one of the four of the script, whatever the
    water quality; a water quality that is not a number is "critical". *)
Theorem pickThreat_is_total (wq : num) :
  In (pickThreatByWaterQuality wq) ["low"; "medium"; "high"; "critical"]
  /\ (is_nan wq = true -> pickThreatByWaterQuality wq = "critical").
Proof.
  unfold pickThreatByWaterQuality. split.
  - destruct (ge wq (dyadic 15 (-1))), (ge wq (dyadic 11 (-1))),
      (ge wq (dyadic 7 (-1))); simpl; tauto.
  - destruct wq; try discriminate. reflexivity.
Qed.

End SeedRunEdges.

(** * The other fields of a document *)
Module SeedFields.
Import JS Num Seed Rounding RoundingFacts SeedSpec SeedRunSpec.
Local Open Scope Z_scope.
Local Open Scope string_scope.

Lemma lookup_profile_in (table : list (string * profile)) (name : string)
  (prof : profile) :
  lookup_profile table name = Some prof -> In (name, prof) table.
Proof.
  induction table as [|[k p] rest IH]; simpl; [discriminate|].
  destruct (String.eqb_spec k name) as [->|_].
  - intros [= ->]. now left.
  - intros H. right. now apply IH.
Qed.

Section Fields.

Variable random : nat -> num.
Variable now : num.
Variable toFixed1 : num -> string.
Hypothesis Hrandom : forall k, unit_interval (random k) = true.

Lemma iteration_fields (n n' : nat) (d : observation) :
  iteration random now toFixed1 n = (Returned d, n') ->
  conservationStatus d = index statuses (floor (mul (random (n + 2)) (of_Z 5)))
  /\ depth d
     = floor (add (mul (random (n + 9)) (sub (of_Z 3500) (of_Z 10))) (of_Z 10))
  /\ exists name prof,
       region d = Some name
       /\ lookup_profile regionProfiles name = Some prof
       /\ temperature d
          = div (round (mul (add (mul (random (n + 4))
                                      (sub (snd (temp prof)) (fst (temp prof))))
                                 (fst (temp prof))) (of_Z 10))) (of_Z 10)
       /\ location d
          = toUpperCase name ++ " " ++ toFixed1 (abs (fst (coordinates d)))
              ++ "/" ++ toFixed1 (abs (snd (coordinates d))).
Proof.
  cbv beta iota zeta
    delta [iteration rbind randomChoice randomInRange Math_random rret rthrow].
  replace (Z.of_nat (List.length regions)) with 4%Z by reflexivity.
  replace (Z.of_nat (List.length statuses)) with 5%Z by reflexivity.
  destruct (index regions (floor (mul (random n) (of_Z 4)))) as [name|] eqn:Hregion.
  - destruct (lookup_profile regionProfiles name) as [prof|] eqn:Hprof.
    + cbv beta iota zeta. intros [= <- <-].
      cbn [conservationStatus depth region temperature location coordinates].
      rewrite ?Nat.add_succ_r, ?Nat.add_0_r.
      split; [reflexivity|]. split; [reflexivity|].
      exists name, prof. repeat split; trivial.
    + discriminate.
  - discriminate.
Qed.

Lemma loop_collects (P : observation -> Prop) :
  (forall n n' d, iteration random now toFixed1 n = (Returned d, n') -> P d) ->
  forall k docs n out n',
    Forall P docs ->
    loop random now toFixed1 k docs n = (Returned out, n') ->
    Forall P out.
Proof.
  intros HP. induction k as [|k IH]; simpl; intros docs n out n' Hdocs.
  - intros [= <- _]. exact Hdocs.
  - unfold rbind at 1.
    destruct (iteration random now toFixed1 n) as [[d|e] m] eqn:Hit;
      [|discriminate].
    intros Hloop. apply (IH (docs ++ [d])%list m out n'); trivial.
    apply Forall_app. split; trivial. constructor; [|constructor].
    now apply (HP n m).
Qed.

Lemma temperature_drawn (r : num) (p : num * num) :
  unit_interval r = true ->
  In p (map (fun entry => temp (snd entry)) regionProfiles) ->
  le (fst p)
     (div (round (mul (add (mul r (sub (snd p) (fst p))) (fst p)) (of_Z 10)))
          (of_Z 10)) = true
  /\ le (div (round (mul (add (mul r (sub (snd p) (fst p))) (fst p)) (of_Z 10)))
            (of_Z 10))
        (snd p) = true.
Proof.
  intros Hr H. cbn [map snd regionProfiles temp In] in H.
  repeat (destruct H as [<-|H];
          [apply draw_rounded; [exact Hr | by_computation ..]|]).
  contradiction.
Qed.

Lemma fields_bounds (n n' : nat) (d : observation) :
  iteration random now toFixed1 n = (Returned d, n') ->
  (exists s, conservationStatus d = Some s /\ In s statuses)
  /\ (le (of_Z 10) (depth d) = true /\ lt (depth d) (of_Z 3500) = true)
  /\ (exists name prof,
        region d = Some name /\ lookup_profile regionProfiles name = Some prof
        /\ le (fst (temp prof)) (temperature d) = true
        /\ le (temperature d) (snd (temp prof)) = true).
Proof.
  intros H. apply iteration_fields in H
    as (Hstatus & Hdepth & name & prof & Hname & Hprof & Htemp & _).
  split; [|split].
  - rewrite Hstatus. apply (index_in _ statuses); [apply Hrandom | by_computation].
  - rewrite Hdepth.
    destruct (draw_floored (random (n + 9)) (of_Z 10) (of_Z 3500) 10 3499 (Hrandom _))
      as (c & I & B);
      [by_computation | by_computation | by_computation | by_computation |].
    split.
    + apply (is_int_le _ _ 10 c); [apply of_Z_is_int; reflexivity|exact I|lia].
    + apply (is_int_lt _ _ c 3500); [exact I|apply of_Z_is_int; reflexivity|lia].
  - exists name, prof. split; [exact Hname|]. split; [exact Hprof|].
    rewrite Htemp. apply temperature_drawn; [apply Hrandom|].
    assert (Hin : In (name, prof) regionProfiles)
      by now apply lookup_profile_in.
    apply in_map_iff. now exists (name, prof).
Qed.

End Fields.

(** X24: in every document the script generates, the conservation status
    is one of the five of the script, the depth is at least 10 and below
    3500, and the temperature lies within the temperature range of the
    profile of the document's region. *)
Theorem seed_other_fields
  (random : nat -> num) (now : num) (toFixed1 : num -> string)
  (docs : list observation) (n n' : nat)
  (Hrandom : forall k, unit_interval (random k) = true)
  (Hrun : generate random now toFixed1 n = (Returned docs, n')) :
  Forall
    (fun d =>
       (exists s, conservationStatus d = Some s /\ In s statuses)
       /\ (le (of_Z 10) (depth d) = true /\ lt (depth d) (of_Z 3500) = true)
       /\ (exists name prof,
             region d = Some name /\ lookup_profile regionProfiles name = Some prof
             /\ le (fst (temp prof)) (temperature d) = true
             /\ le (temperature d) (snd (temp prof)) = true))
    docs.
Proof.
  unfold generate in Hrun.
  refine (loop_collects random now toFixed1 _ _ _ _ _ _ _ (Forall_nil _) Hrun).
  intros k k' d Hd. exact (fields_bounds random now toFixed1 Hrandom k k' d Hd).
Qed.

Lemma seed_other_fields_witness :
  Forall
    (fun d =>
       (exists s, conservationStatus d = Some s /\ In s statuses)
       /\ (le (of_Z 10) (depth d) = true /\ lt (depth d) (of_Z 3500) = true)
       /\ (exists name prof,
             region d = Some name /\ lookup_profile regionProfiles name = Some prof
             /\ le (fst (temp prof)) (temperature d) = true
             /\ le (temperature d) (snd (temp prof)) = true))
    Examples.sample_docs.
Proof.
  apply (seed_other_fields
           (fun _ => Examples.half) (of_Z 1700000000000) (fun _ => "0.0")
           Examples.sample_docs 0 1000).
  - intros k. reflexivity.
  - vm_compute. reflexivity.
Defined.

End SeedFields.

(** * Numbers *)
Module NumberEdges.
Import Num Rounding RoundingFacts.
Local Open Scope Z_scope.

Lemma positive_finite_shape (c : num) :
  positive_finite c = true ->
  exists m e, c = S754_finite false m e
              /\ valid_binary prec emax (S754_finite false m e) = true.
Proof.
  destruct c as [s|s| |[] m e]; try discriminate. intros H. now exists m, e.
Qed.

(** X25: multiplying by, adding and dividing by a positive finite number
    keep the order of two finite numbers, rounding included. *)
Theorem arithmetic_is_monotone (x1 x2 c : num)
  (Hx1 : good x1 = true) (Hx2 : good x2 = true)
  (Hc : positive_finite c = true)
  (Hle : le x1 x2 = true) :
  le (mul x1 c) (mul x2 c) = true
  /\ le (add x1 c) (add x2 c) = true
  /\ le (div x1 c) (div x2 c) = true.
Proof.
  apply andb_prop in Hx1 as [V1 F1], Hx2 as [V2 F2].
  destruct (positive_finite_shape c Hc) as (m & e & -> & Vc).
  unfold le in *. split; [|split].
  - now apply mul_mono.
  - now apply add_mono.
  - now apply div_mono.
Qed.

Lemma arithmetic_is_monotone_witness :
  le (mul (dyadic 1 (-1)) (of_Z 7)) (mul pred_one (of_Z 7)) = true
  /\ le (add (dyadic 1 (-1)) (of_Z 7)) (add pred_one (of_Z 7)) = true
  /\ le (div (dyadic 1 (-1)) (of_Z 7)) (div pred_one (of_Z 7)) = true.
Proof.
  apply (arithmetic_is_monotone (dyadic 1 (-1)) pred_one (of_Z 7)); reflexivity.
Defined.

(** X26: [Math.floor] and [Math.round] give integers and keep the order:
    of two finite numbers [x <= y] whose floors and roundings are below
    2^53 in size, the floors are integers [a <= b] and so are the
    roundings. *)
Theorem floor_and_round_are_monotone (x y : num)
  (Hx : good x = true) (Hy : good y = true)
  (Hle : le x y = true)
  (Hfloor : - 2 ^ 53 < Zfloor x /\ Zfloor y < 2 ^ 53)
  (Hround : - 2 ^ 53 < Zround x /\ Zround y < 2 ^ 53) :
  (exists a b, to_Z (floor x) = Some a /\ to_Z (floor y) = Some b /\ a <= b)
  /\ (exists a b, to_Z (round x) = Some a /\ to_Z (round y) = Some b /\ a <= b).
Proof.
  pose proof Hx as Gx. pose proof Hy as Gy.
  apply andb_prop in Hx as [Vx Fx], Hy as [Vy Fy].
  assert (Hfle : fle x y) by now apply SFleb_fle.
  pose proof (Zfloor_mono x y Hfle) as Mf.
  pose proof (Zround_mono x y Hfle) as Mr.
  split.
  - exists (Zfloor x), (Zfloor y). split; [|split; [|exact Mf]];
      apply to_Z_is_int, floor_is_int; trivial; lia.
  - exists (Zround x), (Zround y). split; [|split; [|exact Mr]];
      apply to_Z_is_int, round_is_int; trivial; lia.
Qed.

Lemma floor_and_round_are_monotone_witness :
  (exists a b,
      to_Z (floor (dyadic 5 (-1))) = Some a
      /\ to_Z (floor (dyadic 7 (-1))) = Some b /\ a <= b)
  /\ (exists a b,
        to_Z (round (dyadic 5 (-1))) = Some a
        /\ to_Z (round (dyadic 7 (-1))) = Some b /\ a <= b).
Proof.
  apply (floor_and_round_are_monotone (dyadic 5 (-1)) (dyadic 7 (-1)));
    try reflexivity; split; reflexivity.
Defined.

(** X27: an integer below 2^53 in size is a number of its own: the
    number of the literal denotes it exactly, and such numbers compare as
    the integers do. *)
Theorem integers_are_exact (a b : Z)
  (Ha : Z.abs a < 2 ^ 53) (Hb : Z.abs b < 2 ^ 53) :
  to_Z (of_Z a) = Some a
  /\ (le (of_Z a) (of_Z b) = true <-> a <= b)
  /\ (lt (of_Z a) (of_Z b) = true <-> a < b).
Proof.
  pose proof (of_Z_is_int a Ha) as Ia. pose proof (of_Z_is_int b Hb) as Ib.
  split; [now apply to_Z_is_int|]. split.
  - now apply is_int_le.
  - now apply is_int_lt.
Qed.

Lemma integers_are_exact_witness :
  to_Z (of_Z 300) = Some 300
  /\ (le (of_Z 300) (of_Z 3500) = true <-> 300 <= 3500)
  /\ (lt (of_Z 300) (of_Z 3500) = true <-> 300 < 3500).
Proof. apply (integers_are_exact 300 3500); reflexivity. Defined.



End NumberEdges.

(** * Pages *)
Module PageSpec.
Import JS Page.



End PageSpec.
